(** * Similarity measures of [similarities.pyx]

    A shallow embedding of the four similarity functions [cosine], [msd],
    [msdClone], [pearson] and of the helper [compute_mean_diff], followed by
    the properties of the matrices they return.

    Modelling conventions.
    - Python integers ([n_x], the ids and ratings found in [yr], the
      untyped locals [n] and [num] of [pearson]) are integers of [Z].
    - The variables declared [cdef int] hold 32-bit integers: assigning a
      Python integer outside [- 2 ^ 31, 2 ^ 31) raises [OverflowError], and
      arithmetic on two of them wraps modulo [2 ^ 32].  The cells of the
      [np.int] arrays and C [long] hold 64-bit integers, with arithmetic
      modulo [2 ^ 64].  The literal exponent in [r ** 2] is a [long], so the
      square is computed on [long] operands.
    - The cells of the [np.double] arrays are IEEE 754 binary64 numbers,
      values of [spec_float] with the operations of [SpecFloat] at precision
      53 and maximal exponent 1024 (rounding to nearest, ties to even).  The
      square [x ** 2] of a double is the rounded product [x * x].
    - A numpy array is a list of rows; indexing follows the buffer access
      that Cython generates by default (bounds checked, negative indices
      counted from the end).  [np.zeros] refuses a negative dimension and a
      size in bytes that exceeds a signed 64-bit integer; memory is
      otherwise taken to suffice.
    - Division of C operands raises [ZeroDivisionError] on a zero divisor
      (the [cdivision] directive is off); division by a numpy double does
      not raise.  [np.sqrt] of a Python integer raises [TypeError] when the
      integer fits neither a signed nor an unsigned 64-bit integer.
    - [yr] is the sequence [yr.items()] of the dictionary, in iteration
      order.
    - Exceptions are the [Raise] results of the monad [result]. *)

From Stdlib Require Import ZArith List Reals Lra Lia Psatz.
From Stdlib Require Import Floats.SpecFloat.
From stdpp Require Import base list.

Open Scope Z_scope.

(** ** Exceptions *)

Inductive exn :=
  ValueError | IndexError | OverflowError | TypeError | ZeroDivisionError.

Inductive result (A : Type) := Ok (a : A) | Raise (e : exn).
Arguments Ok {A} a.
Arguments Raise {A} e.

#[global] Instance result_ret : MRet result := @Ok.
#[global] Instance result_bind : MBind result :=
  fun A B f m => match m with Ok a => f a | Raise e => Raise e end.

(** [for x in l: body] threading the state [s]. *)
Fixpoint for_each {A S : Type} (l : list A) (body : A -> S -> result S) (s : S)
  : result S :=
  match l with
  | [] => Ok s
  | a :: l' => s' ← body a s; for_each l' body s'
  end.

(** [for x in range(lo, hi): body]. *)
Definition for_range {S : Type} (lo hi : Z) (body : Z -> S -> result S) (s : S)
  : result S :=
  for_each (seqZ lo (hi - lo)) body s.

(** ** Machine integers *)

(** The signed integer of [w] bits that is congruent to [z]. *)
Definition wrap_bits (w z : Z) : Z := (z + 2 ^ (w - 1)) mod 2 ^ w - 2 ^ (w - 1).

(** The result of an operation on [int] operands and on [long] operands. *)
Definition c_int (z : Z) : Z := wrap_bits 32 z.
Definition c_long (z : Z) : Z := wrap_bits 64 z.

(** The assignment of a Python integer to a variable declared [cdef int]. *)
Definition as_int (z : Z) : result Z :=
  if (- 2 ^ 31 <=? z) && (z <? 2 ^ 31) then Ok z else Raise OverflowError.

(** ** Doubles *)

Abbreviation double := spec_float.

Definition dadd : double -> double -> double := SFadd 53 1024.
Definition dsub : double -> double -> double := SFsub 53 1024.
Definition dmul : double -> double -> double := SFmul 53 1024.
Definition ddiv : double -> double -> double := SFdiv 53 1024.
Definition dsqrt : double -> double := SFsqrt 53 1024.
Definition dneg : double -> double := SFopp.

(** [a == b] *)
Definition d_eq : double -> double -> bool := SFeqb.

(** Conversion of an integer to the nearest double. *)
Definition d_of_Z (z : Z) : double := binary_normalize 53 1024 z 0 false.

Definition d_zero : double := S754_zero false.

(** [a == 0] *)
Definition d_eq0 (a : double) : bool := d_eq a d_zero.

(** [a ** 2] *)
Definition dsquare (a : double) : double := dmul a a.

(** [a / b] on a C double divisor. *)
Definition cdiv (a b : double) : result double :=
  if d_eq0 b then Raise ZeroDivisionError else Ok (ddiv a b).

(** [a / f] on a C long divisor. *)
Definition cdiv_long (a : double) (f : Z) : result double :=
  if f =? 0 then Raise ZeroDivisionError else Ok (ddiv a (d_of_Z f)).

(** [np.sqrt] of a Python integer. *)
Definition np_sqrt (z : Z) : result double :=
  if (- 2 ^ 63 <=? z) && (z <? 2 ^ 64) then Ok (dsqrt (d_of_Z z))
  else Raise TypeError.

(** ** Arrays *)

Abbreviation matrix A := (list (list A)).

(** [np.zeros((n_x, n_x))] with cells of 8 bytes. *)
Definition np_zeros {A : Type} (zero : A) (n_x : Z) : result (matrix A) :=
  if n_x <? 0 then Raise ValueError
  else if 2 ^ 30 <=? n_x then Raise ValueError
  else Ok (replicate (Z.to_nat n_x) (replicate (Z.to_nat n_x) zero)).

(** The position that an index [x] denotes along an axis of length [len]. *)
Definition axis_index (len : nat) (x : Z) : result nat :=
  if (0 <=? x) && (x <? Z.of_nat len) then Ok (Z.to_nat x)
  else if (- Z.of_nat len <=? x) && (x <? 0) then Ok (Z.to_nat (x + Z.of_nat len))
  else Raise IndexError.

(** [m[xi, xj]] *)
Definition mget {A : Type} (m : matrix A) (xi xj : Z) : result A :=
  i ← axis_index (length m) xi;
  match m !! i with
  | None => Raise IndexError
  | Some row =>
      j ← axis_index (length row) xj;
      match row !! j with
      | None => Raise IndexError
      | Some c => Ok c
      end
  end.

(** [m[xi, xj] = v] *)
Definition mset {A : Type} (m : matrix A) (xi xj : Z) (v : A)
  : result (matrix A) :=
  i ← axis_index (length m) xi;
  match m !! i with
  | None => Raise IndexError
  | Some row =>
      j ← axis_index (length row) xj;
      Ok (<[i := <[j := v]> row]> m)
  end.

(** [m[xi, xj] += v] *)
Definition minc {A : Type} (add : A -> A -> A) (m : matrix A) (xi xj : Z) (v : A)
  : result (matrix A) :=
  c ← mget m xi xj; mset m xi xj (add c v).

(** Addition in a cell of an [np.int] array and of an [np.double] array. *)
Definition ladd (c v : Z) : Z := c_long (c + v).

Definition linc := minc ladd.
Definition dinc := minc dadd.

(** ** Input *)

(** The ratings of one [y]: pairs [(x, r)]. *)
Abbreviation y_ratings_t := (list (Z * Z)).
(** [yr.items()] *)
Abbreviation yr_t := (list (Z * list (Z * Z))).

(** The traversal that the five functions share,
    [for y, y_ratings in yr.items(): for xi, r1 in y_ratings:
     for xj, r2 in y_ratings: body], with [xi], [r1], [xj] and [r2]
    declared [cdef int]. *)
Definition for_pairs {S : Type} (yr : yr_t)
    (body : Z -> Z -> Z -> Z -> S -> result S) (s : S) : result S :=
  for_each yr (fun '(y, y_ratings) st =>
    for_each y_ratings (fun '(xi, r1) st =>
      xi ← as_int xi;
      r1 ← as_int r1;
      for_each y_ratings (fun '(xj, r2) st =>
        xj ← as_int xj;
        r2 ← as_int r2;
        body xi r1 xj r2 st) st) st) s.

(** ** [cosine] *)

Record cosine_acc := {
  cos_prods : matrix Z;
  cos_freq : matrix Z;
  cos_sqi : matrix Z;
  cos_sqj : matrix Z
}.

Definition cosine_body (xi r1 xj r2 : Z) (st : cosine_acc) : result cosine_acc :=
  freq ← linc (cos_freq st) xi xj 1;
  prods ← linc (cos_prods st) xi xj (c_int (r1 * r2));
  sqi ← linc (cos_sqi st) xi xj (c_long (r1 * r1));
  sqj ← linc (cos_sqj st) xi xj (c_long (r2 * r2));
  Ok {| cos_prods := prods; cos_freq := freq; cos_sqi := sqi; cos_sqj := sqj |}.

(** The allocation of the accumulators and the first loop of [cosine]. *)
Definition cosine_accumulate (n_x : Z) (yr : yr_t) : result cosine_acc :=
  prods ← np_zeros 0 n_x;
  freq ← np_zeros 0 n_x;
  sqi ← np_zeros 0 n_x;
  sqj ← np_zeros 0 n_x;
  for_pairs yr cosine_body
    {| cos_prods := prods; cos_freq := freq; cos_sqi := sqi; cos_sqj := sqj |}.

Definition cosine (n_x : Z) (yr : yr_t) : result (matrix double) :=
  st ← cosine_accumulate n_x yr;
  sim ← np_zeros d_zero n_x;
  for_range 0 n_x (fun xi sim =>
    sim ← mset sim xi xi (d_of_Z 1);
    for_range (xi + 1) n_x (fun xj sim =>
      f ← mget (cos_freq st) xi xj;
      sim ← (if f =? 0 then mset sim xi xj (d_of_Z 0)
             else
               a ← mget (cos_sqi st) xi xj;
               b ← mget (cos_sqj st) xi xj;
               denum ← np_sqrt (c_long (a * b));
               p ← mget (cos_prods st) xi xj;
               mset sim xi xj (ddiv (d_of_Z p) denum));
      c ← mget sim xi xj;
      mset sim xj xi c) sim) sim.

(** ** [msd] *)

Record msd_acc := {
  msd_sq_diff : matrix double;
  msd_freq : matrix Z
}.

Definition msd_body (xi r1 xj r2 : Z) (st : msd_acc) : result msd_acc :=
  sq_diff ← dinc (msd_sq_diff st) xi xj
              (d_of_Z (c_long (c_int (r1 - r2) * c_int (r1 - r2))));
  freq ← linc (msd_freq st) xi xj 1;
  Ok {| msd_sq_diff := sq_diff; msd_freq := freq |}.

Definition msd_accumulate (n_x : Z) (yr : yr_t) : result msd_acc :=
  sq_diff ← np_zeros d_zero n_x;
  freq ← np_zeros 0 n_x;
  for_pairs yr msd_body {| msd_sq_diff := sq_diff; msd_freq := freq |}.

Definition msd (n_x : Z) (yr : yr_t) : result (matrix double) :=
  st ← msd_accumulate n_x yr;
  sim ← np_zeros d_zero n_x;
  for_range 0 n_x (fun xi sim =>
    sim ← mset sim xi xi (d_of_Z 100);
    for_range (xi + 1) n_x (fun xj sim =>
      s ← mget (msd_sq_diff st) xi xj;
      sim ← (if d_eq0 s then
               f ← mget (msd_freq st) xi xj;
               mset sim xi xj (d_of_Z f)
             else
               f ← mget (msd_freq st) xi xj;
               s' ← mget (msd_sq_diff st) xi xj;
               q ← cdiv (d_of_Z f) s';
               mset sim xi xj q);
      c ← mget sim xi xj;
      mset sim xj xi c) sim) sim.

(** ** [compute_mean_diff] *)

Record mean_diff_acc := {
  md_diff : matrix double;
  md_freq : matrix Z
}.

Definition mean_diff_body (xi r1 xj r2 : Z) (st : mean_diff_acc)
  : result mean_diff_acc :=
  diff ← dinc (md_diff st) xi xj (d_of_Z (c_int (r1 - r2)));
  freq ← linc (md_freq st) xi xj 1;
  Ok {| md_diff := diff; md_freq := freq |}.

Definition mean_diff_accumulate (n_x : Z) (yr : yr_t) : result mean_diff_acc :=
  diff ← np_zeros d_zero n_x;
  freq ← np_zeros 0 n_x;
  for_pairs yr mean_diff_body {| md_diff := diff; md_freq := freq |}.

Definition compute_mean_diff (n_x : Z) (yr : yr_t) : result (matrix double) :=
  st ← mean_diff_accumulate n_x yr;
  mean_diff ← np_zeros d_zero n_x;
  for_range 0 n_x (fun xi mean_diff =>
    mean_diff ← mset mean_diff xi xi (d_of_Z 0);
    for_range (xi + 1) n_x (fun xj mean_diff =>
      f ← mget (md_freq st) xi xj;
      if negb (f =? 0) then
        d ← mget (md_diff st) xi xj;
        f' ← mget (md_freq st) xi xj;
        q ← cdiv_long d f';
        mean_diff ← mset mean_diff xi xj q;
        c ← mget mean_diff xi xj;
        mset mean_diff xj xi (dneg c)
      else Ok mean_diff) mean_diff) mean_diff.

(** ** [msdClone] *)

Record msdClone_acc := {
  mc_mean_diff : matrix double;
  mc_sq_diff : matrix double;
  mc_freq : matrix Z
}.

Definition msdClone_body (xi r1 xj r2 : Z) (st : msdClone_acc)
  : result msdClone_acc :=
  m ← mget (mc_mean_diff st) xi xj;
  sq_diff ← dinc (mc_sq_diff st) xi xj
              (dsquare (dsub (d_of_Z (c_int (r1 - r2))) m));
  freq ← linc (mc_freq st) xi xj 1;
  Ok {| mc_mean_diff := mc_mean_diff st;
        mc_sq_diff := sq_diff; mc_freq := freq |}.

Definition msdClone_accumulate (n_x : Z) (yr : yr_t) : result msdClone_acc :=
  diff ← np_zeros d_zero n_x;
  sq_diff ← np_zeros d_zero n_x;
  freq ← np_zeros 0 n_x;
  mean_diff ← compute_mean_diff n_x yr;
  for_pairs yr msdClone_body
    {| mc_mean_diff := mean_diff; mc_sq_diff := sq_diff; mc_freq := freq |}.

Definition msdClone (n_x : Z) (yr : yr_t) : result (matrix double) :=
  st ← msdClone_accumulate n_x yr;
  sim ← np_zeros d_zero n_x;
  for_range 0 n_x (fun xi sim =>
    sim ← mset sim xi xi (d_of_Z 100);
    for_range (xi + 1) n_x (fun xj sim =>
      s ← mget (mc_sq_diff st) xi xj;
      sim ← (if d_eq0 s then
               f ← mget (mc_freq st) xi xj;
               mset sim xi xj (d_of_Z f)
             else
               f ← mget (mc_freq st) xi xj;
               s' ← mget (mc_sq_diff st) xi xj;
               q ← cdiv (d_of_Z f) s';
               mset sim xi xj q);
      c ← mget sim xi xj;
      mset sim xj xi c) sim) sim.

(** ** [pearson] *)

Record pearson_acc := {
  pe_freq : matrix Z;
  pe_prods : matrix Z;
  pe_sqi : matrix Z;
  pe_sqj : matrix Z;
  pe_si : matrix Z;
  pe_sj : matrix Z
}.

Definition pearson_body (xi r1 xj r2 : Z) (st : pearson_acc) : result pearson_acc :=
  prods ← linc (pe_prods st) xi xj (c_int (r1 * r2));
  freq ← linc (pe_freq st) xi xj 1;
  sqi ← linc (pe_sqi st) xi xj (c_long (r1 * r1));
  sqj ← linc (pe_sqj st) xi xj (c_long (r2 * r2));
  si ← linc (pe_si st) xi xj r1;
  sj ← linc (pe_sj st) xi xj r2;
  Ok {| pe_freq := freq; pe_prods := prods; pe_sqi := sqi;
        pe_sqj := sqj; pe_si := si; pe_sj := sj |}.

Definition pearson_accumulate (n_x : Z) (yr : yr_t) : result pearson_acc :=
  freq ← np_zeros 0 n_x;
  prods ← np_zeros 0 n_x;
  sqi ← np_zeros 0 n_x;
  sqj ← np_zeros 0 n_x;
  si ← np_zeros 0 n_x;
  sj ← np_zeros 0 n_x;
  for_pairs yr pearson_body
    {| pe_freq := freq; pe_prods := prods; pe_sqi := sqi;
       pe_sqj := sqj; pe_si := si; pe_sj := sj |}.

(** [n] and [num] are Python integers; the products and squares of two
    cells are computed on [long] operands. *)
Definition pearson (n_x : Z) (yr : yr_t) : result (matrix double) :=
  st ← pearson_accumulate n_x yr;
  sim ← np_zeros d_zero n_x;
  for_range 0 n_x (fun xi sim =>
    sim ← mset sim xi xi (d_of_Z 1);
    for_range (xi + 1) n_x (fun xj sim =>
      n ← mget (pe_freq st) xi xj;
      p ← mget (pe_prods st) xi xj;
      a ← mget (pe_si st) xi xj;
      b ← mget (pe_sj st) xi xj;
      let num := n * p - c_long (a * b) in
      qi ← mget (pe_sqi st) xi xj;
      a' ← mget (pe_si st) xi xj;
      qj ← mget (pe_sqj st) xi xj;
      b' ← mget (pe_sj st) xi xj;
      denum ← np_sqrt ((n * qi - c_long (a' * a')) * (n * qj - c_long (b' * b')));
      sim ← (if d_eq0 denum then mset sim xi xj (d_of_Z 0)
             else mset sim xi xj (ddiv (d_of_Z num) denum));
      c ← mget sim xi xj;
      mset sim xj xi c) sim) sim.

(** ** Vocabulary of the statements *)

(** The input that the functions are written for: a dimension that is not
    negative, ids within [0, n_x), and no [x] twice under one [y]. *)
Definition wf_ratings (n_x : Z) (l : y_ratings_t) : Prop :=
  Forall (fun p => 0 <= p.1 < n_x) l /\ NoDup (l.*1).

Definition wf_input (n_x : Z) (yr : yr_t) : Prop :=
  0 <= n_x /\ Forall (fun yl => wf_ratings n_x yl.2) yr.

#[global] Instance wf_ratings_dec n_x l : Decision (wf_ratings n_x l).
Proof. unfold wf_ratings. apply _. Defined.

#[global] Instance wf_input_dec n_x yr : Decision (wf_input n_x yr).
Proof. unfold wf_input. apply _. Defined.

(** The ids and the ratings that occur in [yr]. *)
Definition ids_of (yr : yr_t) : list Z := yl ← yr; yl.2.*1.
Definition ratings_of (yr : yr_t) : list Z := yl ← yr; yl.2.*2.

(** The integers that a variable declared [cdef int] holds. *)
Definition int_range (z : Z) : Prop := - 2 ^ 31 <= z < 2 ^ 31.

#[global] Instance int_range_dec z : Decision (int_range z).
Proof. unfold int_range. apply _. Defined.

(** The range of inputs on which the arrays can be allocated and the
    ratings are assigned to [r1] and [r2] without an error. *)
Definition in_range (n_x : Z) (yr : yr_t) : Prop :=
  n_x < 2 ^ 30 /\ Forall int_range (ratings_of yr).

#[global] Instance in_range_dec n_x yr : Decision (in_range n_x yr).
Proof. unfold in_range. apply _. Defined.

(** Ratings of absolute value at most [B]. *)
Definition rating_bound (B : Z) (yr : yr_t) : Prop :=
  Forall (fun r => - B <= r <= B) (ratings_of yr).

#[global] Instance rating_bound_dec B yr : Decision (rating_bound B yr).
Proof. unfold rating_bound. apply _. Defined.

(** The rating that a [y] gave to [x], if any. *)
Fixpoint rating_of (x : Z) (l : y_ratings_t) : option Z :=
  match l with
  | [] => None
  | (x', r) :: l' => if decide (x' = x) then Some r else rating_of x l'
  end.

(** The pairs [(r_i, r_j)] of the ys that rated both [i] and [j], in the
    order of [yr]. *)
Definition corated (yr : yr_t) (i j : Z) : list (Z * Z) :=
  yl ← yr;
  match rating_of i yl.2, rating_of j yl.2 with
  | Some ri, Some rj => [(ri, rj)]
  | _, _ => []
  end.

(** The number of co-ratings of [i] and [j]. *)
Definition co_count (yr : yr_t) (i j : Z) : Z := Z.of_nat (length (corated yr i j)).

Definition sumZ (f : Z * Z -> Z) (L : list (Z * Z)) : Z :=
  foldr (fun p a => f p + a) 0 L.

(** The sum of doubles, added from the left as the loops do. *)
Definition d_sum (l : list double) : double := foldl dadd d_zero l.

(** The cell of each function for a pair of entities, from the list [L] of
    their co-ratings, as the two loops compute it. *)
Definition cosine_sim (L : list (Z * Z)) : double :=
  if c_long (Z.of_nat (length L)) =? 0 then d_of_Z 0
  else
    let sqi := c_long (sumZ (fun p => c_long (p.1 * p.1)) L) in
    let sqj := c_long (sumZ (fun p => c_long (p.2 * p.2)) L) in
    let prods := c_long (sumZ (fun p => c_int (p.1 * p.2)) L) in
    ddiv (d_of_Z prods) (dsqrt (d_of_Z (c_long (sqi * sqj)))).

Definition msd_sq_diff_of (L : list (Z * Z)) : double :=
  d_sum ((fun p => d_of_Z (c_long (c_int (p.1 - p.2) * c_int (p.1 - p.2)))) <$> L).

Definition msd_sim (L : list (Z * Z)) : double :=
  let s := msd_sq_diff_of L in
  let f := c_long (Z.of_nat (length L)) in
  if d_eq0 s then d_of_Z f else ddiv (d_of_Z f) s.

Definition diff_of (L : list (Z * Z)) : double :=
  d_sum ((fun p => d_of_Z (c_int (p.1 - p.2))) <$> L).

Definition mean_diff_of (L : list (Z * Z)) : double :=
  let f := c_long (Z.of_nat (length L)) in
  if negb (f =? 0) then ddiv (diff_of L) (d_of_Z f) else d_zero.

(** The cell below the diagonal that mirrors it. *)
Definition mean_diff_mirror (L : list (Z * Z)) : double :=
  let f := c_long (Z.of_nat (length L)) in
  if negb (f =? 0) then dneg (ddiv (diff_of L) (d_of_Z f)) else d_zero.

Definition msdClone_sq_diff_of (m : double) (L : list (Z * Z)) : double :=
  d_sum ((fun p => dsquare (dsub (d_of_Z (c_int (p.1 - p.2))) m)) <$> L).

Definition msdClone_sim (L : list (Z * Z)) : double :=
  let s := msdClone_sq_diff_of (mean_diff_of L) L in
  let f := c_long (Z.of_nat (length L)) in
  if d_eq0 s then d_of_Z f else ddiv (d_of_Z f) s.

Definition pearson_num_of (L : list (Z * Z)) : Z :=
  let n := c_long (Z.of_nat (length L)) in
  let p := c_long (sumZ (fun p => c_int (p.1 * p.2)) L) in
  let a := c_long (sumZ (fun p => p.1) L) in
  let b := c_long (sumZ (fun p => p.2) L) in
  n * p - c_long (a * b).

Definition pearson_radicand_of (L : list (Z * Z)) : Z :=
  let n := c_long (Z.of_nat (length L)) in
  let a := c_long (sumZ (fun p => p.1) L) in
  let b := c_long (sumZ (fun p => p.2) L) in
  let qi := c_long (sumZ (fun p => c_long (p.1 * p.1)) L) in
  let qj := c_long (sumZ (fun p => c_long (p.2 * p.2)) L) in
  (n * qi - c_long (a * a)) * (n * qj - c_long (b * b)).

Definition pearson_sim (L : list (Z * Z)) : result double :=
  denum ← np_sqrt (pearson_radicand_of L);
  Ok (if d_eq0 denum then d_of_Z 0
      else ddiv (d_of_Z (pearson_num_of L)) denum).

(** The input of the end-to-end example of the documentation. *)
Definition example_yr : yr_t :=
  [(0, [(0, 4); (1, 4); (2, 1)]); (1, [(0, 5); (1, 5)])].

(** Further inputs: one [y] with the same rating for two entities; two ys
    with the ratings of the second entity twice those of the first plus
    three; an id below zero; ratings equal to zero. *)
Definition constant_yr : yr_t := [(0, [(0, 4); (1, 4)])].
Definition negative_id_yr : yr_t := [(0, [(-1, 3)])].
Definition zero_ratings_yr : yr_t := [(0, [(0, 0); (1, 0)])].

(** Inputs with large ratings: a product of two ratings that does not fit
    32 bits, in one y and as the second of two ys; two ys, one of them with
    a difference of ratings that does not fit 32 bits; sums of squares whose product does not fit 64 bits; four
    ys whose ratings make the radicand of [pearson] exceed 64 bits, with a
    third entity that nobody rated; a rating that does not fit 32 bits. *)
Definition large_product_yr : yr_t := [(0, [(0, 50000); (1, 50000)])].
Definition large_covariance_yr : yr_t :=
  [(0, [(0, 0); (1, 0)]); (1, [(0, 50000); (1, 50000)])].
Definition large_difference_yr : yr_t :=
  [(0, [(0, 2000000000); (1, -2000000000)]); (1, [(0, 0); (1, 0)])].
Definition large_squares_yr : yr_t := [(0, [(0, 65536); (1, 65536)])].
Definition large_radicand_yr : yr_t :=
  [(0, [(0, 0); (1, 0)]); (1, [(0, 0); (1, 0)]);
   (2, [(0, 46340); (1, 46340)]); (3, [(0, 46340); (1, 46340)])].
Definition large_rating_yr : yr_t := [(0, [(0, 2147483648); (1, 1)])].


(** The entity that an id within [- n_x, n_x) denotes, and the input in
    which every id is replaced by it. *)
Definition normalize_id (n_x x : Z) : Z := if x <? 0 then x + n_x else x.

Definition normalize_ratings (n_x : Z) (l : y_ratings_t) : y_ratings_t :=
  (fun p => (normalize_id n_x p.1, p.2)) <$> l.

Definition normalize_yr (n_x : Z) (yr : yr_t) : yr_t :=
  (fun yl => (yl.1, normalize_ratings n_x yl.2)) <$> yr.

Definition normalize_visit (n_x : Z) (a : (Z * Z) * (Z * Z)) : (Z * Z) * (Z * Z) :=
  ((normalize_id n_x a.1.1, a.1.2), (normalize_id n_x a.2.1, a.2.2)).

(** ** Vocabulary of the proofs *)

(** An index that the buffer access accepts along an axis of length [n]. *)
Definition valid_id (n : nat) (x : Z) : Prop := - Z.of_nat n <= x < Z.of_nat n.

Definition wrap (n : nat) (x : Z) : nat :=
  Z.to_nat (if 0 <=? x then x else x + Z.of_nat n).

Definition square {A : Type} (n : nat) (m : matrix A) : Prop :=
  length m = n /\ Forall (fun row => length row = n) m.

(** The cell at a position. *)
Definition at2 {A : Type} (m : matrix A) (i j : nat) : option A :=
  row ← m !! i; row !! j.

(** The matrix with one cell replaced. *)
Definition upd2 {A : Type} (m : matrix A) (i j : nat) (v : A) : matrix A :=
  match m !! i with
  | Some row => <[i := <[j := v]> row]> m
  | None => m
  end.

(** The matrix after [m[i, j] += v]. *)
Definition pinc {A : Type} (add : A -> A -> A) (m : matrix A) (i j : nat) (v : A)
  : matrix A :=
  match at2 m i j with
  | Some c => upd2 m i j (add c v)
  | None => m
  end.

(** The ordered pairs of entries of one list, then of all lists, in the
    order in which the three nested loops visit them. *)
Definition pairs_of (l : y_ratings_t) : list ((Z * Z) * (Z * Z)) :=
  p1 ← l; p2 ← l; [(p1, p2)].

Definition all_pairs (yr : yr_t) : list ((Z * Z) * (Z * Z)) :=
  yl ← yr; pairs_of yl.2.

(** The body of the traversal at one visit: the four assignments, then
    the statements of the loop. *)
Definition visit {S : Type} (body : Z -> Z -> Z -> Z -> S -> result S)
    (a : (Z * Z) * (Z * Z)) (s : S) : result S :=
  xi ← as_int a.1.1;
  r1 ← as_int a.1.2;
  xj ← as_int a.2.1;
  r2 ← as_int a.2.2;
  body xi r1 xj r2 s.

(** A visit whose ids and ratings fit the variables, and one whose two ids
    the buffer access accepts. *)
Definition fits (a : (Z * Z) * (Z * Z)) : Prop :=
  int_range a.1.1 /\ int_range a.1.2 /\ int_range a.2.1 /\ int_range a.2.2.

Definition good (n : nat) (a : (Z * Z) * (Z * Z)) : Prop :=
  valid_id n a.1.1 /\ valid_id n a.2.1.

#[global] Instance fits_dec a : Decision (fits a).
Proof. unfold fits. apply _. Defined.

#[global] Instance good_dec n a : Decision (good n a).
Proof. unfold good, valid_id. apply _. Defined.

(** The error of a visit, if any. *)
Definition visit_error (n : nat) (a : (Z * Z) * (Z * Z)) : option exn :=
  if decide (fits a) then
    if decide (good n a) then None else Some IndexError
  else Some OverflowError.

(** The error of the first visit that has one. *)
Fixpoint first_error (n : nat) (l : list ((Z * Z) * (Z * Z))) : option exn :=
  match l with
  | [] => None
  | a :: l' =>
      match visit_error n a with
      | Some e => Some e
      | None => first_error n l'
      end
  end.

(** The visits of the loops that update the cell [(i, j)]. *)
Definition hits (n i j : nat) (a : (Z * Z) * (Z * Z)) : Prop :=
  wrap n a.1.1 = i /\ wrap n a.2.1 = j.

#[global] Instance hits_dec n i j a : Decision (hits n i j a).
Proof. unfold hits. apply _. Defined.

(** The value that the second loop leaves in the cell [(i, j)]: [d] on the
    diagonal, [V] above it and [W], mirrored, below it. *)
Definition fill_target (d : double) (V W : Z -> Z -> double) (i j : Z) : double :=
  if decide (i = j) then d else if decide (i < j) then V i j else W j i.

(** The cells that the second loop has written when it reaches the column
    [k] of the row [xi]. *)
Definition fill_done (xi k : Z) (i j : Z) : Prop :=
  Z.min i j < xi \/ (Z.min i j = xi /\ (i = j \/ Z.max i j < k)).

(** A matrix whose written cells hold their value and whose other cells
    still hold [z0]. *)
Definition filled (n_x : Z) (d z0 : double) (V W : Z -> Z -> double)
    (done : Z -> Z -> Prop) (sim : matrix double) : Prop :=
  square (Z.to_nat n_x) sim /\
  forall i j, 0 <= i < n_x -> 0 <= j < n_x ->
    (done i j -> at2 sim (Z.to_nat i) (Z.to_nat j) = Some (fill_target d V W i j)) /\
    (~ done i j -> at2 sim (Z.to_nat i) (Z.to_nat j) = Some z0).

(** The cell read by [m[i, j]], or [d] when the access fails. *)
Definition cell_or {A : Type} (d : A) (m : matrix A) (i j : Z) : A :=
  match mget m i j with Ok c => c | Raise _ => d end.

(** The value of a result, or [d] when it is an error. *)
Definition value_or {A : Type} (d : A) (r : result A) : A :=
  match r with Ok c => c | Raise _ => d end.

(** The values that the second loops compute from the accumulators. *)
Definition cosine_cell (st : cosine_acc) (i j : Z) : double :=
  if cell_or 0 (cos_freq st) i j =? 0 then d_of_Z 0
  else ddiv (d_of_Z (cell_or 0 (cos_prods st) i j))
            (dsqrt (d_of_Z (c_long (cell_or 0 (cos_sqi st) i j *
                                    cell_or 0 (cos_sqj st) i j)))).

Definition msd_cell (st : msd_acc) (i j : Z) : double :=
  let s := cell_or d_zero (msd_sq_diff st) i j in
  let f := cell_or 0 (msd_freq st) i j in
  if d_eq0 s then d_of_Z f else ddiv (d_of_Z f) s.

Definition mean_diff_cell (st : mean_diff_acc) (i j : Z) : double :=
  let f := cell_or 0 (md_freq st) i j in
  if negb (f =? 0) then ddiv (cell_or d_zero (md_diff st) i j) (d_of_Z f)
  else d_zero.

Definition mean_diff_cell_mirror (st : mean_diff_acc) (i j : Z) : double :=
  let f := cell_or 0 (md_freq st) i j in
  if negb (f =? 0) then dneg (ddiv (cell_or d_zero (md_diff st) i j) (d_of_Z f))
  else d_zero.

Definition msdClone_cell (st : msdClone_acc) (i j : Z) : double :=
  let s := cell_or d_zero (mc_sq_diff st) i j in
  let f := cell_or 0 (mc_freq st) i j in
  if d_eq0 s then d_of_Z f else ddiv (d_of_Z f) s.

Definition pearson_cell (st : pearson_acc) (i j : Z) : result double :=
  let n := cell_or 0 (pe_freq st) i j in
  let p := cell_or 0 (pe_prods st) i j in
  let a := cell_or 0 (pe_si st) i j in
  let b := cell_or 0 (pe_sj st) i j in
  let qi := cell_or 0 (pe_sqi st) i j in
  let qj := cell_or 0 (pe_sqj st) i j in
  let num := n * p - c_long (a * b) in
  denum ← np_sqrt ((n * qi - c_long (a * a)) * (n * qj - c_long (b * b)));
  Ok (if d_eq0 denum then d_of_Z 0 else ddiv (d_of_Z num) denum).

(** The accumulators keep their shape. *)
Definition cosine_inv (n : nat) (st : cosine_acc) : Prop :=
  square n (cos_prods st) /\ square n (cos_freq st) /\
  square n (cos_sqi st) /\ square n (cos_sqj st).

Definition msd_inv (n : nat) (st : msd_acc) : Prop :=
  square n (msd_sq_diff st) /\ square n (msd_freq st).

Definition mean_diff_inv (n : nat) (st : mean_diff_acc) : Prop :=
  square n (md_diff st) /\ square n (md_freq st).

Definition msdClone_inv (n : nat) (md : matrix double) (st : msdClone_acc) : Prop :=
  mc_mean_diff st = md /\ square n (mc_sq_diff st) /\ square n (mc_freq st).

Definition pearson_inv (n : nat) (st : pearson_acc) : Prop :=
  square n (pe_freq st) /\ square n (pe_prods st) /\
  square n (pe_sqi st) /\ square n (pe_sqj st) /\
  square n (pe_si st) /\ square n (pe_sj st).


(** The doubles that a rounding with sign [s] from the exponent [e] can
    give: a zero, a finite double of exponent at least [e], or an
    infinity; and those it gives for a mantissa large enough. *)
Inductive rounded (s : bool) (e : Z) : double -> Prop :=
  | rounded_zero : rounded s e (S754_zero s)
  | rounded_finite m' e' : e <= e' -> rounded s e (S754_finite s m' e')
  | rounded_infinity : rounded s e (S754_infinity s).

Inductive rounded_pos (s : bool) (e : Z) : double -> Prop :=
  | rounded_pos_finite m' e' : e <= e' -> rounded_pos s e (S754_finite s m' e')
  | rounded_pos_infinity : rounded_pos s e (S754_infinity s).

(** The doubles other than the not-a-number value. *)
Inductive is_number : double -> Prop :=
  | number_zero s : is_number (S754_zero s)
  | number_finite s m e : is_number (S754_finite s m e)
  | number_infinity s : is_number (S754_infinity s).
(** * Results *)

(** ** The monad *)

Lemma bind_Ok {A B : Type} (a : A) (f : A -> result B) : (Ok a ≫= f) = f a.
Proof. reflexivity. Qed.

Lemma for_each_app {A S : Type} (l1 l2 : list A) (body : A -> S -> result S) s :
  for_each (l1 ++ l2) body s = (for_each l1 body s ≫= for_each l2 body).
Proof.
  revert s. induction l1 as [|a l1 IH]; intros s; simpl; [done|].
  destruct (body a s) as [s'|e]; simpl; [apply IH|done].
Qed.

(** ** Indexing *)

Section Indexing.

Context {A : Type}.

Lemma wrap_lt n x : valid_id n x -> (wrap n x < n)%nat.
Proof.
  unfold valid_id, wrap. intros H.
  destruct (Z.leb_spec 0 x); lia.
Qed.

Lemma wrap_nonneg n x : 0 <= x -> wrap n x = Z.to_nat x.
Proof. unfold wrap. intros H. destruct (Z.leb_spec 0 x); [done|lia]. Qed.

Lemma axis_index_valid n x : valid_id n x -> axis_index n x = Ok (wrap n x).
Proof.
  unfold valid_id, axis_index, wrap. intros H.
  destruct (Z.leb_spec 0 x); simpl.
  - destruct (Z.ltb_spec x (Z.of_nat n)); [done|lia].
  - destruct (Z.leb_spec (- Z.of_nat n) x); [|lia].
    destruct (Z.ltb_spec x 0); [done|lia].
Qed.

Lemma axis_index_invalid n x : ~ valid_id n x -> axis_index n x = Raise IndexError.
Proof.
  unfold valid_id, axis_index. intros H.
  destruct (Z.leb_spec 0 x), (Z.ltb_spec x (Z.of_nat n)),
    (Z.leb_spec (- Z.of_nat n) x), (Z.ltb_spec x 0); simpl; try done; lia.
Qed.

Lemma square_row n (m : matrix A) i :
  square n m -> (i < n)%nat -> exists row, m !! i = Some row /\ length row = n.
Proof.
  intros [Hl Hr] Hi.
  destruct (lookup_lt_is_Some_2 m i) as [row Hrow]; [lia|].
  exists row. split; [done|].
  rewrite Forall_lookup in Hr. by apply (Hr i).
Qed.

Lemma at2_Some n (m : matrix A) i j :
  square n m -> (i < n)%nat -> (j < n)%nat -> is_Some (at2 m i j).
Proof.
  intros Hsq Hi Hj. destruct (square_row n m i Hsq Hi) as (row & Hrow & Hlen).
  unfold at2. rewrite Hrow. simpl. apply lookup_lt_is_Some_2. lia.
Qed.

Lemma square_upd2 n (m : matrix A) i j v :
  square n m -> square n (upd2 m i j v).
Proof.
  intros [Hl Hr]. unfold upd2. destruct (m !! i) as [row|] eqn:Hrow; [|done].
  split; [by rewrite length_insert|].
  apply Forall_insert; [done|]. simpl. rewrite length_insert.
  rewrite Forall_lookup in Hr. by apply (Hr i).
Qed.

Lemma at2_upd2 n (m : matrix A) i j v i' j' :
  square n m -> (i < n)%nat -> (j < n)%nat ->
  at2 (upd2 m i j v) i' j' =
    if decide (i = i' /\ j = j') then Some v else at2 m i' j'.
Proof.
  intros Hsq Hi Hj. destruct (square_row n m i Hsq Hi) as (row & Hrow & Hlen).
  unfold upd2, at2. rewrite Hrow.
  destruct (decide (i = i')) as [<-|Hne].
  - rewrite list_lookup_insert_eq by (apply lookup_lt_Some in Hrow; lia). simpl.
    destruct (decide (j = j')) as [<-|Hne].
    + rewrite list_lookup_insert_eq by lia.
      by rewrite decide_True.
    + rewrite list_lookup_insert_ne by done.
      rewrite decide_False by tauto. by rewrite Hrow.
  - rewrite list_lookup_insert_ne by done.
    by rewrite decide_False by tauto.
Qed.

Lemma square_zeros (z : A) n : square n (replicate n (replicate n z)).
Proof.
  split; [apply length_replicate|].
  apply Forall_replicate. apply length_replicate.
Qed.

Lemma at2_zeros (z : A) n i j :
  (i < n)%nat -> (j < n)%nat -> at2 (replicate n (replicate n z)) i j = Some z.
Proof.
  intros Hi Hj. unfold at2. rewrite lookup_replicate_2 by done. simpl.
  by rewrite lookup_replicate_2.
Qed.

Lemma np_zeros_ok (z : A) n_x :
  0 <= n_x < 2 ^ 30 ->
  np_zeros z n_x = Ok (replicate (Z.to_nat n_x) (replicate (Z.to_nat n_x) z)).
Proof.
  unfold np_zeros. intros H. destruct (Z.ltb_spec n_x 0); [lia|].
  destruct (Z.leb_spec (2 ^ 30) n_x); [lia|done].
Qed.

Lemma np_zeros_refused (z : A) n_x :
  n_x < 0 \/ 2 ^ 30 <= n_x -> np_zeros z n_x = Raise ValueError.
Proof.
  unfold np_zeros. intros H. destruct (Z.ltb_spec n_x 0); [done|].
  destruct (Z.leb_spec (2 ^ 30) n_x); [done|lia].
Qed.

Lemma mget_valid n (m : matrix A) xi xj :
  square n m -> valid_id n xi -> valid_id n xj ->
  exists c, at2 m (wrap n xi) (wrap n xj) = Some c /\ mget m xi xj = Ok c.
Proof.
  intros Hsq Hi Hj.
  pose proof (wrap_lt _ _ Hi) as Hi'. pose proof (wrap_lt _ _ Hj) as Hj'.
  destruct (square_row n m _ Hsq Hi') as (row & Hrow & Hlen).
  destruct (lookup_lt_is_Some_2 row (wrap n xj)) as [c Hc]; [lia|].
  exists c. unfold at2, mget. destruct Hsq as [Hl _].
  rewrite Hl, (axis_index_valid _ _ Hi). simpl. rewrite Hrow. simpl.
  rewrite Hlen, (axis_index_valid _ _ Hj). simpl. by rewrite Hc.
Qed.

Lemma mset_valid n (m : matrix A) xi xj v :
  square n m -> valid_id n xi -> valid_id n xj ->
  mset m xi xj v = Ok (upd2 m (wrap n xi) (wrap n xj) v).
Proof.
  intros Hsq Hi Hj.
  pose proof (wrap_lt _ _ Hi) as Hi'.
  destruct (square_row n m _ Hsq Hi') as (row & Hrow & Hlen).
  unfold upd2, mset. destruct Hsq as [Hl _].
  rewrite Hl, (axis_index_valid _ _ Hi). simpl. rewrite Hrow.
  by rewrite Hlen, (axis_index_valid _ _ Hj).
Qed.

Lemma mget_invalid n (m : matrix A) xi xj :
  square n m -> ~ valid_id n xi \/ ~ valid_id n xj ->
  mget m xi xj = Raise IndexError.
Proof.
  intros Hsq Hbad. unfold mget. pose proof Hsq as [Hl _]. rewrite Hl.
  destruct (decide (valid_id n xi)) as [Hi|Hi].
  - destruct Hbad as [?|Hj]; [done|].
    pose proof (wrap_lt _ _ Hi) as Hi'.
    destruct (square_row n m _ Hsq Hi') as (row & Hrow & Hlen).
    rewrite (axis_index_valid _ _ Hi). simpl. rewrite Hrow.
    by rewrite Hlen, (axis_index_invalid _ _ Hj).
  - by rewrite (axis_index_invalid _ _ Hi).
Qed.

Lemma minc_valid (add : A -> A -> A) n (m : matrix A) xi xj v :
  square n m -> valid_id n xi -> valid_id n xj ->
  exists c, at2 m (wrap n xi) (wrap n xj) = Some c /\
    minc add m xi xj v = Ok (upd2 m (wrap n xi) (wrap n xj) (add c v)).
Proof.
  intros Hsq Hi Hj.
  destruct (mget_valid n m xi xj Hsq Hi Hj) as (c & Hc & Hget).
  exists c. split; [done|]. unfold minc. rewrite Hget. simpl.
  by apply mset_valid.
Qed.

Lemma minc_invalid (add : A -> A -> A) n (m : matrix A) xi xj v :
  square n m -> ~ valid_id n xi \/ ~ valid_id n xj ->
  minc add m xi xj v = Raise IndexError.
Proof.
  intros Hsq Hbad. unfold minc. by rewrite (mget_invalid n m xi xj Hsq Hbad).
Qed.

Lemma minc_pinc (add : A -> A -> A) n (m : matrix A) xi xj v :
  square n m -> valid_id n xi -> valid_id n xj ->
  minc add m xi xj v = Ok (pinc add m (wrap n xi) (wrap n xj) v).
Proof.
  intros Hsq Hi Hj.
  destruct (minc_valid add n m xi xj v Hsq Hi Hj) as (c & Hc & ->).
  unfold pinc. by rewrite Hc.
Qed.

Lemma square_pinc (add : A -> A -> A) n (m : matrix A) i j v :
  square n m -> square n (pinc add m i j v).
Proof.
  intros Hsq. unfold pinc. destruct (at2 m i j); [|done].
  by apply square_upd2.
Qed.

Lemma at2_pinc (add : A -> A -> A) n (m : matrix A) i j v i' j' :
  square n m -> (i < n)%nat -> (j < n)%nat ->
  at2 (pinc add m i j v) i' j' =
    if decide (i = i' /\ j = j') then (fun c => add c v) <$> at2 m i' j'
    else at2 m i' j'.
Proof.
  intros Hsq Hi Hj. unfold pinc.
  destruct (at2_Some n m i j Hsq Hi Hj) as [c Hc]. rewrite Hc.
  rewrite (at2_upd2 n) by done.
  destruct (decide (i = i' /\ j = j')) as [[<- <-]|]; [|done].
  by rewrite Hc.
Qed.

End Indexing.

(** ** The loops *)

Lemma for_each_ext {A S : Type} (l : list A) (b1 b2 : A -> S -> result S) s :
  (forall a s, b1 a s = b2 a s) -> for_each l b1 s = for_each l b2 s.
Proof.
  intros Hb. revert s. induction l as [|a l IH]; intros s; simpl; [done|].
  rewrite Hb. destruct (b2 a s); simpl; [apply IH|done].
Qed.

Lemma for_each_bind {A B S : Type} (l : list A) (f : A -> list B)
    (body : B -> S -> result S) s :
  for_each (l ≫= f) body s = for_each l (fun a s => for_each (f a) body s) s.
Proof.
  revert s. induction l as [|a l IH]; intros s; [done|].
  change ((a :: l) ≫= f) with (f a ++ (l ≫= f)).
  rewrite for_each_app. simpl.
  destruct (for_each (f a) body s); simpl; [apply IH|done].
Qed.

Lemma for_each_single {A S : Type} (a : A) (body : A -> S -> result S) s :
  for_each [a] body s = body a s.
Proof. simpl. by destruct (body a s). Qed.

(** ** Machine integers *)

Lemma wrap_bits_id w z :
  0 < w -> - 2 ^ (w - 1) <= z < 2 ^ (w - 1) -> wrap_bits w z = z.
Proof.
  intros Hw Hz. unfold wrap_bits.
  assert (2 ^ w = 2 * 2 ^ (w - 1)) as E.
  { replace w with (Z.succ (w - 1)) at 1 by lia. rewrite Z.pow_succ_r by lia. done. }
  rewrite Z.mod_small by lia. lia.
Qed.

Lemma wrap_bits_range w z :
  0 < w -> - 2 ^ (w - 1) <= wrap_bits w z < 2 ^ (w - 1).
Proof.
  intros Hw. unfold wrap_bits.
  assert (2 ^ w = 2 * 2 ^ (w - 1)) as E.
  { replace w with (Z.succ (w - 1)) at 1 by lia. rewrite Z.pow_succ_r by lia. done. }
  assert (0 < 2 ^ (w - 1)) by (apply Z.pow_pos_nonneg; lia).
  pose proof (Z.mod_pos_bound (z + 2 ^ (w - 1)) (2 ^ w)). lia.
Qed.

Lemma wrap_bits_add w a b : wrap_bits w (wrap_bits w a + b) = wrap_bits w (a + b).
Proof.
  unfold wrap_bits. f_equal.
  replace ((a + 2 ^ (w - 1)) mod 2 ^ w - 2 ^ (w - 1) + b + 2 ^ (w - 1))
    with ((a + 2 ^ (w - 1)) mod 2 ^ w + b) by lia.
  rewrite Zplus_mod_idemp_l. f_equal. lia.
Qed.

Lemma c_int_id z : - 2 ^ 31 <= z < 2 ^ 31 -> c_int z = z.
Proof. intros H. apply wrap_bits_id; [lia|]. exact H. Qed.

Lemma c_long_id z : - 2 ^ 63 <= z < 2 ^ 63 -> c_long z = z.
Proof. intros H. apply wrap_bits_id; [lia|]. exact H. Qed.

Lemma c_int_range z : - 2 ^ 31 <= c_int z < 2 ^ 31.
Proof. apply (wrap_bits_range 32). lia. Qed.

Lemma c_long_range z : - 2 ^ 63 <= c_long z < 2 ^ 63.
Proof. apply (wrap_bits_range 64). lia. Qed.

Lemma as_int_fits z : int_range z -> as_int z = Ok z.
Proof.
  unfold int_range, as_int. intros H.
  destruct (Z.leb_spec (- 2 ^ 31) z); [|lia].
  destruct (Z.ltb_spec z (2 ^ 31)); [done|lia].
Qed.

Lemma as_int_unfit z : ~ int_range z -> as_int z = Raise OverflowError.
Proof.
  unfold int_range, as_int. intros H.
  destruct (Z.leb_spec (- 2 ^ 31) z); [|done].
  destruct (Z.ltb_spec z (2 ^ 31)); [lia|done].
Qed.

Lemma np_sqrt_long z : np_sqrt (c_long z) = Ok (dsqrt (d_of_Z (c_long z))).
Proof.
  unfold np_sqrt. pose proof (c_long_range z).
  destruct (Z.leb_spec (- 2 ^ 63) (c_long z)); [|lia].
  destruct (Z.ltb_spec (c_long z) (2 ^ 64)); [done|lia].
Qed.

(** ** The traversal *)

Lemma visit_fits {S : Type} (body : Z -> Z -> Z -> Z -> S -> result S) a s :
  fits a -> visit body a s = body a.1.1 a.1.2 a.2.1 a.2.2 s.
Proof.
  intros (H1 & H2 & H3 & H4). unfold visit.
  by rewrite !as_int_fits by done.
Qed.

Lemma visit_unfit {S : Type} (body : Z -> Z -> Z -> Z -> S -> result S) a s :
  ~ fits a -> visit body a s = Raise OverflowError.
Proof.
  unfold fits, visit. intros H.
  destruct (decide (int_range a.1.1)) as [H1|H1];
    [rewrite (as_int_fits _ H1)|by rewrite (as_int_unfit _ H1)].
  destruct (decide (int_range a.1.2)) as [H2|H2];
    [rewrite (as_int_fits _ H2)|by rewrite (as_int_unfit _ H2)].
  destruct (decide (int_range a.2.1)) as [H3|H3];
    [rewrite (as_int_fits _ H3)|by rewrite (as_int_unfit _ H3)].
  destruct (decide (int_range a.2.2)) as [H4|H4];
    [tauto|by rewrite (as_int_unfit _ H4)].
Qed.

(** The inner loop under one entry of the outer loop.  The inner list is
    the list that the outer loop runs over, hence not empty. *)
Lemma inner_loop_flat {S : Type} (body : Z -> Z -> Z -> Z -> S -> result S)
    (p1 : Z * Z) (l2 : y_ratings_t) (s : S) :
  l2 <> [] ->
  (xi ← as_int p1.1;
   r1 ← as_int p1.2;
   for_each l2 (fun '(xj, r2) st =>
     xj ← as_int xj; r2 ← as_int r2; body xi r1 xj r2 st) s) =
  for_each (l2 ≫= fun p2 => [(p1, p2)]) (visit body) s.
Proof.
  intros Hne. rewrite for_each_bind.
  destruct (decide (int_range p1.1)) as [H1|H1].
  - rewrite (as_int_fits _ H1).
    destruct (decide (int_range p1.2)) as [H2|H2].
    + rewrite (as_int_fits _ H2), !bind_Ok. apply for_each_ext.
      intros [xj r2] s'. rewrite for_each_single. unfold visit. simpl.
      by rewrite (as_int_fits _ H1), (as_int_fits _ H2).
    + rewrite (as_int_unfit _ H2). simpl.
      destruct l2 as [|p2 l2]; [done|]. simpl. unfold visit. simpl.
      by rewrite (as_int_fits _ H1), (as_int_unfit _ H2).
  - rewrite (as_int_unfit _ H1). simpl.
    destruct l2 as [|p2 l2]; [done|]. simpl. unfold visit. simpl.
    by rewrite (as_int_unfit _ H1).
Qed.

(** The three nested loops visit the ordered pairs one after the other. *)
Lemma for_pairs_flat {S : Type} (yr : yr_t) body (s : S) :
  for_pairs yr body s = for_each (all_pairs yr) (visit body) s.
Proof.
  unfold for_pairs, all_pairs, pairs_of. rewrite for_each_bind.
  apply for_each_ext. intros [y l] s1. simpl. rewrite for_each_bind.
  destruct l as [|p l']; [done|]. set (l := p :: l').
  apply for_each_ext. intros [xi r1] s2.
  apply (inner_loop_flat body (xi, r1) l s2). done.
Qed.

(** A loop whose body adds [val a] to the cell that the visit [a] denotes
    leaves in every cell the initial value plus the values of the visits
    of that cell, in order. *)
Lemma accumulate_cells {S A : Type} n (Inv : S -> Prop) (proj : S -> matrix A)
    (add : A -> A -> A) (val : (Z * Z) * (Z * Z) -> A) body :
  (forall s, Inv s -> square n (proj s)) ->
  (forall a s, fits a -> good n a -> Inv s ->
     exists s', body a.1.1 a.1.2 a.2.1 a.2.2 s = Ok s' /\ Inv s' /\
       proj s' = pinc add (proj s) (wrap n a.1.1) (wrap n a.2.1) (val a)) ->
  forall l, first_error n l = None -> forall s, Inv s ->
  exists s', for_each l (visit body) s = Ok s' /\ Inv s' /\
    forall i j, at2 (proj s') i j =
      (fun c => foldl (fun c a => add c (val a)) c (filter (hits n i j) l))
        <$> at2 (proj s) i j.
Proof.
  intros Hsq Hbody l. induction l as [|a l IH]; intros Hl s Hs.
  - exists s. repeat split; [done|]. intros i j. simpl.
    by destruct (at2 (proj s) i j).
  - simpl in Hl. unfold visit_error in Hl.
    destruct (decide (fits a)) as [Hf|]; [|done].
    destruct (decide (good n a)) as [Ha|]; [|done].
    destruct (Hbody a s Hf Ha Hs) as (s1 & Hb & Hs1 & Hp).
    destruct (IH Hl s1 Hs1) as (s2 & Hrun & Hs2 & Hc).
    exists s2. simpl. rewrite (visit_fits _ _ _ Hf), Hb. simpl.
    repeat split; [done..|].
    intros i j. rewrite Hc, Hp. destruct Ha as [Ha1 Ha2].
    rewrite (at2_pinc add n) by (by apply Hsq || by apply wrap_lt).
    rewrite filter_cons.
    destruct (decide (hits n i j a)) as [Hh|Hh].
    + rewrite decide_True by exact Hh. by destruct (at2 (proj s) i j).
    + by rewrite decide_False by exact Hh.
Qed.

(** A loop stops with the error of the first visit that has one. *)
Lemma for_each_error {S : Type} n (Inv : S -> Prop)
    (body : Z -> Z -> Z -> Z -> S -> result S) :
  (forall a s, good n a -> Inv s ->
     exists s', body a.1.1 a.1.2 a.2.1 a.2.2 s = Ok s' /\ Inv s') ->
  (forall a s, ~ good n a -> Inv s ->
     body a.1.1 a.1.2 a.2.1 a.2.2 s = Raise IndexError) ->
  forall l e, first_error n l = Some e -> forall s : S, Inv s ->
  for_each l (visit body) s = Raise e.
Proof.
  intros Hok Hbad l e. induction l as [|a l IH]; intros He s Hs; [done|].
  simpl in He. unfold visit_error in He. simpl.
  destruct (decide (fits a)) as [Hf|Hf].
  - rewrite (visit_fits _ _ _ Hf).
    destruct (decide (good n a)) as [Ha|Ha].
    + destruct (Hok a s Ha Hs) as (s1 & -> & Hs1). simpl. by apply IH.
    + injection He as <-. by rewrite (Hbad a s Ha Hs).
  - injection He as <-. by rewrite (visit_unfit _ _ _ Hf).
Qed.

Lemma first_error_None n l :
  Forall (fun a => fits a /\ good n a) l -> first_error n l = None.
Proof.
  induction 1 as [|a l [Hf Hg] _ IH]; [done|]. simpl. unfold visit_error.
  rewrite decide_True by done. by rewrite decide_True by done.
Qed.

(** The error is [OverflowError] or [IndexError]. *)
Lemma first_error_kind n l e :
  first_error n l = Some e -> e = OverflowError \/ e = IndexError.
Proof.
  induction l as [|a l IH]; [done|]. simpl. unfold visit_error.
  destruct (decide (fits a)); [|intros [= <-]; by left].
  destruct (decide (good n a)); [done|intros [= <-]; by right].
Qed.

Lemma first_error_Some n l :
  Exists (fun a => ~ (fits a /\ good n a)) l -> is_Some (first_error n l).
Proof.
  induction 1 as [a l Ha|a l _ IH]; simpl; unfold visit_error.
  - destruct (decide (fits a)); [|done].
    destruct (decide (good n a)); [tauto|done].
  - destruct (decide (fits a)); [|done].
    destruct (decide (good n a)); done.
Qed.

(** Among visits whose ids are accepted, the only error is that of the
    assignment of a value that does not fit. *)
Lemma first_error_good n l :
  Forall (good n) l -> Exists (fun a => ~ fits a) l ->
  first_error n l = Some OverflowError.
Proof.
  intros Hg. induction Hg as [|a l Ha Hg IH]; intros Hex.
  - by apply Exists_nil in Hex.
  - simpl. unfold visit_error. destruct (decide (fits a)); [|done].
    rewrite decide_True by done. apply IH.
    apply Exists_cons in Hex. tauto.
Qed.

Lemma elem_of_pairs_of l p1 p2 : (p1, p2) ∈ pairs_of l <-> p1 ∈ l /\ p2 ∈ l.
Proof.
  unfold pairs_of. rewrite list_elem_of_bind. split.
  - intros (q1 & Hin & Hq1). apply list_elem_of_bind in Hin.
    destruct Hin as (q2 & Hin & Hq2). apply list_elem_of_singleton in Hin.
    by inversion Hin; subst.
  - intros [H1 H2]. exists p1. split; [|done].
    apply list_elem_of_bind. exists p2. split; [|done].
    by apply list_elem_of_singleton.
Qed.

Lemma all_pairs_good n (yr : yr_t) :
  Forall (valid_id n) (ids_of yr) -> Forall (good n) (all_pairs yr).
Proof.
  rewrite !Forall_forall. intros Hv [p1 p2] Hin.
  unfold all_pairs in Hin. apply list_elem_of_bind in Hin.
  destruct Hin as (yl & Hin & Hyl). apply elem_of_pairs_of in Hin.
  destruct Hin as [H1 H2].
  split; apply Hv; unfold ids_of; apply list_elem_of_bind; exists yl;
    (split; [|done]); by apply list_elem_of_fmap_2.
Qed.

Lemma elem_of_all_pairs (yr : yr_t) a :
  a ∈ all_pairs yr ->
  a.1.1 ∈ ids_of yr /\ a.2.1 ∈ ids_of yr /\
  a.1.2 ∈ ratings_of yr /\ a.2.2 ∈ ratings_of yr.
Proof.
  destruct a as [p1 p2]. intros Hin.
  unfold all_pairs in Hin. apply list_elem_of_bind in Hin.
  destruct Hin as (yl & Hin & Hyl). apply elem_of_pairs_of in Hin.
  destruct Hin as [H1 H2].
  repeat split; unfold ids_of, ratings_of; apply list_elem_of_bind; exists yl;
    (split; [|done]); by apply list_elem_of_fmap_2.
Qed.

Lemma all_pairs_fits (yr : yr_t) :
  Forall int_range (ids_of yr) -> Forall int_range (ratings_of yr) ->
  Forall fits (all_pairs yr).
Proof.
  rewrite !Forall_forall. intros Hi Hr a Hin.
  apply elem_of_all_pairs in Hin. destruct Hin as (? & ? & ? & ?).
  unfold fits. split; [|split; [|split]]; auto.
Qed.

Lemma all_pairs_id (yr : yr_t) x :
  x ∈ ids_of yr -> exists a, a ∈ all_pairs yr /\ a.1.1 = x /\ a.2.1 = x.
Proof.
  intros Hin. unfold ids_of in Hin. apply list_elem_of_bind in Hin.
  destruct Hin as (yl & Hin & Hyl). apply list_elem_of_fmap in Hin.
  destruct Hin as (p & -> & Hp).
  exists (p, p). split; [|done].
  unfold all_pairs. apply list_elem_of_bind. exists yl. split; [|done].
  by apply elem_of_pairs_of.
Qed.

Lemma all_pairs_rating (yr : yr_t) r :
  r ∈ ratings_of yr -> exists a, a ∈ all_pairs yr /\ a.1.2 = r.
Proof.
  intros Hin. unfold ratings_of in Hin. apply list_elem_of_bind in Hin.
  destruct Hin as (yl & Hin & Hyl). apply list_elem_of_fmap in Hin.
  destruct Hin as (p & -> & Hp).
  exists (p, p). split; [|done].
  unfold all_pairs. apply list_elem_of_bind. exists yl. split; [|done].
  by apply elem_of_pairs_of.
Qed.

(** ** Visits of a cell and co-ratings *)

Lemma filter_bind {A B : Type} (P : B -> Prop) `{!forall b, Decision (P b)}
    (l : list A) (f : A -> list B) :
  filter P (l ≫= f) = l ≫= (fun a => filter P (f a)).
Proof.
  induction l as [|a l IH]; [done|].
  change ((a :: l) ≫= f) with (f a ++ (l ≫= f)).
  rewrite filter_app, IH. done.
Qed.

Lemma rating_of_None x (l : y_ratings_t) : x ∉ l.*1 -> rating_of x l = None.
Proof.
  induction l as [|[x' r] l IH]; [done|]. simpl. intros Hn.
  apply not_elem_of_cons in Hn. destruct Hn as [Hne Hn].
  rewrite decide_False by done. by apply IH.
Qed.

Lemma rating_of_Some x r (l : y_ratings_t) :
  rating_of x l = Some r -> (x, r) ∈ l.
Proof.
  induction l as [|[x' r'] l IH]; [done|]. simpl.
  destruct (decide (x' = x)) as [->|Hne].
  - intros [= ->]. apply list_elem_of_here.
  - intros H. apply list_elem_of_further. by apply IH.
Qed.

(** Among ratings that are well formed, the entries that denote the
    position of [x] are the rating of [x], if there is one. *)
Lemma filter_position n_x (l : y_ratings_t) x :
  wf_ratings n_x l -> 0 <= x ->
  filter (fun p => wrap (Z.to_nat n_x) p.1 = Z.to_nat x) l =
    match rating_of x l with Some r => [(x, r)] | None => [] end.
Proof.
  intros [Hr Hnd] Hx. induction l as [|[x' r] l IH]; [done|].
  apply Forall_cons in Hr. destruct Hr as [Hx' Hr]. simpl in Hx'.
  change (((x', r) :: l).*1) with (x' :: l.*1) in Hnd.
  apply NoDup_cons in Hnd. destruct Hnd as [Hnin Hnd].
  rewrite filter_cons. simpl. rewrite wrap_nonneg by lia.
  destruct (decide (x' = x)) as [->|Hne].
  - rewrite decide_True by done. rewrite IH by done.
    by rewrite rating_of_None by done.
  - rewrite decide_False by lia. by apply IH.
Qed.

Lemma filter_hits_row n i j p1 (l2 : y_ratings_t) :
  filter (hits n i j) (l2 ≫= fun p2 => [(p1, p2)]) =
  if decide (wrap n p1.1 = i)
  then filter (fun p => wrap n p.1 = j) l2 ≫= fun p2 => [(p1, p2)]
  else [].
Proof.
  induction l2 as [|p2 l2 IH2].
  - by destruct (decide _).
  - change ((p2 :: l2) ≫= ?f) with (f p2 ++ (l2 ≫= f)).
    rewrite filter_app, IH2, !filter_cons, filter_nil.
    destruct (decide (wrap n p1.1 = i)) as [H1|H1];
      destruct (decide (wrap n p2.1 = j)) as [H2|H2].
    + by rewrite decide_True by done.
    + by rewrite decide_False by (unfold hits; simpl; tauto).
    + by rewrite decide_False by (unfold hits; simpl; tauto).
    + by rewrite decide_False by (unfold hits; simpl; tauto).
Qed.

Lemma filter_hits_bind n i j (l1 l2 : y_ratings_t) :
  filter (hits n i j) (l1 ≫= fun p1 => l2 ≫= fun p2 => [(p1, p2)]) =
  filter (fun p => wrap n p.1 = i) l1 ≫= fun p1 =>
  filter (fun p => wrap n p.1 = j) l2 ≫= fun p2 => [(p1, p2)].
Proof.
  rewrite filter_bind. induction l1 as [|p1 l1 IH]; [done|].
  change ((p1 :: l1) ≫= ?f) with (f p1 ++ (l1 ≫= f)). rewrite IH.
  rewrite filter_cons, filter_hits_row.
  by destruct (decide _).
Qed.

(** The visits of the cell [(i, j)] under one [y]. *)
Lemma filter_hits_pairs n_x (l : y_ratings_t) i j :
  wf_ratings n_x l -> 0 <= i -> 0 <= j ->
  filter (hits (Z.to_nat n_x) (Z.to_nat i) (Z.to_nat j)) (pairs_of l) =
    match rating_of i l, rating_of j l with
    | Some ri, Some rj => [((i, ri), (j, rj))]
    | _, _ => []
    end.
Proof.
  intros Hwf Hi Hj. unfold pairs_of. rewrite filter_hits_bind.
  rewrite !(filter_position n_x) by done.
  destruct (rating_of i l), (rating_of j l); done.
Qed.

(** The visits of the cell [(i, j)] are the co-ratings of [i] and [j]. *)
Lemma filter_hits_corated n_x (yr : yr_t) i j :
  wf_input n_x yr -> 0 <= i -> 0 <= j ->
  filter (hits (Z.to_nat n_x) (Z.to_nat i) (Z.to_nat j)) (all_pairs yr) =
    (fun p => ((i, p.1), (j, p.2))) <$> corated yr i j.
Proof.
  intros [_ Hwf] Hi Hj. unfold all_pairs, corated.
  rewrite filter_bind. induction Hwf as [|yl yr Hyl Hwf IH]; [done|].
  change ((yl :: yr) ≫= ?f) with (f yl ++ (yr ≫= f)).
  rewrite fmap_app, IH. f_equal.
  rewrite (filter_hits_pairs n_x) by done.
  destruct (rating_of i yl.2), (rating_of j yl.2); done.
Qed.

(** ** The second loop *)

(** A loop over a range whose steps keep an invariant, or stop with an
    error among [E]. *)
Lemma for_range_result {S : Type} (I : Z -> S -> Prop) (E : exn -> Prop)
    lo hi body (s : S) :
  lo <= hi -> I lo s ->
  (forall k s, lo <= k < hi -> I k s ->
     (exists s', body k s = Ok s' /\ I (k + 1) s') \/
     (exists e, body k s = Raise e /\ E e)) ->
  (exists s', for_range lo hi body s = Ok s' /\ I hi s') \/
  (exists e, for_range lo hi body s = Raise e /\ E e).
Proof.
  unfold for_range. intros Hle Hs Hstep.
  remember (Z.to_nat (hi - lo)) as len eqn:Hlen.
  revert lo s Hle Hs Hstep Hlen.
  induction len as [|len IH]; intros lo s Hle Hs Hstep Hlen.
  - assert (lo = hi) as -> by lia. rewrite seqZ_nil by lia. left. by exists s.
  - rewrite seqZ_cons by lia. simpl.
    destruct (Hstep lo s) as [(s1 & -> & Hs1)|(e & -> & He)]; [lia|done| |].
    + simpl. replace (Z.pred (hi - lo)) with (hi - Z.succ lo) by lia.
      apply IH; [lia| |intros; apply Hstep|]; try lia.
      * by replace (Z.succ lo) with (lo + 1) by lia.
      * done.
    + right. by exists e.
Qed.

Lemma for_range_inv {S : Type} (I : Z -> S -> Prop) lo hi body (s : S) :
  lo <= hi -> I lo s ->
  (forall k s, lo <= k < hi -> I k s -> exists s', body k s = Ok s' /\ I (k + 1) s') ->
  exists s', for_range lo hi body s = Ok s' /\ I hi s'.
Proof.
  intros Hle Hs Hstep.
  destruct (for_range_result I (fun _ => False) lo hi body s)
    as [H|(e & _ & [])]; [done|done| |done].
  intros k s' Hk Hs'. left. by apply Hstep.
Qed.

Lemma filled_iff n_x d z0 V W (done1 done2 : Z -> Z -> Prop) sim :
  (forall i j, 0 <= i < n_x -> 0 <= j < n_x -> done1 i j <-> done2 i j) ->
  filled n_x d z0 V W done1 sim -> filled n_x d z0 V W done2 sim.
Proof.
  intros Hiff [Hsq Hc]. split; [done|]. intros i j Hi Hj.
  destruct (Hc i j Hi Hj) as [H1 H2]. pose proof (Hiff i j Hi Hj).
  split; intros; [apply H1|apply H2]; tauto.
Qed.

(** The shape shared by the second loops: the diagonal cell of a row, then
    the cells right of it together with their mirror images.  A step
    establishes [P] for its pair, or stops with an error among [E]. *)
Lemma fill_spec n_x d z0 V W (P : Z -> Z -> Prop) (E : exn -> Prop)
    (body_in : Z -> Z -> matrix double -> result (matrix double)) :
  0 <= n_x ->
  (forall xi xj sim, 0 <= xi < xj -> xj < n_x ->
     square (Z.to_nat n_x) sim ->
     at2 sim (Z.to_nat xi) (Z.to_nat xj) = Some z0 ->
     at2 sim (Z.to_nat xj) (Z.to_nat xi) = Some z0 ->
     (exists sim', body_in xi xj sim = Ok sim' /\ square (Z.to_nat n_x) sim' /\
        P xi xj /\
        forall i j, at2 sim' i j =
          if decide (Z.to_nat xi = i /\ Z.to_nat xj = j) then Some (V xi xj)
          else if decide (Z.to_nat xj = i /\ Z.to_nat xi = j) then Some (W xi xj)
          else at2 sim i j) \/
     (exists e, body_in xi xj sim = Raise e /\ E e)) ->
  (exists sim,
    for_range 0 n_x (fun xi sim =>
      sim ← mset sim xi xi d;
      for_range (xi + 1) n_x (body_in xi) sim)
      (replicate (Z.to_nat n_x) (replicate (Z.to_nat n_x) z0)) = Ok sim /\
    filled n_x d z0 V W (fun _ _ => True) sim /\
    forall i j, 0 <= i < j -> j < n_x -> P i j) \/
  (exists e,
    for_range 0 n_x (fun xi sim =>
      sim ← mset sim xi xi d;
      for_range (xi + 1) n_x (body_in xi) sim)
      (replicate (Z.to_nat n_x) (replicate (Z.to_nat n_x) z0)) = Raise e /\ E e).
Proof.
  intros Hn Hbody.
  destruct (for_range_result
    (fun k sim => filled n_x d z0 V W (fun i j => Z.min i j < k) sim /\
                  forall i j, 0 <= i < j -> j < n_x -> i < k -> P i j) E
    0 n_x
    (fun xi sim => sim ← mset sim xi xi d;
                   for_range (xi + 1) n_x (body_in xi) sim)
    (replicate (Z.to_nat n_x) (replicate (Z.to_nat n_x) z0)))
    as [(sim & Hrun & Hfin & HP)|Herr]; [done| | | |by right].
  - split; [|intros; lia]. split; [apply square_zeros|].
    intros i j Hi Hj. split; [lia|].
    intros _. apply at2_zeros; lia.
  - intros k sim Hk [[Hsq Hc] HP].
    rewrite (mset_valid (Z.to_nat n_x)) by (done || unfold valid_id; lia).
    simpl. rewrite wrap_nonneg by lia.
    destruct (for_range_result
      (fun k' sim => filled n_x d z0 V W (fill_done k k') sim /\
                     forall i j, 0 <= i < j -> j < n_x ->
                       i < k \/ (i = k /\ j < k') -> P i j) E
      (k + 1) n_x (body_in k)
      (upd2 sim (Z.to_nat k) (Z.to_nat k) d))
      as [(sim' & Hrun & Hfin & HP')|Herr]; [lia| | | |by right].
    + split; [|intros i j Hi Hj [?|[? ?]]; [by apply HP|lia]].
      split; [by apply square_upd2|]. intros i j Hi Hj.
      rewrite (at2_upd2 (Z.to_nat n_x)) by (done || lia).
      destruct (Hc i j Hi Hj) as [H1 H2]. unfold fill_done.
      destruct (decide (Z.to_nat k = Z.to_nat i /\ Z.to_nat k = Z.to_nat j))
        as [[? ?]|Hne].
      * split; [|lia]. intros _. unfold fill_target.
        by rewrite decide_True by lia.
      * split; intros Hd; [apply H1|apply H2]; lia.
    + intros k' sim1 Hk' [[Hsq1 Hc1] HP1].
      destruct (Hbody k k' sim1)
        as [(sim2 & Hb & Hsq2 & Hp2 & Hc2)|Herr]; [lia|lia|done| | | |by right].
      { apply Hc1; [lia|lia|]. unfold fill_done. lia. }
      { apply Hc1; [lia|lia|]. unfold fill_done. lia. }
      left. exists sim2. split; [done|]. split.
      * split; [done|]. intros i j Hi Hj.
        rewrite Hc2. destruct (Hc1 i j Hi Hj) as [H1 H2].
        unfold fill_done in *. unfold fill_target.
        destruct (decide (Z.to_nat k = Z.to_nat i /\ Z.to_nat k' = Z.to_nat j))
          as [[? ?]|Hne1].
        { split; [|lia]. intros _. assert (i = k) as -> by lia.
          assert (j = k') as -> by lia.
          rewrite decide_False by lia. by rewrite decide_True by lia. }
        destruct (decide (Z.to_nat k' = Z.to_nat i /\ Z.to_nat k = Z.to_nat j))
          as [[? ?]|Hne2].
        { split; [|lia]. intros _. assert (i = k') as -> by lia.
          assert (j = k) as -> by lia.
          rewrite decide_False by lia. by rewrite decide_False by lia. }
        split; intros Hd; [apply H1|apply H2]; lia.
      * intros i j Hi Hj Hd.
        destruct (decide (i = k /\ j = k')) as [[-> ->]|Hne]; [done|].
        apply HP1; [done|done|lia].
    + left. exists sim'. split; [done|]. split.
      * revert Hfin. apply filled_iff.
        intros i j Hi Hj. unfold fill_done. lia.
      * intros i j Hi Hj Hd. apply HP'; [done|done|lia].
  - left. exists sim. split; [done|]. split.
    + revert Hfin. apply filled_iff. intros i j Hi Hj. lia.
    + intros i j Hi Hj. apply HP; [done|done|lia].
Qed.

Lemma filled_mget n_x d z0 V W sim i j :
  filled n_x d z0 V W (fun _ _ => True) sim ->
  0 <= i < n_x -> 0 <= j < n_x ->
  mget sim i j = Ok (fill_target d V W i j).
Proof.
  intros [Hsq Hc] Hi Hj.
  destruct (mget_valid (Z.to_nat n_x) sim i j) as (c & Hc' & ->);
    [done|unfold valid_id; lia..|].
  rewrite !wrap_nonneg in Hc' by lia.
  destruct (Hc i j Hi Hj) as [H1 _]. rewrite H1 in Hc' by done. congruence.
Qed.

Lemma mget_nonneg {A : Type} n_x (m : matrix A) i j :
  square (Z.to_nat n_x) m -> 0 <= i < n_x -> 0 <= j < n_x ->
  exists c, at2 m (Z.to_nat i) (Z.to_nat j) = Some c /\ mget m i j = Ok c.
Proof.
  intros Hsq Hi Hj.
  destruct (mget_valid (Z.to_nat n_x) m i j) as (c & Hc & Hg);
    [done|unfold valid_id; lia..|].
  rewrite !wrap_nonneg in Hc by lia. by exists c.
Qed.

Lemma not_good n a :
  ~ good n a -> ~ valid_id n a.1.1 \/ ~ valid_id n a.2.1.
Proof.
  unfold good. intros H.
  destruct (decide (valid_id n a.1.1)); [|by left].
  destruct (decide (valid_id n a.2.1)); [|by right]. tauto.
Qed.

(** ** A cell and its mirror image *)

Lemma mirror_step n_x (sim : matrix double) xi xj v (g : double -> double) :
  0 <= xi < xj -> xj < n_x -> square (Z.to_nat n_x) sim ->
  exists sim',
    (sim1 ← mset sim xi xj v; c ← mget sim1 xi xj; mset sim1 xj xi (g c))
      = Ok sim' /\
    square (Z.to_nat n_x) sim' /\
    forall i j, at2 sim' i j =
      if decide (Z.to_nat xi = i /\ Z.to_nat xj = j) then Some v
      else if decide (Z.to_nat xj = i /\ Z.to_nat xi = j) then Some (g v)
      else at2 sim i j.
Proof.
  intros Hi Hj Hsq.
  assert (valid_id (Z.to_nat n_x) xi) as Hvi by (unfold valid_id; lia).
  assert (valid_id (Z.to_nat n_x) xj) as Hvj by (unfold valid_id; lia).
  rewrite (mset_valid (Z.to_nat n_x)) by done. rewrite bind_Ok.
  rewrite !wrap_nonneg by lia.
  set (sim1 := upd2 sim (Z.to_nat xi) (Z.to_nat xj) v).
  assert (square (Z.to_nat n_x) sim1) as Hsq1 by by apply square_upd2.
  destruct (mget_nonneg n_x sim1 xi xj) as (c & Hc & ->); [done|lia|lia|].
  unfold sim1 in Hc. rewrite (at2_upd2 (Z.to_nat n_x)) in Hc by (done || lia).
  rewrite decide_True in Hc by done. injection Hc as <-.
  rewrite bind_Ok, (mset_valid (Z.to_nat n_x)) by done.
  rewrite !wrap_nonneg by lia.
  eexists. split; [done|]. split; [by apply square_upd2|].
  intros i j. rewrite (at2_upd2 (Z.to_nat n_x)) by (done || lia).
  unfold sim1. rewrite (at2_upd2 (Z.to_nat n_x)) by (done || lia).
  repeat case_decide; try done; lia.
Qed.

(** The second loop of the four similarity functions: the value of a cell
    above the diagonal, which may raise, then its copy below. *)
Lemma mirror_fill n_x d (val : Z -> Z -> result double)
    (body_in : Z -> Z -> matrix double -> result (matrix double)) :
  0 <= n_x ->
  (forall xi xj sim, 0 <= xi < xj -> xj < n_x ->
     square (Z.to_nat n_x) sim ->
     body_in xi xj sim =
       (v ← val xi xj;
        sim1 ← mset sim xi xj v; c ← mget sim1 xi xj; mset sim1 xj xi c)) ->
  let V := fun i j => value_or d_zero (val i j) in
  (exists sim,
    for_range 0 n_x (fun xi sim =>
      sim ← mset sim xi xi d;
      for_range (xi + 1) n_x (body_in xi) sim)
      (replicate (Z.to_nat n_x) (replicate (Z.to_nat n_x) d_zero)) = Ok sim /\
    filled n_x d d_zero V V (fun _ _ => True) sim /\
    forall i j, 0 <= i < j -> j < n_x -> val i j = Ok (V i j)) \/
  (exists e,
    for_range 0 n_x (fun xi sim =>
      sim ← mset sim xi xi d;
      for_range (xi + 1) n_x (body_in xi) sim)
      (replicate (Z.to_nat n_x) (replicate (Z.to_nat n_x) d_zero)) = Raise e /\
    exists i j, 0 <= i < j /\ j < n_x /\ val i j = Raise e).
Proof.
  intros Hn Hbody V. apply fill_spec; [done|].
  intros xi xj sim Hi Hj Hsq _ _. rewrite Hbody by done.
  destruct (val xi xj) as [v|e] eqn:Hv.
  - left. rewrite bind_Ok.
    destruct (mirror_step n_x sim xi xj v (fun c => c)) as (sim' & Hr & Hs & Hc);
      [done..|].
    exists sim'. split; [done|]. split; [done|]. unfold V. rewrite Hv.
    split; [done|]. exact Hc.
  - right. exists e. split; [done|]. by exists xi, xj.
Qed.

(** ** Sums over the co-ratings *)

Lemma sumZ_cons f p L : sumZ f (p :: L) = f p + sumZ f L.
Proof. done. Qed.

Lemma ladd_c_long c v : ladd (c_long c) v = c_long (c + v).
Proof. unfold ladd, c_long. apply wrap_bits_add. Qed.

Lemma foldl_ladd (f : Z * Z -> Z) L c :
  foldl (fun c p => ladd c (f p)) (c_long c) L = c_long (c + sumZ f L).
Proof.
  revert c. induction L as [|p L IH]; intros c.
  - simpl. f_equal. lia.
  - cbn [foldl]. rewrite ladd_c_long, IH, sumZ_cons. f_equal. lia.
Qed.

Lemma foldl_ladd_0 (f : Z * Z -> Z) L :
  foldl (fun c p => ladd c (f p)) 0 L = c_long (sumZ f L).
Proof.
  change 0 with (c_long 0) at 1. by rewrite foldl_ladd.
Qed.

Lemma foldl_dadd (g : Z * Z -> double) L :
  foldl (fun c p => dadd c (g p)) d_zero L = d_sum (g <$> L).
Proof. unfold d_sum. by rewrite foldl_fmap. Qed.

Lemma sumZ_ones L : sumZ (fun _ => 1) L = Z.of_nat (length L).
Proof. induction L as [|p L IH]; simpl; lia. Qed.

Lemma sumZ_ext f g L : (forall p, p ∈ L -> f p = g p) -> sumZ f L = sumZ g L.
Proof.
  induction L as [|p L IH]; intros H; simpl; [done|].
  rewrite H by apply list_elem_of_here. rewrite IH; [done|].
  intros q Hq. apply H. by apply list_elem_of_further.
Qed.

Lemma sumZ_bound f M L :
  (forall p, p ∈ L -> - M <= f p <= M) ->
  - (Z.of_nat (length L) * M) <= sumZ f L <= Z.of_nat (length L) * M.
Proof.
  induction L as [|p L IH]; intros H; [simpl; lia|].
  rewrite sumZ_cons. pose proof (H p (list_elem_of_here _ _)).
  assert (- (Z.of_nat (length L) * M) <= sumZ f L <= Z.of_nat (length L) * M)
    by (apply IH; intros q Hq; apply H; by apply list_elem_of_further).
  simpl length. lia.
Qed.

Lemma visits_corated {A : Type} n_x yr i j (add : A -> A -> A) val c :
  wf_input n_x yr -> 0 <= i -> 0 <= j ->
  foldl (fun c a => add c (val a)) c
    (filter (hits (Z.to_nat n_x) (Z.to_nat i) (Z.to_nat j)) (all_pairs yr)) =
  foldl (fun c p => add c (val ((i, p.1), (j, p.2)))) c (corated yr i j).
Proof.
  intros Hwf Hi Hj. rewrite (filter_hits_corated n_x) by done.
  by rewrite foldl_fmap.
Qed.

Lemma wf_ids n_x yr :
  wf_input n_x yr -> Forall (valid_id (Z.to_nat n_x)) (ids_of yr).
Proof.
  intros [Hn Hwf]. rewrite Forall_forall. intros x Hin.
  unfold ids_of in Hin. apply list_elem_of_bind in Hin.
  destruct Hin as (yl & Hin & Hyl). apply list_elem_of_fmap in Hin.
  destruct Hin as (p & -> & Hp).
  rewrite Forall_forall in Hwf. destruct (Hwf yl Hyl) as [Hr _].
  rewrite Forall_forall in Hr. specialize (Hr p Hp).
  unfold valid_id. lia.
Qed.

Lemma at2_mget {A : Type} n_x (m : matrix A) i j c :
  square (Z.to_nat n_x) m -> 0 <= i < n_x -> 0 <= j < n_x ->
  at2 m (Z.to_nat i) (Z.to_nat j) = Some c -> mget m i j = Ok c.
Proof.
  intros Hsq Hi Hj Hc.
  destruct (mget_nonneg n_x m i j Hsq Hi Hj) as (c' & Hc' & ->). congruence.
Qed.

Lemma cell_or_mget {A : Type} (d : A) (m : matrix A) i j c :
  mget m i j = Ok c -> cell_or d m i j = c.
Proof. unfold cell_or. by intros ->. Qed.

(** A read of an accumulator inside the second loop. *)
Ltac read_cell n_x m xi xj :=
  let c := fresh "c" in
  let Hc := fresh "Hc" in
  let Hg := fresh "Hg" in
  destruct (mget_nonneg n_x m xi xj) as (c & Hc & Hg); [done|lia|lia|];
  rewrite ?Hg, ?bind_Ok, ?(cell_or_mget _ m xi xj c Hg).

(** ** Inputs without an error in the first loop *)

Lemma wf_ids_range n_x yr :
  wf_input n_x yr -> Forall (fun x => 0 <= x < n_x) (ids_of yr).
Proof.
  intros [Hn Hwf]. rewrite Forall_forall. intros x Hin.
  unfold ids_of in Hin. apply list_elem_of_bind in Hin.
  destruct Hin as (yl & Hin & Hyl). apply list_elem_of_fmap in Hin.
  destruct Hin as (p & -> & Hp).
  rewrite Forall_forall in Hwf. destruct (Hwf yl Hyl) as [Hr _].
  rewrite Forall_forall in Hr. by apply (Hr p Hp).
Qed.

Lemma valid_no_error n_x yr :
  0 <= n_x < 2 ^ 30 ->
  Forall (valid_id (Z.to_nat n_x)) (ids_of yr) ->
  Forall int_range (ratings_of yr) ->
  first_error (Z.to_nat n_x) (all_pairs yr) = None.
Proof.
  intros Hn Hids Hr. apply first_error_None.
  apply Forall_and. split.
  - apply all_pairs_fits; [|done]. eapply Forall_impl; [exact Hids|].
    unfold valid_id, int_range. intros x Hx. lia.
  - by apply all_pairs_good.
Qed.

Lemma wf_valid n_x yr :
  wf_input n_x yr -> Forall (valid_id (Z.to_nat n_x)) (ids_of yr).
Proof.
  intros Hwf. pose proof (wf_ids_range _ _ Hwf) as Hids.
  eapply Forall_impl; [exact Hids|]. unfold valid_id. intros x Hx. lia.
Qed.

Lemma wf_no_error n_x yr :
  wf_input n_x yr -> in_range n_x yr ->
  first_error (Z.to_nat n_x) (all_pairs yr) = None.
Proof.
  intros Hwf [Hn Hr]. apply valid_no_error; [|by apply wf_valid|done].
  destruct Hwf. lia.
Qed.

(** With ids that are accepted, a rating that does not fit raises
    [OverflowError]. *)
Lemma valid_overflow n_x yr :
  0 <= n_x < 2 ^ 30 ->
  Forall (valid_id (Z.to_nat n_x)) (ids_of yr) ->
  ~ Forall int_range (ratings_of yr) ->
  first_error (Z.to_nat n_x) (all_pairs yr) = Some OverflowError.
Proof.
  intros Hn Hids Hr. apply first_error_good; [by apply all_pairs_good|].
  apply not_Forall_Exists in Hr; [|apply _].
  apply Exists_exists in Hr. destruct Hr as (r & Hin & Hr).
  destruct (all_pairs_rating yr r Hin) as (a & Ha & <-).
  apply Exists_exists. exists a. split; [done|].
  intros (_ & H & _). by apply Hr.
Qed.

Ltac same_run H1 H2 :=
  rewrite H1 in H2; injection H2 as <-.

(** ** The accumulators of [cosine] *)

Lemma cosine_accumulate_flat n_x yr :
  0 <= n_x < 2 ^ 30 ->
  cosine_accumulate n_x yr =
  for_each (all_pairs yr) (visit cosine_body)
    (let z := replicate (Z.to_nat n_x) (replicate (Z.to_nat n_x) 0) in
     {| cos_prods := z; cos_freq := z; cos_sqi := z; cos_sqj := z |}).
Proof.
  intros Hn. unfold cosine_accumulate. rewrite !np_zeros_ok by done.
  rewrite !bind_Ok. apply for_pairs_flat.
Qed.

Lemma cosine_step n a st :
  good n a -> cosine_inv n st ->
  exists st',
    cosine_body a.1.1 a.1.2 a.2.1 a.2.2 st = Ok st' /\
    cosine_inv n st' /\
    cos_freq st' = pinc ladd (cos_freq st) (wrap n a.1.1) (wrap n a.2.1) 1 /\
    cos_prods st' =
      pinc ladd (cos_prods st) (wrap n a.1.1) (wrap n a.2.1)
        (c_int (a.1.2 * a.2.2)) /\
    cos_sqi st' =
      pinc ladd (cos_sqi st) (wrap n a.1.1) (wrap n a.2.1)
        (c_long (a.1.2 * a.1.2)) /\
    cos_sqj st' =
      pinc ladd (cos_sqj st) (wrap n a.1.1) (wrap n a.2.1)
        (c_long (a.2.2 * a.2.2)).
Proof.
  intros [Hi Hj] (Hp & Hf & Hsi & Hsj). unfold cosine_body, linc.
  rewrite !(minc_pinc ladd n) by done. rewrite !bind_Ok.
  eexists. split; [done|]. simpl.
  repeat split; try done; by apply square_pinc.
Qed.

Lemma cosine_refuse n a st :
  ~ good n a -> cosine_inv n st ->
  cosine_body a.1.1 a.1.2 a.2.1 a.2.2 st = Raise IndexError.
Proof.
  intros Hbad (Hp & Hf & Hsi & Hsj). unfold cosine_body, linc.
  rewrite (minc_invalid ladd n (cos_freq st)); [done|done|]. by apply not_good.
Qed.

Lemma cosine_accumulate_ok n_x yr :
  0 <= n_x < 2 ^ 30 -> first_error (Z.to_nat n_x) (all_pairs yr) = None ->
  exists st, cosine_accumulate n_x yr = Ok st /\ cosine_inv (Z.to_nat n_x) st /\
    forall i j, (i < Z.to_nat n_x)%nat -> (j < Z.to_nat n_x)%nat ->
      let visits := filter (hits (Z.to_nat n_x) i j) (all_pairs yr) in
      at2 (cos_freq st) i j = Some (foldl (fun c a => ladd c 1) 0 visits) /\
      at2 (cos_prods st) i j =
        Some (foldl (fun c a => ladd c (c_int (a.1.2 * a.2.2))) 0 visits) /\
      at2 (cos_sqi st) i j =
        Some (foldl (fun c a => ladd c (c_long (a.1.2 * a.1.2))) 0 visits) /\
      at2 (cos_sqj st) i j =
        Some (foldl (fun c a => ladd c (c_long (a.2.2 * a.2.2))) 0 visits).
Proof.
  intros Hn Hok. rewrite cosine_accumulate_flat by done.
  set (z := replicate (Z.to_nat n_x) (replicate (Z.to_nat n_x) 0)).
  assert (cosine_inv (Z.to_nat n_x)
            {| cos_prods := z; cos_freq := z; cos_sqi := z; cos_sqj := z |})
    as Hinit by (repeat split; apply square_zeros).
  match goal with |- exists st, for_each _ _ ?s = _ /\ _ =>
    set (s0 := s) in * end.
  destruct (accumulate_cells (Z.to_nat n_x) (cosine_inv (Z.to_nat n_x))
              cos_freq ladd (fun _ => 1) cosine_body)
    with (l := all_pairs yr) (s := s0)
    as (st & Hrun & Hinv & Hfreq); [by intros s (?&?&?&?)| |done|done|].
  { intros a s _ Ha Hs. destruct (cosine_step _ a s Ha Hs) as (s' & ? & ? & ? & _).
    by exists s'. }
  destruct (accumulate_cells (Z.to_nat n_x) (cosine_inv (Z.to_nat n_x))
              cos_prods ladd (fun a => c_int (a.1.2 * a.2.2)) cosine_body)
    with (l := all_pairs yr) (s := s0)
    as (st1 & Hrun1 & _ & Hprods); [by intros s (?&?&?&?)| |done|done|].
  { intros a s _ Ha Hs.
    destruct (cosine_step _ a s Ha Hs) as (s' & ? & ? & _ & ? & _).
    by exists s'. }
  same_run Hrun Hrun1.
  destruct (accumulate_cells (Z.to_nat n_x) (cosine_inv (Z.to_nat n_x))
              cos_sqi ladd (fun a => c_long (a.1.2 * a.1.2)) cosine_body)
    with (l := all_pairs yr) (s := s0)
    as (st1 & Hrun1 & _ & Hsqi); [by intros s (?&?&?&?)| |done|done|].
  { intros a s _ Ha Hs.
    destruct (cosine_step _ a s Ha Hs) as (s' & ? & ? & _ & _ & ? & _).
    by exists s'. }
  same_run Hrun Hrun1.
  destruct (accumulate_cells (Z.to_nat n_x) (cosine_inv (Z.to_nat n_x))
              cos_sqj ladd (fun a => c_long (a.2.2 * a.2.2)) cosine_body)
    with (l := all_pairs yr) (s := s0)
    as (st1 & Hrun1 & _ & Hsqj); [by intros s (?&?&?&?)| |done|done|].
  { intros a s _ Ha Hs.
    destruct (cosine_step _ a s Ha Hs) as (s' & ? & ? & _ & _ & _ & ?).
    by exists s'. }
  same_run Hrun Hrun1.
  exists st. split; [done|]. split; [done|]. intros i j Hi Hj visits.
  rewrite Hfreq, Hprods, Hsqi, Hsqj. unfold s0. simpl. unfold z.
  rewrite at2_zeros by done. done.
Qed.

Lemma cosine_accumulate_error n_x yr e :
  0 <= n_x < 2 ^ 30 -> first_error (Z.to_nat n_x) (all_pairs yr) = Some e ->
  cosine_accumulate n_x yr = Raise e.
Proof.
  intros Hn He. rewrite cosine_accumulate_flat by done.
  apply (for_each_error (Z.to_nat n_x) (cosine_inv (Z.to_nat n_x))); [| |done|].
  - intros a s Ha Hs. destruct (cosine_step _ a s Ha Hs) as (s' & ? & ? & _).
    by exists s'.
  - apply cosine_refuse.
  - repeat split; apply square_zeros.
Qed.

Lemma cosine_accumulate_refused n_x yr :
  n_x < 0 \/ 2 ^ 30 <= n_x -> cosine_accumulate n_x yr = Raise ValueError.
Proof.
  intros Hn. unfold cosine_accumulate. by rewrite (np_zeros_refused 0 n_x).
Qed.

(** The second loop of [cosine]. *)
Lemma cosine_run n_x yr st :
  0 <= n_x < 2 ^ 30 ->
  cosine_accumulate n_x yr = Ok st -> cosine_inv (Z.to_nat n_x) st ->
  exists sim, cosine n_x yr = Ok sim /\
    filled n_x (d_of_Z 1) d_zero (cosine_cell st) (cosine_cell st)
      (fun _ _ => True) sim.
Proof.
  intros Hn Hacc (Hp & Hf & Hsi & Hsj). unfold cosine.
  rewrite Hacc, bind_Ok, np_zeros_ok, bind_Ok by done.
  destruct (mirror_fill n_x (d_of_Z 1) (fun i j => Ok (cosine_cell st i j))
    (fun xi xj sim =>
      f ← mget (cos_freq st) xi xj;
      sim ← (if f =? 0 then mset sim xi xj (d_of_Z 0)
             else
               a ← mget (cos_sqi st) xi xj;
               b ← mget (cos_sqj st) xi xj;
               denum ← np_sqrt (c_long (a * b));
               p ← mget (cos_prods st) xi xj;
               mset sim xi xj (ddiv (d_of_Z p) denum));
      c ← mget sim xi xj;
      mset sim xj xi c))
    as [(sim & Hrun & Hfill & _)|(e & _ & i & j & _ & _ & [=])]; [lia| |].
  - intros xi xj sim Hi Hj Hsq. rewrite bind_Ok. unfold cosine_cell.
    read_cell n_x (cos_freq st) xi xj. read_cell n_x (cos_prods st) xi xj.
    read_cell n_x (cos_sqi st) xi xj. read_cell n_x (cos_sqj st) xi xj.
    destruct (c =? 0); [done|].
    by rewrite ?Hg1, ?Hg2, ?bind_Ok, np_sqrt_long, ?bind_Ok.
  - by exists sim.
Qed.

(** ** The accumulators and the second loop of [msd] *)

Lemma msd_accumulate_flat n_x yr :
  0 <= n_x < 2 ^ 30 ->
  msd_accumulate n_x yr =
  for_each (all_pairs yr) (visit msd_body)
    {| msd_sq_diff := replicate (Z.to_nat n_x) (replicate (Z.to_nat n_x) d_zero);
       msd_freq := replicate (Z.to_nat n_x) (replicate (Z.to_nat n_x) 0) |}.
Proof.
  intros Hn. unfold msd_accumulate. rewrite !np_zeros_ok by done.
  rewrite !bind_Ok. apply for_pairs_flat.
Qed.

Lemma msd_step n a st :
  good n a -> msd_inv n st ->
  exists st',
    msd_body a.1.1 a.1.2 a.2.1 a.2.2 st = Ok st' /\
    msd_inv n st' /\
    msd_sq_diff st' =
      pinc dadd (msd_sq_diff st) (wrap n a.1.1) (wrap n a.2.1)
        (d_of_Z (c_long (c_int (a.1.2 - a.2.2) * c_int (a.1.2 - a.2.2)))) /\
    msd_freq st' = pinc ladd (msd_freq st) (wrap n a.1.1) (wrap n a.2.1) 1.
Proof.
  intros [Hi Hj] (Hs & Hf). unfold msd_body, linc, dinc.
  rewrite (minc_pinc dadd n), (minc_pinc ladd n) by done. rewrite !bind_Ok.
  eexists. split; [done|]. simpl.
  repeat split; try done; by apply square_pinc.
Qed.

Lemma msd_refuse n a st :
  ~ good n a -> msd_inv n st ->
  msd_body a.1.1 a.1.2 a.2.1 a.2.2 st = Raise IndexError.
Proof.
  intros Hbad (Hs & Hf). unfold msd_body, dinc.
  rewrite (minc_invalid dadd n (msd_sq_diff st)); [done|done|].
  by apply not_good.
Qed.

Lemma msd_accumulate_ok n_x yr :
  0 <= n_x < 2 ^ 30 -> first_error (Z.to_nat n_x) (all_pairs yr) = None ->
  exists st, msd_accumulate n_x yr = Ok st /\ msd_inv (Z.to_nat n_x) st /\
    forall i j, (i < Z.to_nat n_x)%nat -> (j < Z.to_nat n_x)%nat ->
      let visits := filter (hits (Z.to_nat n_x) i j) (all_pairs yr) in
      at2 (msd_sq_diff st) i j =
        Some (foldl (fun c a =>
                dadd c (d_of_Z (c_long (c_int (a.1.2 - a.2.2) *
                                        c_int (a.1.2 - a.2.2)))))
                d_zero visits) /\
      at2 (msd_freq st) i j = Some (foldl (fun c a => ladd c 1) 0 visits).
Proof.
  intros Hn Hok. rewrite msd_accumulate_flat by done.
  match goal with |- exists st, for_each _ _ ?s = _ /\ _ =>
    set (s0 := s) in * end.
  assert (msd_inv (Z.to_nat n_x) s0) as Hinit
    by (split; apply square_zeros).
  destruct (accumulate_cells (Z.to_nat n_x) (msd_inv (Z.to_nat n_x))
              msd_sq_diff dadd
              (fun a => d_of_Z (c_long (c_int (a.1.2 - a.2.2) *
                                        c_int (a.1.2 - a.2.2)))) msd_body)
    with (l := all_pairs yr) (s := s0)
    as (st & Hrun & Hinv & Hsq); [by intros s (?&?)| |done|done|].
  { intros a s _ Ha Hs. destruct (msd_step _ a s Ha Hs) as (s' & ? & ? & ? & _).
    by exists s'. }
  destruct (accumulate_cells (Z.to_nat n_x) (msd_inv (Z.to_nat n_x))
              msd_freq ladd (fun _ => 1) msd_body)
    with (l := all_pairs yr) (s := s0)
    as (st1 & Hrun1 & _ & Hfreq); [by intros s (?&?)| |done|done|].
  { intros a s _ Ha Hs. destruct (msd_step _ a s Ha Hs) as (s' & ? & ? & _ & ?).
    by exists s'. }
  same_run Hrun Hrun1.
  exists st. split; [done|]. split; [done|]. intros i j Hi Hj visits.
  rewrite Hsq, Hfreq. unfold s0. simpl.
  rewrite !at2_zeros by done. done.
Qed.

Lemma msd_accumulate_error n_x yr e :
  0 <= n_x < 2 ^ 30 -> first_error (Z.to_nat n_x) (all_pairs yr) = Some e ->
  msd_accumulate n_x yr = Raise e.
Proof.
  intros Hn He. rewrite msd_accumulate_flat by done.
  apply (for_each_error (Z.to_nat n_x) (msd_inv (Z.to_nat n_x))); [| |done|].
  - intros a s Ha Hs. destruct (msd_step _ a s Ha Hs) as (s' & ? & ? & _).
    by exists s'.
  - apply msd_refuse.
  - split; apply square_zeros.
Qed.

Lemma msd_accumulate_refused n_x yr :
  n_x < 0 \/ 2 ^ 30 <= n_x -> msd_accumulate n_x yr = Raise ValueError.
Proof.
  intros Hn. unfold msd_accumulate. by rewrite (np_zeros_refused d_zero n_x).
Qed.

Lemma msd_run n_x yr st :
  0 <= n_x < 2 ^ 30 ->
  msd_accumulate n_x yr = Ok st -> msd_inv (Z.to_nat n_x) st ->
  exists sim, msd n_x yr = Ok sim /\
    filled n_x (d_of_Z 100) d_zero (msd_cell st) (msd_cell st)
      (fun _ _ => True) sim.
Proof.
  intros Hn Hacc (Hs & Hf). unfold msd.
  rewrite Hacc, bind_Ok, np_zeros_ok, bind_Ok by done.
  destruct (mirror_fill n_x (d_of_Z 100) (fun i j => Ok (msd_cell st i j))
    (fun xi xj sim =>
      s ← mget (msd_sq_diff st) xi xj;
      sim ← (if d_eq0 s then
               f ← mget (msd_freq st) xi xj;
               mset sim xi xj (d_of_Z f)
             else
               f ← mget (msd_freq st) xi xj;
               s' ← mget (msd_sq_diff st) xi xj;
               q ← cdiv (d_of_Z f) s';
               mset sim xi xj q);
      c ← mget sim xi xj;
      mset sim xj xi c))
    as [(sim & Hrun & Hfill & _)|(e & _ & i & j & _ & _ & [=])]; [lia| |].
  - intros xi xj sim Hi Hj Hsq. rewrite bind_Ok. unfold msd_cell.
    read_cell n_x (msd_sq_diff st) xi xj. read_cell n_x (msd_freq st) xi xj.
    destruct (d_eq0 c) eqn:Hz; rewrite ?Hg, ?Hg0, ?bind_Ok; [done|].
    unfold cdiv. by rewrite Hz.
  - by exists sim.
Qed.

(** ** The accumulators and the second loop of [compute_mean_diff] *)

Lemma mean_diff_accumulate_flat n_x yr :
  0 <= n_x < 2 ^ 30 ->
  mean_diff_accumulate n_x yr =
  for_each (all_pairs yr) (visit mean_diff_body)
    {| md_diff := replicate (Z.to_nat n_x) (replicate (Z.to_nat n_x) d_zero);
       md_freq := replicate (Z.to_nat n_x) (replicate (Z.to_nat n_x) 0) |}.
Proof.
  intros Hn. unfold mean_diff_accumulate. rewrite !np_zeros_ok by done.
  rewrite !bind_Ok. apply for_pairs_flat.
Qed.

Lemma mean_diff_step n a st :
  good n a -> mean_diff_inv n st ->
  exists st',
    mean_diff_body a.1.1 a.1.2 a.2.1 a.2.2 st = Ok st' /\
    mean_diff_inv n st' /\
    md_diff st' =
      pinc dadd (md_diff st) (wrap n a.1.1) (wrap n a.2.1)
        (d_of_Z (c_int (a.1.2 - a.2.2))) /\
    md_freq st' = pinc ladd (md_freq st) (wrap n a.1.1) (wrap n a.2.1) 1.
Proof.
  intros [Hi Hj] (Hs & Hf). unfold mean_diff_body, linc, dinc.
  rewrite (minc_pinc dadd n), (minc_pinc ladd n) by done. rewrite !bind_Ok.
  eexists. split; [done|]. simpl.
  repeat split; try done; by apply square_pinc.
Qed.

Lemma mean_diff_refuse n a st :
  ~ good n a -> mean_diff_inv n st ->
  mean_diff_body a.1.1 a.1.2 a.2.1 a.2.2 st = Raise IndexError.
Proof.
  intros Hbad (Hs & Hf). unfold mean_diff_body, dinc.
  rewrite (minc_invalid dadd n (md_diff st)); [done|done|].
  by apply not_good.
Qed.

Lemma mean_diff_accumulate_ok n_x yr :
  0 <= n_x < 2 ^ 30 -> first_error (Z.to_nat n_x) (all_pairs yr) = None ->
  exists st, mean_diff_accumulate n_x yr = Ok st /\
    mean_diff_inv (Z.to_nat n_x) st /\
    forall i j, (i < Z.to_nat n_x)%nat -> (j < Z.to_nat n_x)%nat ->
      let visits := filter (hits (Z.to_nat n_x) i j) (all_pairs yr) in
      at2 (md_diff st) i j =
        Some (foldl (fun c a => dadd c (d_of_Z (c_int (a.1.2 - a.2.2))))
                d_zero visits) /\
      at2 (md_freq st) i j = Some (foldl (fun c a => ladd c 1) 0 visits).
Proof.
  intros Hn Hok. rewrite mean_diff_accumulate_flat by done.
  match goal with |- exists st, for_each _ _ ?s = _ /\ _ =>
    set (s0 := s) in * end.
  assert (mean_diff_inv (Z.to_nat n_x) s0) as Hinit
    by (split; apply square_zeros).
  destruct (accumulate_cells (Z.to_nat n_x) (mean_diff_inv (Z.to_nat n_x))
              md_diff dadd (fun a => d_of_Z (c_int (a.1.2 - a.2.2)))
              mean_diff_body)
    with (l := all_pairs yr) (s := s0)
    as (st & Hrun & Hinv & Hsq); [by intros s (?&?)| |done|done|].
  { intros a s _ Ha Hs.
    destruct (mean_diff_step _ a s Ha Hs) as (s' & ? & ? & ? & _).
    by exists s'. }
  destruct (accumulate_cells (Z.to_nat n_x) (mean_diff_inv (Z.to_nat n_x))
              md_freq ladd (fun _ => 1) mean_diff_body)
    with (l := all_pairs yr) (s := s0)
    as (st1 & Hrun1 & _ & Hfreq); [by intros s (?&?)| |done|done|].
  { intros a s _ Ha Hs.
    destruct (mean_diff_step _ a s Ha Hs) as (s' & ? & ? & _ & ?).
    by exists s'. }
  same_run Hrun Hrun1.
  exists st. split; [done|]. split; [done|]. intros i j Hi Hj visits.
  rewrite Hsq, Hfreq. unfold s0. simpl.
  rewrite !at2_zeros by done. done.
Qed.

Lemma mean_diff_accumulate_error n_x yr e :
  0 <= n_x < 2 ^ 30 -> first_error (Z.to_nat n_x) (all_pairs yr) = Some e ->
  mean_diff_accumulate n_x yr = Raise e.
Proof.
  intros Hn He. rewrite mean_diff_accumulate_flat by done.
  apply (for_each_error (Z.to_nat n_x) (mean_diff_inv (Z.to_nat n_x)));
    [| |done|].
  - intros a s Ha Hs. destruct (mean_diff_step _ a s Ha Hs) as (s' & ? & ? & _).
    by exists s'.
  - apply mean_diff_refuse.
  - split; apply square_zeros.
Qed.

Lemma mean_diff_accumulate_refused n_x yr :
  n_x < 0 \/ 2 ^ 30 <= n_x -> mean_diff_accumulate n_x yr = Raise ValueError.
Proof.
  intros Hn. unfold mean_diff_accumulate.
  by rewrite (np_zeros_refused d_zero n_x).
Qed.

Lemma mean_diff_run n_x yr st :
  0 <= n_x < 2 ^ 30 -> mean_diff_accumulate n_x yr = Ok st ->
  mean_diff_inv (Z.to_nat n_x) st ->
  exists mean_diff, compute_mean_diff n_x yr = Ok mean_diff /\
    filled n_x (d_of_Z 0) d_zero (mean_diff_cell st)
      (mean_diff_cell_mirror st) (fun _ _ => True) mean_diff.
Proof.
  intros Hn Hacc (Hd & Hf). unfold compute_mean_diff.
  rewrite Hacc, bind_Ok, np_zeros_ok, bind_Ok by done.
  destruct (fill_spec n_x (d_of_Z 0) d_zero (mean_diff_cell st)
    (mean_diff_cell_mirror st) (fun _ _ => True) (fun _ => False)
    (fun xi xj mean_diff =>
      f ← mget (md_freq st) xi xj;
      if negb (f =? 0) then
        d ← mget (md_diff st) xi xj;
        f' ← mget (md_freq st) xi xj;
        q ← cdiv_long d f';
        mean_diff ← mset mean_diff xi xj q;
        c ← mget mean_diff xi xj;
        mset mean_diff xj xi (dneg c)
      else Ok mean_diff))
    as [(sim & Hrun & Hfill & _)|(e & _ & [])]; [lia| |by exists sim].
  intros xi xj sim Hi Hj Hsq Hz1 Hz2. left.
  unfold mean_diff_cell, mean_diff_cell_mirror.
  read_cell n_x (md_freq st) xi xj. read_cell n_x (md_diff st) xi xj.
  destruct (c =? 0) eqn:Hfz; simpl negb; cbv iota.
  - exists sim. split; [done|]. split; [done|]. split; [done|]. intros i j.
    repeat case_decide; destruct_and?; subst; rewrite ?Hz1, ?Hz2; done.
  - rewrite ?Hg, ?bind_Ok. unfold cdiv_long. rewrite Hfz, bind_Ok.
    destruct (mirror_step n_x sim xi xj (ddiv c0 (d_of_Z c)) dneg)
      as (sim' & Hr & Hs & Hc'); [done..|].
    exists sim'. split; [exact Hr|]. split; [done|]. split; [done|]. exact Hc'.
Qed.

Lemma compute_mean_diff_refused n_x yr :
  n_x < 0 \/ 2 ^ 30 <= n_x -> compute_mean_diff n_x yr = Raise ValueError.
Proof.
  intros Hn. unfold compute_mean_diff.
  by rewrite mean_diff_accumulate_refused.
Qed.

Lemma compute_mean_diff_error n_x yr e :
  0 <= n_x < 2 ^ 30 -> first_error (Z.to_nat n_x) (all_pairs yr) = Some e ->
  compute_mean_diff n_x yr = Raise e.
Proof.
  intros Hn He. unfold compute_mean_diff.
  by rewrite (mean_diff_accumulate_error n_x yr e).
Qed.

Lemma compute_mean_diff_ok n_x yr :
  0 <= n_x < 2 ^ 30 -> first_error (Z.to_nat n_x) (all_pairs yr) = None ->
  exists st mean_diff,
    mean_diff_accumulate n_x yr = Ok st /\ mean_diff_inv (Z.to_nat n_x) st /\
    compute_mean_diff n_x yr = Ok mean_diff /\
    filled n_x (d_of_Z 0) d_zero (mean_diff_cell st)
      (mean_diff_cell_mirror st) (fun _ _ => True) mean_diff.
Proof.
  intros Hn Hok.
  destruct (mean_diff_accumulate_ok n_x yr Hn Hok) as (st & Hacc & Hinv & _).
  destruct (mean_diff_run n_x yr st Hn Hacc Hinv) as (md & Hrun & Hfill).
  by exists st, md.
Qed.

(** ** The accumulators and the second loop of [msdClone] *)

Lemma msdClone_accumulate_flat n_x yr mean_diff :
  0 <= n_x < 2 ^ 30 -> compute_mean_diff n_x yr = Ok mean_diff ->
  msdClone_accumulate n_x yr =
  for_each (all_pairs yr) (visit msdClone_body)
    {| mc_mean_diff := mean_diff;
       mc_sq_diff := replicate (Z.to_nat n_x) (replicate (Z.to_nat n_x) d_zero);
       mc_freq := replicate (Z.to_nat n_x) (replicate (Z.to_nat n_x) 0) |}.
Proof.
  intros Hn Hmd. unfold msdClone_accumulate. rewrite !np_zeros_ok by done.
  rewrite !bind_Ok, Hmd, bind_Ok. apply for_pairs_flat.
Qed.

Lemma msdClone_step n md a st :
  square n md -> good n a -> msdClone_inv n md st ->
  exists st',
    msdClone_body a.1.1 a.1.2 a.2.1 a.2.2 st = Ok st' /\
    msdClone_inv n md st' /\
    mc_sq_diff st' =
      pinc dadd (mc_sq_diff st) (wrap n a.1.1) (wrap n a.2.1)
        (dsquare (dsub (d_of_Z (c_int (a.1.2 - a.2.2)))
                   (cell_or d_zero md a.1.1 a.2.1))) /\
    mc_freq st' = pinc ladd (mc_freq st) (wrap n a.1.1) (wrap n a.2.1) 1.
Proof.
  intros Hmd [Hi Hj] (Heq & Hs & Hf). unfold msdClone_body, linc, dinc.
  rewrite Heq.
  destruct (mget_valid n md a.1.1 a.2.1) as (m & _ & Hm); [done..|].
  rewrite Hm, bind_Ok, (cell_or_mget _ _ _ _ _ Hm).
  rewrite (minc_pinc dadd n), (minc_pinc ladd n) by done. rewrite !bind_Ok.
  eexists. split; [done|]. simpl.
  repeat split; try done; by apply square_pinc.
Qed.

Lemma msdClone_refuse n md a st :
  square n md -> ~ good n a -> msdClone_inv n md st ->
  msdClone_body a.1.1 a.1.2 a.2.1 a.2.2 st = Raise IndexError.
Proof.
  intros Hmd Hbad (Heq & Hs & Hf). unfold msdClone_body. rewrite Heq.
  rewrite (mget_invalid n md); [done|done|].
  by apply not_good.
Qed.

Lemma msdClone_accumulate_ok n_x yr mean_diff :
  0 <= n_x < 2 ^ 30 -> first_error (Z.to_nat n_x) (all_pairs yr) = None ->
  compute_mean_diff n_x yr = Ok mean_diff ->
  square (Z.to_nat n_x) mean_diff ->
  exists st, msdClone_accumulate n_x yr = Ok st /\
    msdClone_inv (Z.to_nat n_x) mean_diff st /\
    forall i j, (i < Z.to_nat n_x)%nat -> (j < Z.to_nat n_x)%nat ->
      let visits := filter (hits (Z.to_nat n_x) i j) (all_pairs yr) in
      at2 (mc_sq_diff st) i j =
        Some (foldl (fun c a =>
                dadd c (dsquare (dsub (d_of_Z (c_int (a.1.2 - a.2.2)))
                                   (cell_or d_zero mean_diff a.1.1 a.2.1))))
                d_zero visits) /\
      at2 (mc_freq st) i j = Some (foldl (fun c a => ladd c 1) 0 visits).
Proof.
  intros Hn Hok Hmd Hsqmd.
  rewrite (msdClone_accumulate_flat n_x yr mean_diff) by done.
  match goal with |- exists st, for_each _ _ ?s = _ /\ _ =>
    set (s0 := s) in * end.
  assert (msdClone_inv (Z.to_nat n_x) mean_diff s0) as Hinit
    by (split; [done|split; apply square_zeros]).
  destruct (accumulate_cells (Z.to_nat n_x)
              (msdClone_inv (Z.to_nat n_x) mean_diff) mc_sq_diff dadd
              (fun a => dsquare (dsub (d_of_Z (c_int (a.1.2 - a.2.2)))
                                   (cell_or d_zero mean_diff a.1.1 a.2.1)))
              msdClone_body)
    with (l := all_pairs yr) (s := s0)
    as (st & Hrun & Hinv & Hsq); [by intros s (?&?&?)| |done|done|].
  { intros a s _ Ha Hs.
    destruct (msdClone_step _ _ a s Hsqmd Ha Hs) as (s' & ? & ? & ? & _).
    by exists s'. }
  destruct (accumulate_cells (Z.to_nat n_x)
              (msdClone_inv (Z.to_nat n_x) mean_diff) mc_freq ladd
              (fun _ => 1) msdClone_body)
    with (l := all_pairs yr) (s := s0)
    as (st1 & Hrun1 & _ & Hfreq); [by intros s (?&?&?)| |done|done|].
  { intros a s _ Ha Hs.
    destruct (msdClone_step _ _ a s Hsqmd Ha Hs) as (s' & ? & ? & _ & ?).
    by exists s'. }
  same_run Hrun Hrun1.
  exists st. split; [done|]. split; [done|]. intros i j Hi Hj visits.
  rewrite Hsq, Hfreq. unfold s0. simpl.
  rewrite !at2_zeros by done. done.
Qed.

Lemma msdClone_accumulate_error n_x yr e :
  0 <= n_x < 2 ^ 30 -> first_error (Z.to_nat n_x) (all_pairs yr) = Some e ->
  msdClone_accumulate n_x yr = Raise e.
Proof.
  intros Hn He. unfold msdClone_accumulate. rewrite !np_zeros_ok by done.
  rewrite !bind_Ok. by rewrite (compute_mean_diff_error n_x yr e).
Qed.

Lemma msdClone_accumulate_refused n_x yr :
  n_x < 0 \/ 2 ^ 30 <= n_x -> msdClone_accumulate n_x yr = Raise ValueError.
Proof.
  intros Hn. unfold msdClone_accumulate.
  by rewrite (np_zeros_refused d_zero n_x).
Qed.

Lemma msdClone_run n_x yr md st :
  0 <= n_x < 2 ^ 30 -> msdClone_accumulate n_x yr = Ok st ->
  msdClone_inv (Z.to_nat n_x) md st ->
  exists sim, msdClone n_x yr = Ok sim /\
    filled n_x (d_of_Z 100) d_zero (msdClone_cell st) (msdClone_cell st)
      (fun _ _ => True) sim.
Proof.
  intros Hn Hacc (_ & Hs & Hf). unfold msdClone.
  rewrite Hacc, bind_Ok, np_zeros_ok, bind_Ok by done.
  destruct (mirror_fill n_x (d_of_Z 100) (fun i j => Ok (msdClone_cell st i j))
    (fun xi xj sim =>
      s ← mget (mc_sq_diff st) xi xj;
      sim ← (if d_eq0 s then
               f ← mget (mc_freq st) xi xj;
               mset sim xi xj (d_of_Z f)
             else
               f ← mget (mc_freq st) xi xj;
               s' ← mget (mc_sq_diff st) xi xj;
               q ← cdiv (d_of_Z f) s';
               mset sim xi xj q);
      c ← mget sim xi xj;
      mset sim xj xi c))
    as [(sim & Hrun & Hfill & _)|(e & _ & i & j & _ & _ & [=])]; [lia| |].
  - intros xi xj sim Hi Hj Hsq. rewrite bind_Ok. unfold msdClone_cell.
    read_cell n_x (mc_sq_diff st) xi xj. read_cell n_x (mc_freq st) xi xj.
    destruct (d_eq0 c) eqn:Hz; rewrite ?Hg, ?Hg0, ?bind_Ok; [done|].
    unfold cdiv. by rewrite Hz.
  - by exists sim.
Qed.

(** ** The accumulators and the second loop of [pearson] *)

Lemma pearson_accumulate_flat n_x yr :
  0 <= n_x < 2 ^ 30 ->
  pearson_accumulate n_x yr =
  for_each (all_pairs yr) (visit pearson_body)
    (let z := replicate (Z.to_nat n_x) (replicate (Z.to_nat n_x) 0) in
     {| pe_freq := z; pe_prods := z; pe_sqi := z;
        pe_sqj := z; pe_si := z; pe_sj := z |}).
Proof.
  intros Hn. unfold pearson_accumulate. rewrite !np_zeros_ok by done.
  rewrite !bind_Ok. apply for_pairs_flat.
Qed.

Lemma pearson_step n a st :
  good n a -> pearson_inv n st ->
  exists st',
    pearson_body a.1.1 a.1.2 a.2.1 a.2.2 st = Ok st' /\
    pearson_inv n st' /\
    pe_freq st' = pinc ladd (pe_freq st) (wrap n a.1.1) (wrap n a.2.1) 1 /\
    pe_prods st' =
      pinc ladd (pe_prods st) (wrap n a.1.1) (wrap n a.2.1)
        (c_int (a.1.2 * a.2.2)) /\
    pe_sqi st' =
      pinc ladd (pe_sqi st) (wrap n a.1.1) (wrap n a.2.1)
        (c_long (a.1.2 * a.1.2)) /\
    pe_sqj st' =
      pinc ladd (pe_sqj st) (wrap n a.1.1) (wrap n a.2.1)
        (c_long (a.2.2 * a.2.2)) /\
    pe_si st' = pinc ladd (pe_si st) (wrap n a.1.1) (wrap n a.2.1) a.1.2 /\
    pe_sj st' = pinc ladd (pe_sj st) (wrap n a.1.1) (wrap n a.2.1) a.2.2.
Proof.
  intros [Hi Hj] (Hf & Hp & Hqi & Hqj & Hsi & Hsj). unfold pearson_body, linc.
  rewrite !(minc_pinc ladd n) by done. rewrite !bind_Ok.
  eexists. split; [done|]. simpl.
  repeat split; try done; by apply square_pinc.
Qed.

Lemma pearson_refuse n a st :
  ~ good n a -> pearson_inv n st ->
  pearson_body a.1.1 a.1.2 a.2.1 a.2.2 st = Raise IndexError.
Proof.
  intros Hbad (Hf & Hp & Hqi & Hqj & Hsi & Hsj). unfold pearson_body, linc.
  rewrite (minc_invalid ladd n (pe_prods st)); [done|done|]. by apply not_good.
Qed.

Lemma pearson_accumulate_ok n_x yr :
  0 <= n_x < 2 ^ 30 -> first_error (Z.to_nat n_x) (all_pairs yr) = None ->
  exists st, pearson_accumulate n_x yr = Ok st /\ pearson_inv (Z.to_nat n_x) st /\
    forall i j, (i < Z.to_nat n_x)%nat -> (j < Z.to_nat n_x)%nat ->
      let visits := filter (hits (Z.to_nat n_x) i j) (all_pairs yr) in
      at2 (pe_freq st) i j = Some (foldl (fun c a => ladd c 1) 0 visits) /\
      at2 (pe_prods st) i j =
        Some (foldl (fun c a => ladd c (c_int (a.1.2 * a.2.2))) 0 visits) /\
      at2 (pe_sqi st) i j =
        Some (foldl (fun c a => ladd c (c_long (a.1.2 * a.1.2))) 0 visits) /\
      at2 (pe_sqj st) i j =
        Some (foldl (fun c a => ladd c (c_long (a.2.2 * a.2.2))) 0 visits) /\
      at2 (pe_si st) i j = Some (foldl (fun c a => ladd c a.1.2) 0 visits) /\
      at2 (pe_sj st) i j = Some (foldl (fun c a => ladd c a.2.2) 0 visits).
Proof.
  intros Hn Hok. rewrite pearson_accumulate_flat by done.
  set (z := replicate (Z.to_nat n_x) (replicate (Z.to_nat n_x) 0)).
  match goal with |- exists st, for_each _ _ ?s = _ /\ _ =>
    set (s0 := s) in * end.
  assert (pearson_inv (Z.to_nat n_x) s0) as Hinit
    by (repeat split; apply square_zeros).
  destruct (accumulate_cells (Z.to_nat n_x) (pearson_inv (Z.to_nat n_x))
              pe_freq ladd (fun _ => 1) pearson_body)
    with (l := all_pairs yr) (s := s0)
    as (st & Hrun & Hinv & Hfreq); [by intros s (?&?&?&?&?&?)| |done|done|].
  { intros a s _ Ha Hs.
    destruct (pearson_step _ a s Ha Hs) as (s' & ? & ? & ? & _).
    by exists s'. }
  destruct (accumulate_cells (Z.to_nat n_x) (pearson_inv (Z.to_nat n_x))
              pe_prods ladd (fun a => c_int (a.1.2 * a.2.2)) pearson_body)
    with (l := all_pairs yr) (s := s0)
    as (st1 & Hrun1 & _ & Hprods); [by intros s (?&?&?&?&?&?)| |done|done|].
  { intros a s _ Ha Hs.
    destruct (pearson_step _ a s Ha Hs) as (s' & ? & ? & _ & ? & _).
    by exists s'. }
  same_run Hrun Hrun1.
  destruct (accumulate_cells (Z.to_nat n_x) (pearson_inv (Z.to_nat n_x))
              pe_sqi ladd (fun a => c_long (a.1.2 * a.1.2)) pearson_body)
    with (l := all_pairs yr) (s := s0)
    as (st1 & Hrun1 & _ & Hsqi); [by intros s (?&?&?&?&?&?)| |done|done|].
  { intros a s _ Ha Hs.
    destruct (pearson_step _ a s Ha Hs) as (s' & ? & ? & _ & _ & ? & _).
    by exists s'. }
  same_run Hrun Hrun1.
  destruct (accumulate_cells (Z.to_nat n_x) (pearson_inv (Z.to_nat n_x))
              pe_sqj ladd (fun a => c_long (a.2.2 * a.2.2)) pearson_body)
    with (l := all_pairs yr) (s := s0)
    as (st1 & Hrun1 & _ & Hsqj); [by intros s (?&?&?&?&?&?)| |done|done|].
  { intros a s _ Ha Hs.
    destruct (pearson_step _ a s Ha Hs) as (s' & ? & ? & _ & _ & _ & ? & _).
    by exists s'. }
  same_run Hrun Hrun1.
  destruct (accumulate_cells (Z.to_nat n_x) (pearson_inv (Z.to_nat n_x))
              pe_si ladd (fun a => a.1.2) pearson_body)
    with (l := all_pairs yr) (s := s0)
    as (st1 & Hrun1 & _ & Hsi); [by intros s (?&?&?&?&?&?)| |done|done|].
  { intros a s _ Ha Hs.
    destruct (pearson_step _ a s Ha Hs) as (s' & ? & ? & _ & _ & _ & _ & ? & _).
    by exists s'. }
  same_run Hrun Hrun1.
  destruct (accumulate_cells (Z.to_nat n_x) (pearson_inv (Z.to_nat n_x))
              pe_sj ladd (fun a => a.2.2) pearson_body)
    with (l := all_pairs yr) (s := s0)
    as (st1 & Hrun1 & _ & Hsj); [by intros s (?&?&?&?&?&?)| |done|done|].
  { intros a s _ Ha Hs.
    destruct (pearson_step _ a s Ha Hs) as (s' & ? & ? & _ & _ & _ & _ & _ & ?).
    by exists s'. }
  same_run Hrun Hrun1.
  exists st. split; [done|]. split; [done|]. intros i j Hi Hj visits.
  rewrite Hfreq, Hprods, Hsqi, Hsqj, Hsi, Hsj. unfold s0. simpl. unfold z.
  rewrite at2_zeros by done. done.
Qed.

Lemma pearson_accumulate_error n_x yr e :
  0 <= n_x < 2 ^ 30 -> first_error (Z.to_nat n_x) (all_pairs yr) = Some e ->
  pearson_accumulate n_x yr = Raise e.
Proof.
  intros Hn He. rewrite pearson_accumulate_flat by done.
  apply (for_each_error (Z.to_nat n_x) (pearson_inv (Z.to_nat n_x))); [| |done|].
  - intros a s Ha Hs. destruct (pearson_step _ a s Ha Hs) as (s' & ? & ? & _).
    by exists s'.
  - apply pearson_refuse.
  - repeat split; apply square_zeros.
Qed.

Lemma pearson_accumulate_refused n_x yr :
  n_x < 0 \/ 2 ^ 30 <= n_x -> pearson_accumulate n_x yr = Raise ValueError.
Proof.
  intros Hn. unfold pearson_accumulate. by rewrite (np_zeros_refused 0 n_x).
Qed.

Lemma np_sqrt_error z e : np_sqrt z = Raise e -> e = TypeError.
Proof. unfold np_sqrt. destruct (_ && _); [done|]. by intros [= <-]. Qed.

Lemma pearson_cell_error st i j e : pearson_cell st i j = Raise e -> e = TypeError.
Proof.
  unfold pearson_cell. cbv zeta.
  destruct (np_sqrt _) as [d|e'] eqn:Hs; [done|]. simpl. intros [= <-].
  by apply np_sqrt_error in Hs.
Qed.

(** The second loop of [pearson] returns, or stops at a pair whose radicand
    [np.sqrt] refuses. *)
Lemma pearson_run n_x yr st :
  0 <= n_x < 2 ^ 30 ->
  pearson_accumulate n_x yr = Ok st -> pearson_inv (Z.to_nat n_x) st ->
  let V := fun i j => value_or d_zero (pearson_cell st i j) in
  (exists sim, pearson n_x yr = Ok sim /\
     filled n_x (d_of_Z 1) d_zero V V (fun _ _ => True) sim /\
     forall i j, 0 <= i < j -> j < n_x -> pearson_cell st i j = Ok (V i j)) \/
  (pearson n_x yr = Raise TypeError /\
   exists i j, 0 <= i < j /\ j < n_x /\ pearson_cell st i j = Raise TypeError).
Proof.
  intros Hn Hacc (Hf & Hp & Hqi & Hqj & Hsi & Hsj) V. unfold pearson.
  rewrite Hacc, bind_Ok, np_zeros_ok, bind_Ok by done.
  destruct (mirror_fill n_x (d_of_Z 1) (pearson_cell st)
    (fun xi xj sim =>
      n ← mget (pe_freq st) xi xj;
      p ← mget (pe_prods st) xi xj;
      a ← mget (pe_si st) xi xj;
      b ← mget (pe_sj st) xi xj;
      let num := n * p - c_long (a * b) in
      qi ← mget (pe_sqi st) xi xj;
      a' ← mget (pe_si st) xi xj;
      qj ← mget (pe_sqj st) xi xj;
      b' ← mget (pe_sj st) xi xj;
      denum ← np_sqrt ((n * qi - c_long (a' * a')) * (n * qj - c_long (b' * b')));
      sim ← (if d_eq0 denum then mset sim xi xj (d_of_Z 0)
             else mset sim xi xj (ddiv (d_of_Z num) denum));
      c ← mget sim xi xj;
      mset sim xj xi c))
    as [(sim & Hrun & Hfill & Hval)|(e & Hrun & i & j & Hi & Hj & He)]; [lia| | |].
  - intros xi xj sim Hi Hj Hsq. unfold pearson_cell.
    read_cell n_x (pe_freq st) xi xj. read_cell n_x (pe_prods st) xi xj.
    read_cell n_x (pe_si st) xi xj. read_cell n_x (pe_sj st) xi xj.
    read_cell n_x (pe_sqi st) xi xj. read_cell n_x (pe_sqj st) xi xj.
    cbv zeta. rewrite ?Hg1, ?Hg2, ?bind_Ok.
    destruct (np_sqrt _) as [denum|e]; [|done]. rewrite !bind_Ok.
    by destruct (d_eq0 denum).
  - left. by exists sim.
  - right. pose proof (pearson_cell_error _ _ _ _ He) as ->.
    split; [done|]. by exists i, j.
Qed.

(** ** Cells in terms of the co-ratings *)

Lemma acc_cell_Z n_x yr (m : matrix Z) val i j :
  wf_input n_x yr -> square (Z.to_nat n_x) m ->
  0 <= i < n_x -> 0 <= j < n_x ->
  at2 m (Z.to_nat i) (Z.to_nat j) =
    Some (foldl (fun c a => ladd c (val a)) 0
            (filter (hits (Z.to_nat n_x) (Z.to_nat i) (Z.to_nat j)) (all_pairs yr))) ->
  mget m i j =
    Ok (c_long (sumZ (fun p => val ((i, p.1), (j, p.2))) (corated yr i j))).
Proof.
  intros Hwf Hsq Hi Hj Hc. apply (at2_mget n_x); [done..|].
  rewrite Hc. rewrite (visits_corated n_x yr i j ladd) by (done || lia).
  by rewrite (foldl_ladd_0 (fun p => val ((i, p.1), (j, p.2)))).
Qed.

Lemma acc_cell_D n_x yr (m : matrix double) val i j :
  wf_input n_x yr -> square (Z.to_nat n_x) m ->
  0 <= i < n_x -> 0 <= j < n_x ->
  at2 m (Z.to_nat i) (Z.to_nat j) =
    Some (foldl (fun c a => dadd c (val a)) d_zero
            (filter (hits (Z.to_nat n_x) (Z.to_nat i) (Z.to_nat j)) (all_pairs yr))) ->
  mget m i j =
    Ok (d_sum ((fun p => val ((i, p.1), (j, p.2))) <$> corated yr i j)).
Proof.
  intros Hwf Hsq Hi Hj Hc. apply (at2_mget n_x); [done..|].
  rewrite Hc. rewrite (visits_corated n_x yr i j dadd) by (done || lia).
  by rewrite (foldl_dadd (fun p => val ((i, p.1), (j, p.2)))).
Qed.

Lemma nat_index n_x i : 0 <= i < n_x -> (Z.to_nat i < Z.to_nat n_x)%nat.
Proof. lia. Qed.

Lemma fill_target_lt d V W i j : i < j -> fill_target d V W i j = V i j.
Proof.
  intros H. unfold fill_target. rewrite decide_False by lia.
  by rewrite decide_True.
Qed.

Lemma fill_target_gt d V W i j : j < i -> fill_target d V W i j = W j i.
Proof.
  intros H. unfold fill_target. rewrite decide_False by lia.
  by rewrite decide_False by lia.
Qed.

Lemma fill_target_diag d V W i : fill_target d V W i i = d.
Proof. unfold fill_target. by rewrite decide_True. Qed.

Lemma wf_bounds n_x yr : wf_input n_x yr -> in_range n_x yr -> 0 <= n_x < 2 ^ 30.
Proof. intros [H _] [H' _]. lia. Qed.

(** ** The result of [cosine] *)

Lemma cosine_accumulate_wf n_x yr :
  wf_input n_x yr -> in_range n_x yr ->
  exists st, cosine_accumulate n_x yr = Ok st /\ cosine_inv (Z.to_nat n_x) st /\
    forall i j, 0 <= i < n_x -> 0 <= j < n_x ->
      let L := corated yr i j in
      mget (cos_freq st) i j = Ok (c_long (Z.of_nat (length L))) /\
      mget (cos_prods st) i j = Ok (c_long (sumZ (fun p => c_int (p.1 * p.2)) L)) /\
      mget (cos_sqi st) i j = Ok (c_long (sumZ (fun p => c_long (p.1 * p.1)) L)) /\
      mget (cos_sqj st) i j = Ok (c_long (sumZ (fun p => c_long (p.2 * p.2)) L)).
Proof.
  intros Hwf Hr. pose proof (wf_bounds _ _ Hwf Hr) as Hn.
  destruct (cosine_accumulate_ok n_x yr Hn (wf_no_error _ _ Hwf Hr))
    as (st & Hacc & Hinv & Hcells).
  exists st. split; [done|]. split; [done|]. intros i j Hi Hj L.
  destruct Hinv as (Hp & Hf & Hsi & Hsj).
  destruct (Hcells _ _ (nat_index _ _ Hi) (nat_index _ _ Hj))
    as (Cf & Cp & Csi & Csj).
  repeat split.
  - rewrite <- sumZ_ones. by apply (acc_cell_Z n_x yr _ (fun _ => 1)).
  - by apply (acc_cell_Z n_x yr _ (fun a => c_int (a.1.2 * a.2.2))).
  - by apply (acc_cell_Z n_x yr _ (fun a => c_long (a.1.2 * a.1.2))).
  - by apply (acc_cell_Z n_x yr _ (fun a => c_long (a.2.2 * a.2.2))).
Qed.

Lemma cosine_cell_wf n_x yr st i j :
  wf_input n_x yr -> in_range n_x yr -> cosine_accumulate n_x yr = Ok st ->
  0 <= i < n_x -> 0 <= j < n_x ->
  cosine_cell st i j = cosine_sim (corated yr i j).
Proof.
  intros Hwf Hr Hacc Hi Hj.
  destruct (cosine_accumulate_wf n_x yr Hwf Hr) as (st' & Hacc' & _ & Hc).
  same_run Hacc Hacc'.
  destruct (Hc i j Hi Hj) as (Cf & Cp & Csi & Csj). unfold cosine_cell.
  by rewrite (cell_or_mget _ _ _ _ _ Cf), (cell_or_mget _ _ _ _ _ Cp),
    (cell_or_mget _ _ _ _ _ Csi), (cell_or_mget _ _ _ _ _ Csj).
Qed.

(** On well-formed input within range [cosine] returns; a cell off the
    diagonal depends on the co-ratings of its pair only. *)
Lemma cosine_result n_x yr :
  wf_input n_x yr -> in_range n_x yr ->
  exists st sim, cosine_accumulate n_x yr = Ok st /\ cosine n_x yr = Ok sim /\
    cosine_inv (Z.to_nat n_x) st /\ square (Z.to_nat n_x) sim /\
    (forall i j, 0 <= i < n_x -> 0 <= j < n_x ->
       let L := corated yr i j in
       mget (cos_freq st) i j = Ok (c_long (Z.of_nat (length L))) /\
       mget (cos_prods st) i j = Ok (c_long (sumZ (fun p => c_int (p.1 * p.2)) L)) /\
       mget (cos_sqi st) i j = Ok (c_long (sumZ (fun p => c_long (p.1 * p.1)) L)) /\
       mget (cos_sqj st) i j = Ok (c_long (sumZ (fun p => c_long (p.2 * p.2)) L))) /\
    (forall i, 0 <= i < n_x -> mget sim i i = Ok (d_of_Z 1)) /\
    (forall i j, 0 <= i < j -> j < n_x ->
       mget sim i j = Ok (cosine_sim (corated yr i j)) /\
       mget sim j i = Ok (cosine_sim (corated yr i j))).
Proof.
  intros Hwf Hr. pose proof (wf_bounds _ _ Hwf Hr) as Hn.
  destruct (cosine_accumulate_wf n_x yr Hwf Hr) as (st & Hacc & Hinv & Hcells).
  destruct (cosine_run n_x yr st Hn Hacc Hinv) as (sim & Hrun & Hfill).
  exists st, sim. split; [done|]. split; [done|]. split; [done|].
  split; [apply Hfill|]. split; [exact Hcells|]. split.
  - intros i Hi. rewrite (filled_mget _ _ _ _ _ _ i i Hfill) by done.
    by rewrite fill_target_diag.
  - intros i j Hi Hj. split.
    + rewrite (filled_mget _ _ _ _ _ _ i j Hfill) by lia.
      rewrite fill_target_lt by lia.
      by rewrite (cosine_cell_wf n_x yr) by (done || lia).
    + rewrite (filled_mget _ _ _ _ _ _ j i Hfill) by lia.
      rewrite fill_target_gt by lia.
      by rewrite (cosine_cell_wf n_x yr) by (done || lia).
Qed.

(** ** The result of [msd] *)

Lemma msd_accumulate_wf n_x yr :
  wf_input n_x yr -> in_range n_x yr ->
  exists st, msd_accumulate n_x yr = Ok st /\ msd_inv (Z.to_nat n_x) st /\
    forall i j, 0 <= i < n_x -> 0 <= j < n_x ->
      let L := corated yr i j in
      mget (msd_sq_diff st) i j = Ok (msd_sq_diff_of L) /\
      mget (msd_freq st) i j = Ok (c_long (Z.of_nat (length L))).
Proof.
  intros Hwf Hr. pose proof (wf_bounds _ _ Hwf Hr) as Hn.
  destruct (msd_accumulate_ok n_x yr Hn (wf_no_error _ _ Hwf Hr))
    as (st & Hacc & Hinv & Hcells).
  exists st. split; [done|]. split; [done|]. intros i j Hi Hj L.
  destruct Hinv as (Hs & Hf).
  destruct (Hcells _ _ (nat_index _ _ Hi) (nat_index _ _ Hj)) as (Cs & Cf).
  split.
  - by apply (acc_cell_D n_x yr _
      (fun a => d_of_Z (c_long (c_int (a.1.2 - a.2.2) * c_int (a.1.2 - a.2.2))))).
  - rewrite <- sumZ_ones. by apply (acc_cell_Z n_x yr _ (fun _ => 1)).
Qed.

Lemma msd_cell_wf n_x yr st i j :
  wf_input n_x yr -> in_range n_x yr -> msd_accumulate n_x yr = Ok st ->
  0 <= i < n_x -> 0 <= j < n_x ->
  msd_cell st i j = msd_sim (corated yr i j).
Proof.
  intros Hwf Hr Hacc Hi Hj.
  destruct (msd_accumulate_wf n_x yr Hwf Hr) as (st' & Hacc' & _ & Hc).
  same_run Hacc Hacc'.
  destruct (Hc i j Hi Hj) as (Cs & Cf). unfold msd_cell.
  by rewrite (cell_or_mget _ _ _ _ _ Cs), (cell_or_mget _ _ _ _ _ Cf).
Qed.

Lemma msd_result n_x yr :
  wf_input n_x yr -> in_range n_x yr ->
  exists st sim, msd_accumulate n_x yr = Ok st /\ msd n_x yr = Ok sim /\
    msd_inv (Z.to_nat n_x) st /\ square (Z.to_nat n_x) sim /\
    (forall i j, 0 <= i < n_x -> 0 <= j < n_x ->
       let L := corated yr i j in
       mget (msd_sq_diff st) i j = Ok (msd_sq_diff_of L) /\
       mget (msd_freq st) i j = Ok (c_long (Z.of_nat (length L)))) /\
    (forall i, 0 <= i < n_x -> mget sim i i = Ok (d_of_Z 100)) /\
    (forall i j, 0 <= i < j -> j < n_x ->
       mget sim i j = Ok (msd_sim (corated yr i j)) /\
       mget sim j i = Ok (msd_sim (corated yr i j))).
Proof.
  intros Hwf Hr. pose proof (wf_bounds _ _ Hwf Hr) as Hn.
  destruct (msd_accumulate_wf n_x yr Hwf Hr) as (st & Hacc & Hinv & Hcells).
  destruct (msd_run n_x yr st Hn Hacc Hinv) as (sim & Hrun & Hfill).
  exists st, sim. split; [done|]. split; [done|]. split; [done|].
  split; [apply Hfill|]. split; [exact Hcells|]. split.
  - intros i Hi. rewrite (filled_mget _ _ _ _ _ _ i i Hfill) by done.
    by rewrite fill_target_diag.
  - intros i j Hi Hj. split.
    + rewrite (filled_mget _ _ _ _ _ _ i j Hfill) by lia.
      rewrite fill_target_lt by lia.
      by rewrite (msd_cell_wf n_x yr) by (done || lia).
    + rewrite (filled_mget _ _ _ _ _ _ j i Hfill) by lia.
      rewrite fill_target_gt by lia.
      by rewrite (msd_cell_wf n_x yr) by (done || lia).
Qed.

(** ** The result of [compute_mean_diff] *)

Lemma mean_diff_accumulate_wf n_x yr :
  wf_input n_x yr -> in_range n_x yr ->
  exists st, mean_diff_accumulate n_x yr = Ok st /\
    mean_diff_inv (Z.to_nat n_x) st /\
    forall i j, 0 <= i < n_x -> 0 <= j < n_x ->
      let L := corated yr i j in
      mget (md_diff st) i j = Ok (diff_of L) /\
      mget (md_freq st) i j = Ok (c_long (Z.of_nat (length L))).
Proof.
  intros Hwf Hr. pose proof (wf_bounds _ _ Hwf Hr) as Hn.
  destruct (mean_diff_accumulate_ok n_x yr Hn (wf_no_error _ _ Hwf Hr))
    as (st & Hacc & Hinv & Hcells).
  exists st. split; [done|]. split; [done|]. intros i j Hi Hj L.
  destruct Hinv as (Hs & Hf).
  destruct (Hcells _ _ (nat_index _ _ Hi) (nat_index _ _ Hj)) as (Cs & Cf).
  split.
  - by apply (acc_cell_D n_x yr _ (fun a => d_of_Z (c_int (a.1.2 - a.2.2)))).
  - rewrite <- sumZ_ones. by apply (acc_cell_Z n_x yr _ (fun _ => 1)).
Qed.

Lemma mean_diff_cell_wf n_x yr st i j :
  wf_input n_x yr -> in_range n_x yr -> mean_diff_accumulate n_x yr = Ok st ->
  0 <= i < n_x -> 0 <= j < n_x ->
  mean_diff_cell st i j = mean_diff_of (corated yr i j) /\
  mean_diff_cell_mirror st i j = mean_diff_mirror (corated yr i j).
Proof.
  intros Hwf Hr Hacc Hi Hj.
  destruct (mean_diff_accumulate_wf n_x yr Hwf Hr) as (st' & Hacc' & _ & Hc).
  same_run Hacc Hacc'.
  destruct (Hc i j Hi Hj) as (Cs & Cf).
  unfold mean_diff_cell, mean_diff_cell_mirror.
  by rewrite (cell_or_mget _ _ _ _ _ Cs), (cell_or_mget _ _ _ _ _ Cf).
Qed.

Lemma compute_mean_diff_result n_x yr :
  wf_input n_x yr -> in_range n_x yr ->
  exists st md, mean_diff_accumulate n_x yr = Ok st /\
    compute_mean_diff n_x yr = Ok md /\
    mean_diff_inv (Z.to_nat n_x) st /\ square (Z.to_nat n_x) md /\
    (forall i j, 0 <= i < n_x -> 0 <= j < n_x ->
       let L := corated yr i j in
       mget (md_diff st) i j = Ok (diff_of L) /\
       mget (md_freq st) i j = Ok (c_long (Z.of_nat (length L)))) /\
    (forall i, 0 <= i < n_x -> mget md i i = Ok d_zero) /\
    (forall i j, 0 <= i < j -> j < n_x ->
       mget md i j = Ok (mean_diff_of (corated yr i j)) /\
       mget md j i = Ok (mean_diff_mirror (corated yr i j))).
Proof.
  intros Hwf Hr. pose proof (wf_bounds _ _ Hwf Hr) as Hn.
  destruct (mean_diff_accumulate_wf n_x yr Hwf Hr) as (st & Hacc & Hinv & Hcells).
  destruct (mean_diff_run n_x yr st Hn Hacc Hinv) as (md & Hrun & Hfill).
  exists st, md. split; [done|]. split; [done|]. split; [done|].
  split; [apply Hfill|]. split; [exact Hcells|]. split.
  - intros i Hi. rewrite (filled_mget _ _ _ _ _ _ i i Hfill) by done.
    by rewrite fill_target_diag.
  - intros i j Hi Hj.
    destruct (mean_diff_cell_wf n_x yr st i j) as [E1 E2]; [done|done|done|lia..|].
    split.
    + rewrite (filled_mget _ _ _ _ _ _ i j Hfill) by lia.
      rewrite fill_target_lt by lia. by rewrite E1.
    + rewrite (filled_mget _ _ _ _ _ _ j i Hfill) by lia.
      rewrite fill_target_gt by lia. by rewrite E2.
Qed.

(** ** The result of [msdClone] *)

Lemma msdClone_fold (md : matrix double) i j m (L : list (Z * Z)) :
  mget md i j = Ok m ->
  (fun p : Z * Z =>
     dsquare (dsub (d_of_Z (c_int (((i, p.1), (j, p.2)).1.2 - ((i, p.1), (j, p.2)).2.2)))
                (cell_or d_zero md ((i, p.1), (j, p.2)).1.1 ((i, p.1), (j, p.2)).2.1)))
    <$> L =
  (fun p => dsquare (dsub (d_of_Z (c_int (p.1 - p.2))) m)) <$> L.
Proof.
  intros Hm. apply list_fmap_ext. intros k p _. simpl.
  by rewrite (cell_or_mget _ _ _ _ _ Hm).
Qed.

Lemma msdClone_accumulate_wf n_x yr :
  wf_input n_x yr -> in_range n_x yr ->
  exists md st, compute_mean_diff n_x yr = Ok md /\
    msdClone_accumulate n_x yr = Ok st /\
    msdClone_inv (Z.to_nat n_x) md st /\
    forall i j, 0 <= i < n_x -> 0 <= j < n_x ->
      let L := corated yr i j in
      exists m, mget md i j = Ok m /\
        mget (mc_sq_diff st) i j = Ok (msdClone_sq_diff_of m L) /\
        mget (mc_freq st) i j = Ok (c_long (Z.of_nat (length L))).
Proof.
  intros Hwf Hr. pose proof (wf_bounds _ _ Hwf Hr) as Hn.
  pose proof (wf_no_error _ _ Hwf Hr) as Hok.
  destruct (compute_mean_diff_ok n_x yr Hn Hok)
    as (st0 & md & _ & _ & Hmd & Hfill).
  pose proof Hfill as [Hsqmd _].
  destruct (msdClone_accumulate_ok n_x yr md Hn Hok Hmd Hsqmd)
    as (st & Hacc & Hinv & Hcells).
  exists md, st. split; [done|]. split; [done|]. split; [done|].
  intros i j Hi Hj L. destruct Hinv as (_ & Hs & Hf).
  destruct (Hcells _ _ (nat_index _ _ Hi) (nat_index _ _ Hj)) as (Cs & Cf).
  destruct (mget_nonneg n_x md i j Hsqmd Hi Hj) as (m & _ & Hm).
  exists m. split; [done|]. split.
  - rewrite (acc_cell_D n_x yr _
      (fun a => dsquare (dsub (d_of_Z (c_int (a.1.2 - a.2.2)))
                           (cell_or d_zero md a.1.1 a.2.1))) i j) by done.
    unfold msdClone_sq_diff_of. by rewrite (msdClone_fold md i j m).
  - rewrite <- sumZ_ones. by apply (acc_cell_Z n_x yr _ (fun _ => 1)).
Qed.

Lemma msdClone_result n_x yr :
  wf_input n_x yr -> in_range n_x yr ->
  exists md st sim, compute_mean_diff n_x yr = Ok md /\
    msdClone_accumulate n_x yr = Ok st /\ msdClone n_x yr = Ok sim /\
    mc_mean_diff st = md /\ square (Z.to_nat n_x) sim /\
    (forall i j, 0 <= i < j -> j < n_x ->
       let L := corated yr i j in
       mget md i j = Ok (mean_diff_of L) /\
       mget (mc_sq_diff st) i j = Ok (msdClone_sq_diff_of (mean_diff_of L) L) /\
       mget (mc_freq st) i j = Ok (c_long (Z.of_nat (length L)))) /\
    (forall i, 0 <= i < n_x -> mget sim i i = Ok (d_of_Z 100)) /\
    (forall i j, 0 <= i < j -> j < n_x ->
       mget sim i j = Ok (msdClone_sim (corated yr i j)) /\
       mget sim j i = Ok (msdClone_sim (corated yr i j))).
Proof.
  intros Hwf Hr. pose proof (wf_bounds _ _ Hwf Hr) as Hn.
  destruct (msdClone_accumulate_wf n_x yr Hwf Hr)
    as (md & st & Hmd & Hacc & Hinv & Hcells).
  destruct (msdClone_run n_x yr md st Hn Hacc Hinv) as (sim & Hrun & Hfill).
  destruct (compute_mean_diff_result n_x yr Hwf Hr)
    as (st0 & md' & _ & Hmd' & _ & _ & _ & _ & Hmdc).
  same_run Hmd Hmd'.
  assert (forall i j, 0 <= i < j -> j < n_x ->
            let L := corated yr i j in
            mget md i j = Ok (mean_diff_of L) /\
            mget (mc_sq_diff st) i j = Ok (msdClone_sq_diff_of (mean_diff_of L) L) /\
            mget (mc_freq st) i j = Ok (c_long (Z.of_nat (length L)))) as Hc.
  { intros i j Hi Hj L.
    destruct (Hcells i j) as (m & Hm & Cs & Cf); [lia..|].
    destruct (Hmdc i j Hi Hj) as [Hm' _]. rewrite Hm' in Hm.
    injection Hm as <-. done. }
  assert (forall i j, 0 <= i < j -> j < n_x ->
            msdClone_cell st i j = msdClone_sim (corated yr i j)) as Hcell.
  { intros i j Hi Hj. destruct (Hc i j Hi Hj) as (_ & Cs & Cf).
    unfold msdClone_cell, msdClone_sim.
    by rewrite (cell_or_mget _ _ _ _ _ Cs), (cell_or_mget _ _ _ _ _ Cf). }
  exists md, st, sim. split; [done|]. split; [done|]. split; [done|].
  split; [apply Hinv|]. split; [apply Hfill|]. split; [exact Hc|]. split.
  - intros i Hi. rewrite (filled_mget _ _ _ _ _ _ i i Hfill) by done.
    by rewrite fill_target_diag.
  - intros i j Hi Hj. split.
    + rewrite (filled_mget _ _ _ _ _ _ i j Hfill) by lia.
      rewrite fill_target_lt by lia. by rewrite Hcell.
    + rewrite (filled_mget _ _ _ _ _ _ j i Hfill) by lia.
      rewrite fill_target_gt by lia. by rewrite Hcell.
Qed.

(** ** The result of [pearson] *)

Lemma pearson_accumulate_wf n_x yr :
  wf_input n_x yr -> in_range n_x yr ->
  exists st, pearson_accumulate n_x yr = Ok st /\ pearson_inv (Z.to_nat n_x) st /\
    forall i j, 0 <= i < n_x -> 0 <= j < n_x ->
      let L := corated yr i j in
      mget (pe_freq st) i j = Ok (c_long (Z.of_nat (length L))) /\
      mget (pe_prods st) i j = Ok (c_long (sumZ (fun p => c_int (p.1 * p.2)) L)) /\
      mget (pe_sqi st) i j = Ok (c_long (sumZ (fun p => c_long (p.1 * p.1)) L)) /\
      mget (pe_sqj st) i j = Ok (c_long (sumZ (fun p => c_long (p.2 * p.2)) L)) /\
      mget (pe_si st) i j = Ok (c_long (sumZ (fun p => p.1) L)) /\
      mget (pe_sj st) i j = Ok (c_long (sumZ (fun p => p.2) L)).
Proof.
  intros Hwf Hr. pose proof (wf_bounds _ _ Hwf Hr) as Hn.
  destruct (pearson_accumulate_ok n_x yr Hn (wf_no_error _ _ Hwf Hr))
    as (st & Hacc & Hinv & Hcells).
  exists st. split; [done|]. split; [done|]. intros i j Hi Hj L.
  destruct Hinv as (Hf & Hp & Hqi & Hqj & Hsi & Hsj).
  destruct (Hcells _ _ (nat_index _ _ Hi) (nat_index _ _ Hj))
    as (Cf & Cp & Cqi & Cqj & Csi & Csj).
  repeat split.
  - rewrite <- sumZ_ones. by apply (acc_cell_Z n_x yr _ (fun _ => 1)).
  - by apply (acc_cell_Z n_x yr _ (fun a => c_int (a.1.2 * a.2.2))).
  - by apply (acc_cell_Z n_x yr _ (fun a => c_long (a.1.2 * a.1.2))).
  - by apply (acc_cell_Z n_x yr _ (fun a => c_long (a.2.2 * a.2.2))).
  - by apply (acc_cell_Z n_x yr _ (fun a => a.1.2)).
  - by apply (acc_cell_Z n_x yr _ (fun a => a.2.2)).
Qed.

Lemma pearson_cell_wf n_x yr st i j :
  wf_input n_x yr -> in_range n_x yr -> pearson_accumulate n_x yr = Ok st ->
  0 <= i < n_x -> 0 <= j < n_x ->
  pearson_cell st i j = pearson_sim (corated yr i j).
Proof.
  intros Hwf Hr Hacc Hi Hj.
  destruct (pearson_accumulate_wf n_x yr Hwf Hr) as (st' & Hacc' & _ & Hc).
  same_run Hacc Hacc'.
  destruct (Hc i j Hi Hj) as (Cf & Cp & Cqi & Cqj & Csi & Csj).
  unfold pearson_cell, pearson_sim, pearson_radicand_of, pearson_num_of.
  by rewrite (cell_or_mget _ _ _ _ _ Cf), (cell_or_mget _ _ _ _ _ Cp),
    (cell_or_mget _ _ _ _ _ Cqi), (cell_or_mget _ _ _ _ _ Cqj),
    (cell_or_mget _ _ _ _ _ Csi), (cell_or_mget _ _ _ _ _ Csj).
Qed.

(** On well-formed input within range [pearson] returns a matrix, or stops
    with [TypeError] at a pair whose radicand [np.sqrt] refuses. *)
Lemma pearson_result n_x yr :
  wf_input n_x yr -> in_range n_x yr ->
  exists st, pearson_accumulate n_x yr = Ok st /\
    pearson_inv (Z.to_nat n_x) st /\
    (forall i j, 0 <= i < n_x -> 0 <= j < n_x ->
      let L := corated yr i j in
      mget (pe_freq st) i j = Ok (c_long (Z.of_nat (length L))) /\
      mget (pe_prods st) i j = Ok (c_long (sumZ (fun p => c_int (p.1 * p.2)) L)) /\
      mget (pe_sqi st) i j = Ok (c_long (sumZ (fun p => c_long (p.1 * p.1)) L)) /\
      mget (pe_sqj st) i j = Ok (c_long (sumZ (fun p => c_long (p.2 * p.2)) L)) /\
      mget (pe_si st) i j = Ok (c_long (sumZ (fun p => p.1) L)) /\
      mget (pe_sj st) i j = Ok (c_long (sumZ (fun p => p.2) L))) /\
    ((exists sim, pearson n_x yr = Ok sim /\ square (Z.to_nat n_x) sim /\
        (forall i, 0 <= i < n_x -> mget sim i i = Ok (d_of_Z 1)) /\
        (forall i j, 0 <= i < j -> j < n_x ->
           exists v, pearson_sim (corated yr i j) = Ok v /\
             mget sim i j = Ok v /\ mget sim j i = Ok v)) \/
     (pearson n_x yr = Raise TypeError /\
      exists i j, 0 <= i < j /\ j < n_x /\
        pearson_sim (corated yr i j) = Raise TypeError)).
Proof.
  intros Hwf Hr. pose proof (wf_bounds _ _ Hwf Hr) as Hn.
  destruct (pearson_accumulate_wf n_x yr Hwf Hr) as (st & Hacc & Hinv & Hcells).
  exists st. split; [done|]. split; [done|]. split; [exact Hcells|].
  destruct (pearson_run n_x yr st Hn Hacc Hinv)
    as [(sim & Hrun & Hfill & Hval)|(Hrun & i & j & Hi & Hj & He)].
  - left. exists sim. split; [done|]. split; [apply Hfill|]. split.
    + intros i Hi. rewrite (filled_mget _ _ _ _ _ _ i i Hfill) by done.
      by rewrite fill_target_diag.
    + intros i j Hi Hj. eexists. split; [|split].
      * rewrite <- (pearson_cell_wf n_x yr st) by (done || lia).
        by apply Hval.
      * rewrite (filled_mget _ _ _ _ _ _ i j Hfill) by lia.
        by rewrite fill_target_lt by lia.
      * rewrite (filled_mget _ _ _ _ _ _ j i Hfill) by lia.
        by rewrite fill_target_gt by lia.
  - right. split; [done|]. exists i, j. split; [done|]. split; [done|].
    by rewrite <- (pearson_cell_wf n_x yr st) by (done || lia).
Qed.

(** ** Arithmetic of doubles *)

Lemma iter_pos_nat {A : Type} (f : A -> A) p x :
  SpecFloat.iter_pos f p x = Nat.iter (Pos.to_nat p) f x.
Proof.
  revert x. induction p as [p IH|p IH|]; intros x; cbn [SpecFloat.iter_pos].
  - rewrite !IH, Pos2Nat.inj_xI.
    replace (S (2 * Pos.to_nat p)) with (Pos.to_nat p + (Pos.to_nat p + 1))%nat
      by lia.
    rewrite !Nat.iter_add. done.
  - rewrite !IH, Pos2Nat.inj_xO.
    replace (2 * Pos.to_nat p)%nat with (Pos.to_nat p + Pos.to_nat p)%nat by lia.
    by rewrite Nat.iter_add.
  - done.
Qed.

Lemma shr_1_m mrs : 0 <= shr_m mrs -> shr_m (shr_1 mrs) = shr_m mrs / 2.
Proof.
  destruct mrs as [m r s]. cbn [shr_m]. intros Hm.
  destruct m as [|[p|p|]|p]; cbn [shr_1 shr_m]; try done; try lia.
  - rewrite (Pos2Z.inj_xI p). rewrite Z.add_comm, Z.mul_comm, Z.div_add by lia.
    done.
  - rewrite (Pos2Z.inj_xO p). rewrite Z.mul_comm, Z.div_mul by lia. done.
Qed.

Lemma shr_nat_m n mrs :
  0 <= shr_m mrs ->
  shr_m (Nat.iter n shr_1 mrs) = shr_m mrs / 2 ^ Z.of_nat n.
Proof.
  intros Hm. induction n as [|n IH].
  - simpl. by rewrite Z.div_1_r.
  - rewrite Nat2Z.inj_succ, Z.pow_succ_r by lia. simpl.
    rewrite shr_1_m by (rewrite IH; apply Z.div_pos; lia).
    rewrite IH, Z.div_div by lia. f_equal. lia.
Qed.

Lemma shr_1_exact m :
  0 <= m -> m mod 2 = 0 ->
  shr_1 (Build_shr_record m false false) = Build_shr_record (m / 2) false false.
Proof.
  intros Hm He. destruct m as [|[p|p|]|p]; cbn [shr_1 orb]; try done; try lia.
  - rewrite (Pos2Z.inj_xI p) in He.
    rewrite Z.add_comm, Z.mul_comm, Z.mod_add in He by lia. done.
  - rewrite (Pos2Z.inj_xO p). rewrite Z.mul_comm, Z.div_mul by lia. done.
Qed.

Lemma shr_nat_exact n m :
  0 <= m -> m mod 2 ^ Z.of_nat n = 0 ->
  Nat.iter n shr_1 (Build_shr_record m false false) =
  Build_shr_record (m / 2 ^ Z.of_nat n) false false.
Proof.
  intros Hm. induction n as [|n IH]; intros He.
  - simpl. by rewrite Z.div_1_r.
  - rewrite Nat2Z.inj_succ, Z.pow_succ_r in * by lia.
    assert (0 < 2 ^ Z.of_nat n) as Hp by (apply Z.pow_pos_nonneg; lia).
    apply Z.mod_divide in He; [|lia]. destruct He as [k Hk].
    simpl. rewrite IH.
    + rewrite shr_1_exact.
      * rewrite Z.div_div by lia. f_equal. f_equal. lia.
      * apply Z.div_pos; lia.
      * subst m. replace (k * (2 * 2 ^ Z.of_nat n)) with (k * 2 * 2 ^ Z.of_nat n)
          by lia.
        rewrite Z.div_mul by lia. by rewrite Z.mod_mul.
    + subst m. replace (k * (2 * 2 ^ Z.of_nat n)) with (k * 2 * 2 ^ Z.of_nat n)
        by lia.
      by rewrite Z.mod_mul by lia.
Qed.

(** The right shift by [n] digits. *)
Lemma shr_m_spec mrs e n :
  0 <= shr_m mrs ->
  shr_m (shr mrs e n).1 = shr_m mrs / 2 ^ Z.max 0 n /\
  (shr mrs e n).2 = e + Z.max 0 n.
Proof.
  intros Hm. unfold shr. destruct n as [|p|p]; simpl.
  - rewrite Z.div_1_r. split; [done|lia].
  - rewrite iter_pos_nat, shr_nat_m by done.
    rewrite positive_nat_Z. split; [done|lia].
  - rewrite Z.div_1_r. split; [done|lia].
Qed.

Lemma shr_exact m e n :
  0 <= m -> 0 <= n -> m mod 2 ^ n = 0 ->
  shr (Build_shr_record m false false) e n =
  (Build_shr_record (m / 2 ^ n) false false, e + n).
Proof.
  intros Hm Hn He. unfold shr. destruct n as [|p|p]; [| |lia].
  - simpl. rewrite Z.div_1_r. f_equal. lia.
  - rewrite iter_pos_nat.
    rewrite <- (positive_nat_Z p) in He |- * at 1.
    rewrite shr_nat_exact by done. by rewrite positive_nat_Z.
Qed.

Lemma digits2_size p : digits2_pos p = Pos.size p.
Proof. induction p as [p IH|p IH|]; simpl; by rewrite ?IH. Qed.

(** The number of digits of a positive integer. *)
Lemma Zdigits2_bounds m :
  0 < m -> 2 ^ (Zdigits2 m - 1) <= m < 2 ^ Zdigits2 m.
Proof.
  destruct m as [|p|p]; try lia. intros _. simpl. rewrite digits2_size.
  pose proof (Pos.size_gt p) as Hgt. pose proof (Pos.size_le p) as Hle.
  apply Pos2Z.pos_lt_pos in Hgt. apply Pos2Z.pos_le_pos in Hle.
  rewrite Pos2Z.inj_pow in Hgt, Hle.
  change (Z.pos p~0) with (2 * Z.pos p) in Hle.
  set (d := Z.pos (Pos.size p)) in *.
  assert (2 ^ d = 2 * 2 ^ (d - 1)) as E.
  { replace d with (Z.succ (d - 1)) at 1 by lia.
    rewrite Z.pow_succ_r by lia. done. }
  lia.
Qed.

Lemma digits_unique m d :
  0 < m -> 2 ^ (d - 1) <= m < 2 ^ d -> Zdigits2 m = d.
Proof.
  intros Hm Hd. pose proof (Zdigits2_bounds m Hm) as Hb.
  assert (0 < Zdigits2 m) by (destruct m; simpl; lia).
  assert (0 < d).
  { destruct (Z.le_gt_cases d 0); [|done].
    rewrite (Z.pow_neg_r 2 (d - 1)) in Hd by lia.
    assert (2 ^ d <= 2 ^ 0) by (apply Z.pow_le_mono_r; lia).
    simpl in *. lia. }
  destruct (Z.lt_trichotomy (Zdigits2 m) d) as [Hlt|[Heq|Hgt]]; [|done|].
  - assert (2 ^ Zdigits2 m <= 2 ^ (d - 1)) by (apply Z.pow_le_mono_r; lia). lia.
  - assert (2 ^ d <= 2 ^ (Zdigits2 m - 1)) by (apply Z.pow_le_mono_r; lia). lia.
Qed.

Lemma Zdigits2_nonneg m : 0 <= Zdigits2 m.
Proof. destruct m; simpl; lia. Qed.

Lemma Zdigits2_pos m : 0 < m -> 0 < Zdigits2 m.
Proof. destruct m; simpl; lia. Qed.

Lemma Zdigits2_mono a b : 0 < a <= b -> Zdigits2 a <= Zdigits2 b.
Proof.
  intros H. pose proof (Zdigits2_bounds a) as Ha.
  pose proof (Zdigits2_bounds b) as Hb.
  destruct (Z.le_gt_cases (Zdigits2 a) (Zdigits2 b)); [done|].
  assert (2 ^ Zdigits2 b <= 2 ^ (Zdigits2 a - 1)).
  { apply Z.pow_le_mono_r; [lia|]. lia. }
  lia.
Qed.

Lemma round_nearest_even_bounds m l :
  m <= round_nearest_even m l <= m + 1.
Proof.
  unfold round_nearest_even. destruct l as [|[| |]]; try lia.
  destruct (Z.even m); lia.
Qed.

(** The mantissa that two shifts and a rounding leave. *)
Lemma round_mantissa m e l :
  0 <= m ->
  let r1 := shr_fexp 53 1024 m e l in
  let m1 := round_nearest_even (shr_m r1.1) (loc_of_shr_record r1.1) in
  let r2 := shr_fexp 53 1024 m1 r1.2 loc_Exact in
  0 <= shr_m r1.1 /\ 0 <= m1 /\ 0 <= shr_m r2.1 /\ e <= r1.2 /\ r1.2 <= r2.2 /\
  (0 < m -> -1074 < Zdigits2 m + e -> 0 < shr_m r2.1).
Proof.
  intros Hm r1 m1 r2.
  assert (forall m e l, 0 <= m ->
            let r := shr_fexp 53 1024 m e l in
            0 <= shr_m r.1 /\ e <= r.2 /\
            (0 < m -> -1074 < Zdigits2 m + e ->
               0 < shr_m r.1 /\ -1074 < Zdigits2 (shr_m r.1) + r.2)) as Hshift.
  { clear. intros m e l Hm r. unfold r, shr_fexp.
    set (n := fexp 53 1024 (Zdigits2 m + e) - e).
    destruct (shr_m_spec (shr_record_of_loc m l) e n) as [E1 E2].
    { by destruct l as [|[| |]]. }
    assert (shr_m (shr_record_of_loc m l) = m) as Em by by destruct l as [|[| |]].
    rewrite Em in E1. rewrite E1, E2.
    assert (0 < 2 ^ Z.max 0 n) by (apply Z.pow_pos_nonneg; lia).
    split; [apply Z.div_pos; lia|]. split; [lia|].
    intros Hpos Hd. pose proof (Zdigits2_bounds m Hpos) as Hb.
    pose proof (Zdigits2_pos m Hpos) as Hdp.
    assert (Z.max 0 n < Zdigits2 m) as Hn.
    { unfold n, fexp, emin. lia. }
    assert (2 ^ Z.max 0 n <= 2 ^ (Zdigits2 m - 1))
      by (apply Z.pow_le_mono_r; lia).
    assert (0 < m / 2 ^ Z.max 0 n) as Hq.
    { apply Z.div_str_pos. lia. }
    split; [done|].
    assert (Zdigits2 (m / 2 ^ Z.max 0 n) = Zdigits2 m - Z.max 0 n) as ->.
    { apply digits_unique; [done|].
      replace (Zdigits2 m - 1) with (Zdigits2 m - Z.max 0 n - 1 + Z.max 0 n) in Hb
        by lia.
      replace (Zdigits2 m) with (Zdigits2 m - Z.max 0 n + Z.max 0 n) in Hb at 2
        by lia.
      rewrite !Z.pow_add_r in Hb by lia. split.
      - apply Z.div_le_lower_bound; lia.
      - apply Z.div_lt_upper_bound; lia. }
    lia. }
  destruct (Hshift m e l Hm) as (H1 & H2 & H3). fold r1 in H1, H2, H3.
  pose proof (round_nearest_even_bounds (shr_m r1.1) (loc_of_shr_record r1.1))
    as Hr. fold m1 in Hr.
  assert (0 <= m1) as Hm1 by lia.
  destruct (Hshift m1 r1.2 loc_Exact Hm1) as (H4 & H5 & H6).
  fold r2 in H4, H5, H6.
  split; [done|]. split; [done|]. split; [done|]. split; [done|].
  split; [done|]. intros Hpos Hd. destruct (H3 Hpos Hd) as [H7 H8].
  apply H6; [lia|].
  assert (Zdigits2 (shr_m r1.1) <= Zdigits2 m1) by (apply Zdigits2_mono; lia).
  lia.
Qed.

(** The result of a rounding is the not-a-number value for no mantissa
    that is at least zero. *)
Lemma binary_round_aux_rounded s m e l :
  0 <= m -> rounded s e (binary_round_aux 53 1024 s m e l).
Proof.
  intros Hm. destruct (round_mantissa m e l Hm) as (_ & _ & H3 & H4 & H5 & _).
  unfold binary_round_aux.
  destruct (shr_fexp 53 1024 m e l) as [mrs' e'] eqn:E1. simpl in *.
  destruct (shr_fexp 53 1024 _ e' loc_Exact) as [mrs'' e''] eqn:E2. simpl in *.
  destruct (shr_m mrs'') as [|p|p]; [constructor| |lia].
  destruct (Z.leb e'' (1024 - 53)); constructor. lia.
Qed.

Lemma binary_round_aux_pos s m e l :
  0 < m -> -1074 < Zdigits2 m + e ->
  rounded_pos s e (binary_round_aux 53 1024 s m e l).
Proof.
  intros Hm Hd.
  destruct (round_mantissa m e l) as (_ & _ & H3 & H4 & H5 & H6); [lia|].
  specialize (H6 Hm Hd). unfold binary_round_aux.
  destruct (shr_fexp 53 1024 m e l) as [mrs' e'] eqn:E1. simpl in *.
  destruct (shr_fexp 53 1024 _ e' loc_Exact) as [mrs'' e''] eqn:E2. simpl in *.
  destruct (shr_m mrs'') as [|p|p]; [lia| |lia].
  destruct (Z.leb e'' (1024 - 53)); constructor. lia.
Qed.

(** A double is equal to itself unless it is the not-a-number value. *)
Lemma d_eq_refl (x : double) : x <> S754_nan -> d_eq x x = true.
Proof.
  intros Hx. unfold d_eq, SFeqb.
  destruct x as [s|s| |s m e]; try done; simpl.
  - by destruct s.
  - destruct s; rewrite Z.compare_refl, Pos.compare_cont_refl; done.
Qed.

Lemma d_eq0_rounded_pos s e x : rounded_pos s e x -> d_eq0 x = false.
Proof. intros [m' e' _|]; unfold d_eq0, d_eq, SFeqb; simpl; by destruct s. Qed.

Lemma rounded_pos_not_nan s e x : rounded_pos s e x -> x <> S754_nan.
Proof. by intros [m' e' _|]. Qed.

Lemma rounded_not_nan s e x : rounded s e x -> x <> S754_nan.
Proof. by intros [|m' e' _|]. Qed.

Lemma shl_align_spec mx ex ex' :
  let r := shl_align mx ex ex' in
  Z.pos r.1 = Z.pos mx * 2 ^ (ex - r.2) /\ r.2 = Z.min ex ex'.
Proof.
  unfold shl_align. destruct (ex' - ex) as [|p|p] eqn:E; cbn [fst snd].
  - rewrite Z.sub_diag, Z.pow_0_r. lia.
  - rewrite Z.sub_diag, Z.pow_0_r. lia.
  - assert (ex - ex' = Z.pos p) as -> by lia. split; [|lia].
    rewrite <- Z.shiftl_mul_pow2 by lia. unfold Z.shiftl.
    apply (Pos.iter_swap_gen _ _ Z.pos xO (Z.mul 2)). done.
Qed.

Lemma digits_shift m k :
  0 < m -> 0 <= k -> Zdigits2 (m * 2 ^ k) = Zdigits2 m + k.
Proof.
  intros Hm Hk. pose proof (Zdigits2_bounds m Hm) as Hb.
  pose proof (Zdigits2_pos m Hm).
  assert (0 < 2 ^ k) by (apply Z.pow_pos_nonneg; lia).
  apply digits_unique; [lia|].
  replace (Zdigits2 m + k - 1) with (Zdigits2 m - 1 + k) by lia.
  rewrite !Z.pow_add_r by lia. nia.
Qed.

(** The double of an integer that is not zero is no zero and has its
    sign. *)
Lemma binary_round_pos s mx :
  rounded_pos s (-52) (binary_round 53 1024 s mx 0).
Proof.
  unfold binary_round.
  destruct (shl_align_spec mx 0 (fexp 53 1024 (Z.pos (digits2_pos mx) + 0)))
    as [E1 E2].
  destruct (shl_align mx 0 _) as [mz ez]. simpl in E1, E2.
  assert (0 < Z.pos (digits2_pos mx)) by lia.
  assert (-52 <= ez <= 0) as He by (rewrite E2; unfold fexp, emin; lia).
  assert (rounded_pos s ez (binary_round_aux 53 1024 s (Z.pos mz) ez loc_Exact))
    as Hr.
  { apply binary_round_aux_pos; [lia|].
    pose proof (Zdigits2_pos (Z.pos mz)). lia. }
  destruct Hr as [m' e' Hle|]; constructor. lia.
Qed.

Lemma d_of_Z_pos z : 0 < z -> rounded_pos false (-52) (d_of_Z z).
Proof.
  intros Hz. destruct z as [|p|p]; try lia. apply binary_round_pos.
Qed.

Lemma d_of_Z_neg z : z < 0 -> rounded_pos true (-52) (d_of_Z z).
Proof.
  intros Hz. destruct z as [|p|p]; try lia. apply binary_round_pos.
Qed.

Lemma d_of_Z_not_nan z : d_of_Z z <> S754_nan.
Proof.
  destruct (Z.lt_trichotomy z 0) as [H|[->|H]]; [|done|].
  - apply (rounded_pos_not_nan _ _ _ (d_of_Z_neg z H)).
  - apply (rounded_pos_not_nan _ _ _ (d_of_Z_pos z H)).
Qed.

(** The square root of a positive double is no zero. *)
Lemma dsqrt_pos e x :
  -52 <= e -> rounded_pos false e x -> rounded_pos false (-1074) (dsqrt x).
Proof.
  intros He [m e1 He1|]; [|constructor].
  unfold dsqrt, SFsqrt, SFsqrt_core_binary.
  set (d := Zdigits2 (Z.pos m)).
  set (e' := Z.min (fexp 53 1024 (Z.div2 (d + e1 + 1))) (Z.div2 e1)).
  set (sh := e1 - 2 * e').
  assert (0 <= sh) as Hsh.
  { unfold sh, e'. rewrite Z.div2_div.
    pose proof (Z.div_mod e1 2). pose proof (Z.mod_pos_bound e1 2). lia. }
  assert (-1074 <= e') as He'.
  { unfold e', fexp, emin. rewrite !Z.div2_div.
    pose proof (Z.div_mod e1 2). pose proof (Z.mod_pos_bound e1 2). lia. }
  set (m' := match sh with
             | 0 => Z.pos m
             | Z.pos _ => Z.shiftl (Z.pos m) sh
             | Z.neg _ => 0
             end).
  assert (0 < m') as Hm'.
  { unfold m'. destruct sh as [|p|p] eqn:E; [lia| |lia].
    rewrite Z.shiftl_mul_pow2 by lia.
    assert (0 < 2 ^ Z.pos p) by (apply Z.pow_pos_nonneg; lia). lia. }
  pose proof (Z.sqrtrem_spec m') as Hspec.
  destruct (Z.sqrtrem m') as [q r]. destruct Hspec as [Hq Hr]; [lia|].
  assert (0 < q) as Hqpos by nia.
  assert (rounded_pos false e'
            (binary_round_aux 53 1024 false q e'
               (if r =? 0 then loc_Exact
                else loc_Inexact (if r <=? q then Lt else Gt)))) as Hres.
  { apply binary_round_aux_pos; [done|].
    pose proof (Zdigits2_pos q Hqpos). lia. }
  destruct Hres as [m2 e2 Hle|]; constructor. lia.
Qed.

Lemma np_sqrt_nonzero z :
  0 < z < 2 ^ 64 -> exists d, np_sqrt z = Ok d /\ d_eq0 d = false.
Proof.
  intros Hz. unfold np_sqrt.
  destruct (Z.leb_spec (- 2 ^ 63) z); [|lia].
  destruct (Z.ltb_spec z (2 ^ 64)); [|lia]. simpl.
  eexists. split; [done|].
  apply (d_eq0_rounded_pos false (-1074)).
  apply (dsqrt_pos (-52)); [lia|]. apply d_of_Z_pos. lia.
Qed.

Lemma np_sqrt_zero : np_sqrt 0 = Ok d_zero.
Proof. reflexivity. Qed.

(** ** Doubles of small integers *)

(** A mantissa of 53 digits with an exponent in range is kept as it is. *)
Lemma binary_round_aux_canonical s m e :
  Zdigits2 (Z.pos m) = 53 -> -1074 <= e <= 971 ->
  binary_round_aux 53 1024 s (Z.pos m) e loc_Exact = S754_finite s m e.
Proof.
  intros Hd He. unfold binary_round_aux, shr_fexp. rewrite Hd.
  replace (fexp 53 1024 (53 + e) - e) with 0 by (unfold fexp, emin; lia).
  cbn [shr shr_record_of_loc shr_m loc_of_shr_record round_nearest_even].
  rewrite Hd.
  replace (fexp 53 1024 (53 + e) - e) with 0 by (unfold fexp, emin; lia).
  cbn [shr shr_record_of_loc shr_m].
  destruct (Z.leb_spec e (1024 - 53)); [done|lia].
Qed.

(** A mantissa with trailing zeros beyond its 53 digits is shifted. *)
Lemma binary_round_aux_shift s m e k :
  Zdigits2 (Z.pos m) = 53 -> -1074 <= e <= 971 -> 0 <= k ->
  binary_round_aux 53 1024 s (Z.pos m * 2 ^ k) (e - k) loc_Exact =
  S754_finite s m e.
Proof.
  intros Hd He Hk.
  assert (0 < 2 ^ k) as Hp by (apply Z.pow_pos_nonneg; lia).
  unfold binary_round_aux, shr_fexp.
  rewrite digits_shift, Hd by lia.
  replace (fexp 53 1024 (53 + k + (e - k)) - (e - k)) with k
    by (unfold fexp, emin; lia).
  cbn [shr_record_of_loc].
  rewrite shr_exact by (lia || by rewrite Z.mod_mul by lia).
  rewrite Z.div_mul by lia.
  cbn [shr_m loc_of_shr_record round_nearest_even].
  replace (e - k + k) with e by lia. rewrite Hd.
  replace (fexp 53 1024 (53 + e) - e) with 0 by (unfold fexp, emin; lia).
  cbn [shr shr_record_of_loc shr_m].
  destruct (Z.leb_spec e (1024 - 53)); [done|lia].
Qed.






(** The rounding of [c * 2 ^ j] at the exponent [- j], for [c] below
    [2 ^ 53], is the double of [c]. *)
Lemma binary_round_small s c j p :
  0 < c < 2 ^ 53 -> 0 <= j -> Z.pos p = c * 2 ^ j ->
  exists m, binary_round 53 1024 s p (- j) = S754_finite s m (Zdigits2 c - 53) /\
    Z.pos m = c * 2 ^ (53 - Zdigits2 c).
Proof.
  intros Hc Hj Hp. set (d := Zdigits2 c).
  assert (0 < d <= 53) as Hdb.
  { pose proof (Zdigits2_bounds c) as Hb. fold d in Hb.
    pose proof (Zdigits2_pos c). fold d in H.
    split; [lia|]. destruct (Z.le_gt_cases d 53); [done|].
    assert (2 ^ 53 <= 2 ^ (d - 1)) by (apply Z.pow_le_mono_r; lia). lia. }
  assert (0 < 2 ^ (53 - d)) by (apply Z.pow_pos_nonneg; lia).
  assert (0 < 2 ^ j) by (apply Z.pow_pos_nonneg; lia).
  exists (Z.to_pos (c * 2 ^ (53 - d))). rewrite Z2Pos.id by lia.
  split; [|done]. unfold binary_round.
  assert (Z.pos (digits2_pos p) = d + j) as Hdp.
  { change (Z.pos (digits2_pos p)) with (Zdigits2 (Z.pos p)).
    rewrite Hp. apply digits_shift; lia. }
  destruct (shl_align_spec p (- j) (fexp 53 1024 (Z.pos (digits2_pos p) + - j)))
    as [E1 E2].
  destruct (shl_align p (- j) _) as [mz ez]. simpl in E1, E2.
  rewrite Hdp in E2.
  replace (fexp 53 1024 (d + j + - j)) with (d - 53) in E2
    by (unfold fexp, emin; lia).
  assert (Zdigits2 (c * 2 ^ (53 - d)) = 53) as Hd53
    by (rewrite digits_shift by lia; fold d; lia).
  destruct (Z.le_gt_cases (- j) (d - 53)) as [Hle|Hgt].
  - assert (ez = - j) as -> by lia.
    replace (- j - - j) with 0 in E1 by lia. rewrite Z.pow_0_r, Z.mul_1_r in E1.
    rewrite E1, Hp.
    replace (c * 2 ^ j) with (Z.pos (Z.to_pos (c * 2 ^ (53 - d))) * 2 ^ (j - (53 - d))).
    2:{ rewrite Z2Pos.id by lia. rewrite <- Z.mul_assoc, <- Z.pow_add_r by lia.
        f_equal. f_equal. lia. }
    replace (- j) with (d - 53 - (j - (53 - d))) by lia.
    apply binary_round_aux_shift; [by rewrite Z2Pos.id by lia|lia|lia].
  - assert (ez = d - 53) as -> by lia.
    assert (Z.pos mz = c * 2 ^ (53 - d)) as Emz.
    { rewrite E1, Hp, <- Z.mul_assoc, <- Z.pow_add_r by lia.
      f_equal. f_equal. lia. }
    rewrite binary_round_aux_canonical.
    + f_equal. rewrite <- Emz. done.
    + by rewrite Emz.
    + lia.
Qed.

Lemma binary_normalize_small z j :
  - 2 ^ 53 < z < 2 ^ 53 -> 0 <= j ->
  binary_normalize 53 1024 (z * 2 ^ j) (- j) false = d_of_Z z.
Proof.
  intros Hz Hj. assert (0 < 2 ^ j) by (apply Z.pow_pos_nonneg; lia).
  unfold d_of_Z, binary_normalize.
  destruct z as [|p|p].
  - done.
  - destruct (Z.pos p * 2 ^ j) as [|q|q] eqn:E; try lia.
    destruct (binary_round_small false (Z.pos p) j q) as (m & -> & Em);
      [lia|lia|lia|].
    destruct (binary_round_small false (Z.pos p) 0 p) as (m' & Hr & Em');
      [lia|lia|lia|].
    change (- 0) with 0 in Hr. rewrite Hr. f_equal. lia.
  - destruct (Z.neg p * 2 ^ j) as [|q|q] eqn:E; try lia.
    destruct (binary_round_small true (Z.pos p) j q) as (m & -> & Em);
      [lia|lia|lia|].
    destruct (binary_round_small true (Z.pos p) 0 p) as (m' & Hr & Em');
      [lia|lia|lia|].
    change (- 0) with 0 in Hr. rewrite Hr. f_equal. lia.
Qed.

(** The double of an integer of absolute value below [2 ^ 53]. *)
Lemma d_of_Z_small z :
  z <> 0 -> - 2 ^ 53 < z < 2 ^ 53 ->
  exists m, d_of_Z z = S754_finite (z <? 0) m (Zdigits2 z - 53) /\
    Z.pos m = Z.abs z * 2 ^ (53 - Zdigits2 z).
Proof.
  intros Hz Hb. unfold d_of_Z, binary_normalize. destruct z as [|p|p]; [done| |].
  - destruct (binary_round_small false (Z.pos p) 0 p) as (m & Hr & Em);
      [lia|lia|lia|].
    change (- 0) with 0 in Hr. exists m. split; [exact Hr|exact Em].
  - destruct (binary_round_small true (Z.pos p) 0 p) as (m & Hr & Em);
      [lia|lia|lia|].
    change (- 0) with 0 in Hr. exists m. split; [exact Hr|exact Em].
Qed.

Lemma cond_Zopp_neg z m : z <> 0 -> m = Z.abs z -> cond_Zopp (z <? 0) m = z.
Proof.
  intros Hz ->. unfold cond_Zopp. destruct (Z.ltb_spec z 0); lia.
Qed.

(** The sum of the doubles of two integers is exact when the integers and
    their sum are below [2 ^ 53] in absolute value. *)
Lemma dadd_exact a b :
  - 2 ^ 53 < a < 2 ^ 53 -> - 2 ^ 53 < b < 2 ^ 53 ->
  - 2 ^ 53 < a + b < 2 ^ 53 ->
  dadd (d_of_Z a) (d_of_Z b) = d_of_Z (a + b).
Proof.
  intros Ha Hb Hab.
  destruct (Z.eq_dec a 0) as [->|Ha0].
  { rewrite Z.add_0_l. destruct (Z.eq_dec b 0) as [->|Hb0]; [reflexivity|].
    destruct (d_of_Z_small b Hb0 Hb) as (m & -> & _). reflexivity. }
  destruct (Z.eq_dec b 0) as [->|Hb0].
  { rewrite Z.add_0_r. destruct (d_of_Z_small a Ha0 Ha) as (m & -> & _).
    reflexivity. }
  destruct (d_of_Z_small a Ha0 Ha) as (ma & -> & Ema).
  destruct (d_of_Z_small b Hb0 Hb) as (mb & -> & Emb).
  unfold dadd, SFadd.
  set (ea := Zdigits2 a - 53) in *. set (eb := Zdigits2 b - 53) in *.
  set (ez := Z.min ea eb).
  assert (0 < Zdigits2 a <= 53 /\ 0 < Zdigits2 b <= 53) as [Hda Hdb].
  { assert (forall z, z <> 0 -> - 2 ^ 53 < z < 2 ^ 53 -> 0 < Zdigits2 z <= 53)
      as Hdig.
    { clear. intros z Hz Hb.
      assert (Zdigits2 z = Zdigits2 (Z.abs z)) as -> by by destruct z.
      pose proof (Zdigits2_bounds (Z.abs z)) as H.
      pose proof (Zdigits2_pos (Z.abs z)) as H'.
      split; [lia|].
      destruct (Z.le_gt_cases (Zdigits2 (Z.abs z)) 53); [done|].
      assert (2 ^ 53 <= 2 ^ (Zdigits2 (Z.abs z) - 1))
        by (apply Z.pow_le_mono_r; lia).
      lia. }
    split; by apply Hdig. }
  destruct (shl_align_spec ma ea ez) as [E1 E2].
  destruct (shl_align_spec mb eb ez) as [E3 E4].
  replace ((shl_align ma ea ez).2) with ez in E1 by (rewrite E2; lia).
  replace ((shl_align mb eb ez).2) with ez in E3 by (rewrite E4; lia).
  cbv zeta. fold ez. rewrite E1, E3, Ema, Emb.
  assert (ez <= 0) as Hez by (unfold ez, ea, eb; lia).
  assert (cond_Zopp (a <? 0) (Z.abs a * 2 ^ (53 - Zdigits2 a) * 2 ^ (ea - ez)) =
          a * 2 ^ (- ez)) as ->.
  { rewrite <- Z.mul_assoc, <- Z.pow_add_r by (unfold ez, ea; lia).
    replace (53 - Zdigits2 a + (ea - ez)) with (- ez) by (unfold ea; lia).
    unfold cond_Zopp. destruct (Z.ltb_spec a 0); lia. }
  assert (cond_Zopp (b <? 0) (Z.abs b * 2 ^ (53 - Zdigits2 b) * 2 ^ (eb - ez)) =
          b * 2 ^ (- ez)) as ->.
  { rewrite <- Z.mul_assoc, <- Z.pow_add_r by (unfold ez, eb; lia).
    replace (53 - Zdigits2 b + (eb - ez)) with (- ez) by (unfold eb; lia).
    unfold cond_Zopp. destruct (Z.ltb_spec b 0); lia. }
  rewrite <- Z.mul_add_distr_r.
  replace ez with (- - ez) at 2 by lia.
  apply binary_normalize_small; lia.
Qed.

(** The sum of the doubles of integers is exact as long as the partial
    sums stay below [2 ^ 53]. *)
Lemma d_sum_exact (f : Z * Z -> Z) M L :
  (forall p, p ∈ L -> - M <= f p <= M) ->
  Z.of_nat (length L) * M < 2 ^ 53 ->
  d_sum ((fun p => d_of_Z (f p)) <$> L) = d_of_Z (sumZ f L).
Proof.
  intros Hf Hb. unfold d_sum. change d_zero with (d_of_Z 0).
  assert (forall c, - (2 ^ 53 - Z.of_nat (length L) * M) < c
                      < 2 ^ 53 - Z.of_nat (length L) * M ->
            foldl dadd (d_of_Z c) ((fun p => d_of_Z (f p)) <$> L) =
            d_of_Z (c + sumZ f L))
    as Hgen.
  { clear Hb. induction L as [|p L IH]; intros c Hc.
    - simpl. f_equal. lia.
    - pose proof (Hf p (list_elem_of_here _ _)) as Hp.
      assert (0 <= M) by lia.
      simpl length in Hc. rewrite Nat2Z.inj_succ in Hc.
      assert (0 <= Z.of_nat (length L) * M) by lia.
      rewrite fmap_cons. cbn [foldl]. cbn beta.
      rewrite dadd_exact by lia.
      rewrite IH.
      + rewrite sumZ_cons. f_equal. lia.
      + intros q Hq. apply Hf. by apply list_elem_of_further.
      + lia. }
  rewrite Hgen; [done|].
  destruct L as [|p L]; [simpl; lia|].
  pose proof (Hf p (list_elem_of_here _ _)). lia.
Qed.

Lemma is_number_not_nan x : is_number x <-> x <> S754_nan.
Proof. split; [by intros []|]. destruct x; try done; constructor. Qed.

(** ** Co-ratings *)

Lemma corated_swap yr i j :
  corated yr j i = (fun p => (p.2, p.1)) <$> corated yr i j.
Proof.
  unfold corated. induction yr as [|yl yr IH]; [done|].
  change ((yl :: yr) ≫= ?f) with (f yl ++ (yr ≫= f)).
  rewrite fmap_app, IH. f_equal.
  by destruct (rating_of i yl.2), (rating_of j yl.2).
Qed.

Lemma sumZ_fmap f (g : Z * Z -> Z * Z) L :
  sumZ f (g <$> L) = sumZ (fun p => f (g p)) L.
Proof.
  induction L as [|p L IH]; [done|].
  change (sumZ f (g <$> p :: L)) with (f (g p) + sumZ f (g <$> L)).
  by rewrite IH.
Qed.

Lemma rating_of_id x r (l : y_ratings_t) : rating_of x l = Some r -> x ∈ l.*1.
Proof.
  intros H. apply rating_of_Some in H.
  by apply (list_elem_of_fmap_2 fst) in H.
Qed.

Lemma corated_nil yr i j :
  (forall yl, yl ∈ yr -> ~ (i ∈ yl.2.*1 /\ j ∈ yl.2.*1)) -> corated yr i j = [].
Proof.
  unfold corated. induction yr as [|yl yr IH]; intros H; [done|].
  change ((yl :: yr) ≫= ?f) with (f yl ++ (yr ≫= f)).
  rewrite IH by (intros yl' Hyl; apply H; by apply list_elem_of_further).
  rewrite app_nil_r.
  destruct (rating_of i yl.2) as [ri|] eqn:Hi; [|done].
  destruct (rating_of j yl.2) as [rj|] eqn:Hj; [|done].
  destruct (H yl); [apply list_elem_of_here|].
  split; by eapply rating_of_id.
Qed.

Lemma corated_ratings yr i j p :
  p ∈ corated yr i j -> p.1 ∈ ratings_of yr /\ p.2 ∈ ratings_of yr.
Proof.
  unfold corated, ratings_of. intros Hp. apply list_elem_of_bind in Hp.
  destruct Hp as (yl & Hp & Hyl).
  destruct (rating_of i yl.2) as [ri|] eqn:Hi;
    [|by apply not_elem_of_nil in Hp].
  destruct (rating_of j yl.2) as [rj|] eqn:Hj;
    [|by apply not_elem_of_nil in Hp].
  apply list_elem_of_singleton in Hp. subst p. simpl.
  apply rating_of_Some in Hi, Hj.
  split; apply list_elem_of_bind; exists yl; (split; [|done]).
  - by apply (list_elem_of_fmap_2 snd) in Hi.
  - by apply (list_elem_of_fmap_2 snd) in Hj.
Qed.

Lemma corated_length yr i j :
  Z.of_nat (length (corated yr i j)) <= Z.of_nat (length yr).
Proof.
  unfold corated. induction yr as [|yl yr IH]; [done|].
  change ((yl :: yr) ≫= ?f) with (f yl ++ (yr ≫= f)).
  rewrite length_app. simpl length.
  destruct (rating_of i yl.2), (rating_of j yl.2); simpl length; lia.
Qed.

Lemma corated_bound B yr i j p :
  rating_bound B yr -> p ∈ corated yr i j ->
  (- B <= p.1 <= B) /\ (- B <= p.2 <= B).
Proof.
  unfold rating_bound. rewrite Forall_forall. intros HB Hp.
  destruct (corated_ratings yr i j p Hp). split; by apply HB.
Qed.

Lemma rating_bound_range B yr n_x :
  n_x < 2 ^ 30 -> rating_bound B yr -> B < 2 ^ 31 -> in_range n_x yr.
Proof.
  intros Hn HB Hlt. split; [done|]. eapply Forall_impl; [exact HB|].
  unfold int_range. intros r Hr. simpl in Hr. lia.
Qed.


(** ** Sums of bounded ratings *)

Section Bounded.

Variables (L : list (Z * Z)) (B : Z).
Hypothesis HB : forall p, p ∈ L -> (- B <= p.1 <= B) /\ (- B <= p.2 <= B).

Lemma bounded_products :
  B * B < 2 ^ 31 ->
  sumZ (fun p => c_int (p.1 * p.2)) L = sumZ (fun p => p.1 * p.2) L /\
  sumZ (fun p => c_long (p.1 * p.1)) L = sumZ (fun p => p.1 ^ 2) L /\
  sumZ (fun p => c_long (p.2 * p.2)) L = sumZ (fun p => p.2 ^ 2) L.
Proof.
  intros HBB. split; [|split]; apply sumZ_ext; intros p Hp;
    destruct (HB p Hp) as [H1 H2].
  - apply c_int_id. nia.
  - rewrite c_long_id by nia. lia.
  - rewrite c_long_id by nia. lia.
Qed.

Lemma bounded_differences :
  2 * B < 2 ^ 31 ->
  sumZ (fun p => c_int (p.1 - p.2)) L = sumZ (fun p => p.1 - p.2) L /\
  (fun p : Z * Z => d_of_Z (c_int (p.1 - p.2))) <$> L =
    (fun p => d_of_Z (p.1 - p.2)) <$> L /\
  (fun p : Z * Z => d_of_Z (c_long (c_int (p.1 - p.2) * c_int (p.1 - p.2)))) <$> L =
    (fun p => d_of_Z ((p.1 - p.2) ^ 2)) <$> L.
Proof.
  intros HBB. split; [|split].
  - apply sumZ_ext. intros p Hp. destruct (HB p Hp). apply c_int_id. lia.
  - apply list_fmap_ext. intros k p Hk. apply list_elem_of_lookup_2 in Hk.
    destruct (HB p Hk). by rewrite c_int_id by lia.
  - apply list_fmap_ext. intros k p Hk. apply list_elem_of_lookup_2 in Hk.
    destruct (HB p Hk). rewrite c_int_id by lia. rewrite c_long_id by nia.
    f_equal. lia.
Qed.

Lemma bound_products :
  let n := Z.of_nat (length L) in
  - (n * (B * B)) <= sumZ (fun p => p.1 * p.2) L <= n * (B * B) /\
  0 <= sumZ (fun p => p.1 ^ 2) L <= n * (B * B) /\
  0 <= sumZ (fun p => p.2 ^ 2) L <= n * (B * B).
Proof.
  intros n. split; [|split].
  - apply sumZ_bound. intros p Hp. destruct (HB p Hp). nia.
  - pose proof (sumZ_bound (fun p => p.1 ^ 2) (B * B) L) as H.
    assert (0 <= sumZ (fun p => p.1 ^ 2) L).
    { clear. induction L as [|p L' IH]; simpl; [done|]. nia. }
    split; [done|]. apply H. intros p Hp. destruct (HB p Hp). nia.
  - pose proof (sumZ_bound (fun p => p.2 ^ 2) (B * B) L) as H.
    assert (0 <= sumZ (fun p => p.2 ^ 2) L).
    { clear. induction L as [|p L' IH]; simpl; [done|]. nia. }
    split; [done|]. apply H. intros p Hp. destruct (HB p Hp). nia.
Qed.

Lemma bound_sums :
  let n := Z.of_nat (length L) in
  - (n * B) <= sumZ (fun p => p.1) L <= n * B /\
  - (n * B) <= sumZ (fun p => p.2) L <= n * B /\
  - (n * (2 * B)) <= sumZ (fun p => p.1 - p.2) L <= n * (2 * B) /\
  0 <= sumZ (fun p => (p.1 - p.2) ^ 2) L <= n * (4 * (B * B)).
Proof.
  intros n. split; [|split; [|split]].
  - apply (sumZ_bound (fun p => p.1)). intros p Hp. destruct (HB p Hp). lia.
  - apply (sumZ_bound (fun p => p.2)). intros p Hp. destruct (HB p Hp). lia.
  - apply sumZ_bound. intros p Hp. destruct (HB p Hp). lia.
  - pose proof (sumZ_bound (fun p => (p.1 - p.2) ^ 2) (4 * (B * B)) L) as H.
    assert (0 <= sumZ (fun p => (p.1 - p.2) ^ 2) L).
    { clear. induction L as [|p L' IH]; simpl; [done|]. nia. }
    split; [done|]. apply H. intros p Hp. destruct (HB p Hp). nia.
Qed.

Lemma bound_nonneg : L = [] \/ 0 <= B.
Proof.
  pose proof HB as H. revert H. generalize L. intros l H.
  destruct l as [|p l']; [by left|right]. destruct (H p); [left|lia].
Qed.

End Bounded.

Lemma example_wf : wf_input 3 example_yr.
Proof. apply (bool_decide_unpack _). vm_compute. exact I. Qed.

(** ** The formula of [cosine] *)

(** [prods] does not hold the sum of the products on every well-formed
    input: the product of the ratings 50000 and 50000 is computed on two
    [int] and wraps. *)
Lemma cosine_formula_counterexample :
  wf_input 2 large_product_yr /\
  sumZ (fun p => p.1 * p.2) (corated large_product_yr 0 1) = 2500000000 /\
  exists st sim,
    cosine_accumulate 2 large_product_yr = Ok st /\
    cosine 2 large_product_yr = Ok sim /\
    mget (cos_prods st) 0 1 = Ok (-1794967296) /\
    mget (cos_prods st) 0 1 <> Ok 2500000000 /\
    mget sim 0 1 <>
      Ok (ddiv (d_of_Z 2500000000)
            (dsqrt (d_of_Z (2500000000 * 2500000000)))).
Proof.
  split; [apply (bool_decide_unpack _); vm_compute; exact I|].
  split; [reflexivity|].
  eexists. eexists. split; [vm_compute; reflexivity|].
  split; [vm_compute; reflexivity|].
  split; [vm_compute; reflexivity|].
  split; vm_compute; discriminate.
Qed.

(** C5 (amended). On well-formed input with ratings of absolute value at
    most [B], [B * B < 2 ^ 31], and a number of ys such that neither the
    counts nor the sums of squares exceed [M], [M * M < 2 ^ 63], [cosine]
    returns a matrix whose cell [(i, j)], [i < j], is the quotient in
    doubles [prods / sqrt (sqi * sqj)] when the pair has co-ratings and [0]
    when it has none, where [freq], [prods], [sqi] and [sqj] hold the
    count of the co-ratings and the sums of [r_i * r_j], [r_i ^ 2] and
    [r_j ^ 2] over them; every diagonal cell is [1]. *)
Theorem cosine_formula n_x yr B M :
  wf_input n_x yr -> n_x < 2 ^ 30 -> rating_bound B yr -> B * B < 2 ^ 31 ->
  Z.of_nat (length yr) <= M -> Z.of_nat (length yr) * (B * B) <= M ->
  M * M < 2 ^ 63 ->
  exists st sim, cosine_accumulate n_x yr = Ok st /\ cosine n_x yr = Ok sim /\
    (forall i j, 0 <= i < j -> j < n_x ->
       let L := corated yr i j in
       let freq := Z.of_nat (length L) in
       let prods := sumZ (fun p => p.1 * p.2) L in
       let sqi := sumZ (fun p => p.1 ^ 2) L in
       let sqj := sumZ (fun p => p.2 ^ 2) L in
       mget (cos_freq st) i j = Ok freq /\
       mget (cos_prods st) i j = Ok prods /\
       mget (cos_sqi st) i j = Ok sqi /\
       mget (cos_sqj st) i j = Ok sqj /\
       (freq > 0 ->
          mget sim i j = Ok (ddiv (d_of_Z prods) (dsqrt (d_of_Z (sqi * sqj))))) /\
       (freq = 0 -> mget sim i j = Ok (d_of_Z 0)) /\
       mget sim j i = mget sim i j) /\
    (forall i, 0 <= i < n_x -> mget sim i i = Ok (d_of_Z 1)).
Proof.
  intros Hwf Hn HB HBB HN HNB HM.
  assert (in_range n_x yr) as Hr.
  { apply (rating_bound_range B); [done|done|]. nia. }
  destruct (cosine_result n_x yr Hwf Hr)
    as (st & sim & Hacc & Hrun & _ & _ & Hc & Hd & Hs).
  exists st, sim. split; [done|]. split; [done|]. split; [|exact Hd].
  intros i j Hi Hj L freq prods sqi sqj.
  destruct (Hc i j) as (Cf & Cp & Ci & Cj); [lia..|].
  destruct (Hs i j Hi Hj) as [Sij Sji]. fold L in Cf, Cp, Ci, Cj, Sij, Sji.
  assert (forall p, p ∈ L -> (- B <= p.1 <= B) /\ (- B <= p.2 <= B)) as HL
    by (intros p Hp; by apply (corated_bound B yr i j)).
  destruct (bounded_products L B HL HBB) as (Ep & Ei & Ej).
  destruct (bound_products L B HL) as (Bp & Bi & Bj).
  pose proof (corated_length yr i j) as Hlen. fold L in Hlen. fold freq in Hlen.
  fold prods in Ep, Bp. fold sqi in Ei, Bi. fold sqj in Ej, Bj.
  cbv zeta in Bp, Bi, Bj. fold freq in Bp, Bi, Bj.
  assert (0 <= freq) by (unfold freq; lia).
  assert (0 <= B * B) by nia.
  assert (freq * (B * B) <= M) by nia.
  assert (M < 2 ^ 32) by nia.
  assert (c_long freq = freq) as Ef by (apply c_long_id; lia).
  assert (c_long prods = prods) as Ep' by (apply c_long_id; lia).
  assert (c_long sqi = sqi) as Ei' by (apply c_long_id; lia).
  assert (c_long sqj = sqj) as Ej' by (apply c_long_id; lia).
  assert (c_long (sqi * sqj) = sqi * sqj) as Eij by (apply c_long_id; nia).
  assert (cosine_sim L =
          if freq =? 0 then d_of_Z 0
          else ddiv (d_of_Z prods) (dsqrt (d_of_Z (sqi * sqj)))) as Esim.
  { unfold cosine_sim. fold freq. rewrite Ef, Ep, Ei, Ej.
    fold prods sqi sqj. by rewrite Ep', Ei', Ej', Eij. }
  rewrite Ep, Ep' in Cp. rewrite Ei, Ei' in Ci. rewrite Ej, Ej' in Cj.
  fold freq in Cf. rewrite Ef in Cf. rewrite Esim in Sij, Sji.
  split; [done|]. split; [done|]. split; [done|]. split; [done|].
  split; [|split].
  - intros Hpos. rewrite Sij. destruct (Z.eqb_spec freq 0); [lia|done].
  - intros Hz. rewrite Sij. by rewrite Hz.
  - by rewrite Sij, Sji.
Qed.

Lemma cosine_formula_witness :
  exists st sim, cosine_accumulate 3 example_yr = Ok st /\
    cosine 3 example_yr = Ok sim /\
    mget (cos_prods st) 0 1 = Ok 41 /\ mget sim 0 1 = Ok (d_of_Z 1).
Proof.
  destruct (cosine_formula 3 example_yr 5 50 example_wf)
    as (st & sim & Hacc & Hrun & Hc & _).
  - lia.
  - apply (bool_decide_unpack _). vm_compute. exact I.
  - lia.
  - simpl. lia.
  - simpl. lia.
  - lia.
  - exists st, sim. split; [exact Hacc|]. split; [exact Hrun|].
    destruct (Hc 0 1) as (_ & Cp & _ & _ & Hs & _); [lia|lia|].
    split; [exact Cp|]. rewrite Hs by (simpl; lia). reflexivity.
Defined.

(** ** Doubles that are numbers *)

Lemma d_eq0_of_Z z : d_eq0 (d_of_Z z) = (z =? 0).
Proof.
  destruct (Z.lt_trichotomy z 0) as [H|[->|H]]; [|reflexivity|].
  - rewrite (d_eq0_rounded_pos _ _ _ (d_of_Z_neg z H)).
    symmetry. apply Z.eqb_neq. lia.
  - rewrite (d_eq0_rounded_pos _ _ _ (d_of_Z_pos z H)).
    symmetry. apply Z.eqb_neq. lia.
Qed.

Lemma rounded_number s e x : rounded s e x -> is_number x.
Proof. intros [|m' e' _|]; constructor. Qed.

Lemma d_of_Z_number z : is_number (d_of_Z z).
Proof. apply is_number_not_nan, d_of_Z_not_nan. Qed.

Lemma ddiv_number x s m e : is_number x -> is_number (ddiv x (S754_finite s m e)).
Proof.
  intros [sx|sx mx ex|sx]; unfold ddiv, SFdiv; try constructor.
  unfold SFdiv_core_binary.
  set (e' := Z.min _ _). set (sh := ex - e - e').
  set (m' := match sh with Z.pos _ => Z.shiftl (Z.pos mx) sh | 0 => Z.pos mx
             | Z.neg _ => 0 end).
  assert (0 <= m') as Hm'.
  { unfold m'. destruct sh as [|p|p] eqn:Es; [lia| |lia].
    apply Z.shiftl_nonneg. lia. }
  pose proof (Z.div_pos m' (Z.pos m) Hm' (Pos2Z.is_pos m)) as Hq.
  unfold Z.div in Hq. destruct (Z.div_eucl m' (Z.pos m)) as [q r].
  apply (rounded_number (xorb sx s) e'). by apply binary_round_aux_rounded.
Qed.

Lemma dneg_involutive x : dneg (dneg x) = x.
Proof. destruct x as [s|s| |s m e]; simpl; by rewrite ?negb_involutive. Qed.

Lemma dneg_number x : is_number x -> is_number (dneg x).
Proof. intros []; constructor. Qed.

Lemma d_eq_number x : is_number x -> d_eq x x = true.
Proof. intros H. apply d_eq_refl. by apply is_number_not_nan. Qed.

(** The quotient of two integers below [2 ^ 53] in absolute value, the
    divisor positive, is a number. *)
Lemma ddiv_of_Z_number a n :
  0 < n < 2 ^ 53 -> is_number (ddiv (d_of_Z a) (d_of_Z n)).
Proof.
  intros Hn. destruct (d_of_Z_small n) as (m & -> & _); [lia|lia|].
  apply ddiv_number, d_of_Z_number.
Qed.

(** ** The formula of [msd] *)

(** [sq_diff] does not hold the sum of the squared differences on every
    well-formed input: the difference of the ratings 2000000000 and
    -2000000000 is computed on two [int] and wraps. *)
Lemma msd_formula_counterexample :
  wf_input 2 large_difference_yr /\
  sumZ (fun p => (p.1 - p.2) ^ 2) (corated large_difference_yr 0 1)
    = 16000000000000000000 /\
  exists st sim,
    msd_accumulate 2 large_difference_yr = Ok st /\
    msd 2 large_difference_yr = Ok sim /\
    mget (msd_sq_diff st) 0 1 = Ok (d_of_Z 87005705709551616) /\
    mget (msd_sq_diff st) 0 1 <> Ok (d_of_Z 16000000000000000000) /\
    mget sim 0 1 <> Ok (ddiv (d_of_Z 2) (d_of_Z 16000000000000000000)).
Proof.
  split; [apply (bool_decide_unpack _); vm_compute; exact I|].
  split; [reflexivity|].
  eexists. eexists. split; [vm_compute; reflexivity|].
  split; [vm_compute; reflexivity|].
  split; [vm_compute; reflexivity|].
  split; vm_compute; discriminate.
Qed.

(** C2 (amended). On well-formed input with ratings of absolute value at
    most [B], [2 * B < 2 ^ 31], and a number [N] of ys with [N < 2 ^ 53]
    and [N * 4 * B * B < 2 ^ 53], [msd] returns a matrix whose cell
    [(i, j)], [i < j], is [freq] when [sq_diff] is zero and the quotient in
    doubles [freq / sq_diff] otherwise, where [freq] is the count of the
    co-ratings and [sq_diff] the sum, exact in doubles, of [(r_i - r_j) ^ 2]
    over them; the cell [(j, i)] holds the same double, and every diagonal
    cell is [100]. *)
Theorem msd_formula n_x yr B :
  wf_input n_x yr -> n_x < 2 ^ 30 -> rating_bound B yr -> 2 * B < 2 ^ 31 ->
  Z.of_nat (length yr) < 2 ^ 53 ->
  Z.of_nat (length yr) * (4 * (B * B)) < 2 ^ 53 ->
  exists st sim, msd_accumulate n_x yr = Ok st /\ msd n_x yr = Ok sim /\
    (forall i j, 0 <= i < j -> j < n_x ->
       let L := corated yr i j in
       let freq := Z.of_nat (length L) in
       let sq_diff := sumZ (fun p => (p.1 - p.2) ^ 2) L in
       mget (msd_sq_diff st) i j = Ok (d_of_Z sq_diff) /\
       mget (msd_freq st) i j = Ok freq /\
       (sq_diff = 0 -> mget sim i j = Ok (d_of_Z freq)) /\
       (sq_diff <> 0 ->
          mget sim i j = Ok (ddiv (d_of_Z freq) (d_of_Z sq_diff))) /\
       mget sim j i = mget sim i j) /\
    (forall i, 0 <= i < n_x -> mget sim i i = Ok (d_of_Z 100)).
Proof.
  intros Hwf Hn HB HBB HN HNB.
  assert (in_range n_x yr) as Hr by (apply (rating_bound_range B); [done|done|lia]).
  destruct (msd_result n_x yr Hwf Hr)
    as (st & sim & Hacc & Hrun & _ & _ & Hc & Hd & Hs).
  exists st, sim. split; [done|]. split; [done|]. split; [|exact Hd].
  intros i j Hi Hj L freq sq_diff.
  destruct (Hc i j) as (Cs & Cf); [lia..|].
  destruct (Hs i j Hi Hj) as [Sij Sji]. fold L in Cs, Cf, Sij, Sji.
  fold freq in Cf.
  assert (forall p, p ∈ L -> (- B <= p.1 <= B) /\ (- B <= p.2 <= B)) as HL
    by (intros p Hp; by apply (corated_bound B yr i j)).
  destruct (bounded_differences L B HL HBB) as (_ & _ & Esq).
  destruct (bound_sums L B HL) as (_ & _ & _ & Bsq).
  pose proof (corated_length yr i j) as Hlen. fold L in Hlen. fold freq in Hlen.
  assert (0 <= freq) by (unfold freq; lia).
  assert (c_long freq = freq) as Ef by (apply c_long_id; lia).
  assert (msd_sq_diff_of L = d_of_Z sq_diff) as Es.
  { unfold msd_sq_diff_of. rewrite Esq.
    apply (d_sum_exact (fun p => (p.1 - p.2) ^ 2) (4 * (B * B))).
    - intros p Hp. destruct (HL p Hp). nia.
    - fold freq. nia. }
  assert (msd_sim L = if sq_diff =? 0 then d_of_Z freq
                      else ddiv (d_of_Z freq) (d_of_Z sq_diff)) as Esim.
  { unfold msd_sim. fold freq. by rewrite Es, Ef, d_eq0_of_Z. }
  rewrite Es in Cs. rewrite Ef in Cf. rewrite Esim in Sij, Sji.
  split; [done|]. split; [done|]. split; [|split].
  - intros Hz. by rewrite Sij, Hz.
  - intros Hz. rewrite Sij. by destruct (Z.eqb_spec sq_diff 0).
  - by rewrite Sij, Sji.
Qed.

Lemma msd_formula_witness :
  exists st sim, msd_accumulate 3 example_yr = Ok st /\
    msd 3 example_yr = Ok sim /\
    mget (msd_sq_diff st) 0 2 = Ok (d_of_Z 9) /\
    mget sim 0 1 = Ok (d_of_Z 2) /\
    mget sim 0 2 = Ok (ddiv (d_of_Z 1) (d_of_Z 9)).
Proof.
  destruct (msd_formula 3 example_yr 5 example_wf)
    as (st & sim & Hacc & Hrun & Hc & _).
  - lia.
  - apply (bool_decide_unpack _). vm_compute. exact I.
  - lia.
  - simpl. lia.
  - simpl. lia.
  - exists st, sim. split; [exact Hacc|]. split; [exact Hrun|].
    destruct (Hc 0 1) as (_ & _ & Hz & _); [lia|lia|].
    destruct (Hc 0 2) as (Cs & _ & _ & Hnz & _); [lia|lia|].
    split; [exact Cs|]. split; [by apply Hz|]. by apply Hnz.
Defined.

(** ** The formula of [compute_mean_diff] *)

(** [mean_diff] does not hold the mean of the differences on every
    well-formed input: the difference of the ratings 2000000000 and
    -2000000000 wraps, and the mean over the two ys is -147483648 rather
    than 2000000000. *)
Lemma mean_diff_formula_counterexample :
  wf_input 2 large_difference_yr /\
  sumZ (fun p => p.1 - p.2) (corated large_difference_yr 0 1) = 4000000000 /\
  Z.of_nat (length (corated large_difference_yr 0 1)) = 2 /\
  exists md,
    compute_mean_diff 2 large_difference_yr = Ok md /\
    mget md 0 1 = Ok (d_of_Z (-147483648)) /\
    mget md 0 1 <> Ok (ddiv (d_of_Z 4000000000) (d_of_Z 2)).
Proof.
  split; [apply (bool_decide_unpack _); vm_compute; exact I|].
  split; [reflexivity|]. split; [reflexivity|].
  eexists. split; [vm_compute; reflexivity|].
  split; [vm_compute; reflexivity|].
  vm_compute; discriminate.
Qed.

(** C3 (amended). On well-formed input with ratings of absolute value at
    most [B], [2 * B < 2 ^ 31], and a number [N] of ys with [N < 2 ^ 53]
    and [N * 2 * B < 2 ^ 53], [compute_mean_diff] returns a matrix whose
    cell [(i, j)], [i < j], is the quotient in doubles of the sum of
    [r_i - r_j] over the co-ratings by their count [freq] when [freq > 0],
    and [0] when [freq = 0]; the cell [(j, i)] is its negation; for all
    valid [i] and [j] the cell [(i, j)] [==] the negation of the cell
    [(j, i)], and the diagonal is [0]. *)
Theorem mean_diff_formula n_x yr B :
  wf_input n_x yr -> n_x < 2 ^ 30 -> rating_bound B yr -> 2 * B < 2 ^ 31 ->
  Z.of_nat (length yr) < 2 ^ 53 ->
  Z.of_nat (length yr) * (2 * B) < 2 ^ 53 ->
  exists st md, mean_diff_accumulate n_x yr = Ok st /\
    compute_mean_diff n_x yr = Ok md /\
    (forall i j, 0 <= i < j -> j < n_x ->
       let L := corated yr i j in
       let freq := Z.of_nat (length L) in
       let diff := sumZ (fun p => p.1 - p.2) L in
       mget (md_diff st) i j = Ok (d_of_Z diff) /\
       mget (md_freq st) i j = Ok freq /\
       (freq > 0 ->
          mget md i j = Ok (ddiv (d_of_Z diff) (d_of_Z freq)) /\
          mget md j i = Ok (dneg (ddiv (d_of_Z diff) (d_of_Z freq)))) /\
       (freq = 0 -> mget md i j = Ok d_zero /\ mget md j i = Ok d_zero)) /\
    (forall i j, 0 <= i < n_x -> 0 <= j < n_x ->
       exists v w, mget md i j = Ok v /\ mget md j i = Ok w /\
         d_eq v (dneg w) = true) /\
    (forall i, 0 <= i < n_x -> mget md i i = Ok d_zero).
Proof.
  intros Hwf Hn HB HBB HN HNB.
  assert (in_range n_x yr) as Hr by (apply (rating_bound_range B); [done|done|lia]).
  destruct (compute_mean_diff_result n_x yr Hwf Hr)
    as (st & md & Hacc & Hrun & _ & _ & Hc & Hd & Hs).
  exists st, md. split; [done|]. split; [done|].
  assert (forall i j, 0 <= i < n_x -> 0 <= j < n_x ->
            let L := corated yr i j in
            let freq := Z.of_nat (length L) in
            0 <= freq < 2 ^ 53 /\ c_long freq = freq /\
            diff_of L = d_of_Z (sumZ (fun p => p.1 - p.2) L)) as Hfacts.
  { intros i j Hi Hj L freq.
    assert (forall p, p ∈ L -> (- B <= p.1 <= B) /\ (- B <= p.2 <= B)) as HL
      by (intros p Hp; by apply (corated_bound B yr i j)).
    destruct (bounded_differences L B HL HBB) as (_ & Ed & _).
    pose proof (corated_length yr i j) as Hlen. fold L in Hlen. fold freq in Hlen.
    assert (0 <= freq) by (unfold freq; lia).
    split; [lia|]. split; [apply c_long_id; lia|].
    unfold diff_of. rewrite Ed.
    apply (d_sum_exact (fun p => p.1 - p.2) (2 * B)).
    - intros p Hp. destruct (HL p Hp). lia.
    - fold freq. destruct (bound_nonneg L B HL) as [E|E]; [|nia].
      unfold freq. rewrite E. simpl. lia. }
  assert (forall i j, 0 <= i < j -> j < n_x ->
            let L := corated yr i j in
            let freq := Z.of_nat (length L) in
            let diff := sumZ (fun p => p.1 - p.2) L in
            (freq > 0 ->
               mget md i j = Ok (ddiv (d_of_Z diff) (d_of_Z freq)) /\
               mget md j i = Ok (dneg (ddiv (d_of_Z diff) (d_of_Z freq)))) /\
            (freq = 0 -> mget md i j = Ok d_zero /\ mget md j i = Ok d_zero))
    as Hcells.
  { intros i j Hi Hj L freq diff.
    destruct (Hfacts i j) as (Hf & Ef & Ed); [lia..|].
    destruct (Hs i j Hi Hj) as [Sij Sji].
    fold L in Hf, Ef, Ed, Sij, Sji. fold freq in Hf, Ef. fold diff in Ed.
    unfold mean_diff_of in Sij. unfold mean_diff_mirror in Sji.
    fold freq in Sij, Sji. rewrite Ef, Ed in Sij, Sji. split.
    - intros Hpos. destruct (Z.eqb_spec freq 0); [lia|]. by split.
    - intros Hz. rewrite Hz in Sij, Sji. by split. }
  split; [|split; [|exact Hd]].
  - intros i j Hi Hj L freq diff.
    destruct (Hfacts i j) as (Hf & Ef & Ed); [lia..|].
    destruct (Hc i j) as (Cd & Cf); [lia..|].
    fold L in Hf, Ef, Ed, Cd, Cf. fold freq in Hf, Ef, Cf. fold diff in Ed.
    rewrite Ed in Cd. rewrite Ef in Cf.
    split; [done|]. split; [done|]. apply (Hcells i j Hi Hj).
  - assert (forall i j, 0 <= i < j -> j < n_x ->
              exists v w, mget md i j = Ok v /\ mget md j i = Ok w /\
                d_eq v (dneg w) = true /\ d_eq w (dneg v) = true) as Hlt.
    { intros i j Hi Hj. destruct (Hcells i j Hi Hj) as [Hp Hz].
      destruct (Hfacts i j) as (Hf & _); [lia..|].
      destruct (Z.eq_dec (Z.of_nat (length (corated yr i j))) 0) as [E|E].
      - destruct (Hz E) as [-> ->]. by exists d_zero, d_zero.
      - destruct Hp as [-> ->]; [lia|]. eexists. eexists.
        split; [done|]. split; [done|].
        rewrite dneg_involutive.
        assert (is_number (ddiv
                  (d_of_Z (sumZ (fun p => p.1 - p.2) (corated yr i j)))
                  (d_of_Z (Z.of_nat (length (corated yr i j)))))) as Hnum
          by (apply ddiv_of_Z_number; lia).
        split; [by apply d_eq_number|]. by apply d_eq_number, dneg_number. }
    intros i j Hi Hj. destruct (Z.lt_trichotomy i j) as [H|[->|H]].
    + destruct (Hlt i j) as (v & w & Hv & Hw & E & _); [lia..|]. by exists v, w.
    + exists d_zero, d_zero. by rewrite Hd.
    + destruct (Hlt j i) as (v & w & Hv & Hw & _ & E); [lia..|]. by exists w, v.
Qed.

Lemma mean_diff_formula_witness :
  exists st md, mean_diff_accumulate 3 example_yr = Ok st /\
    compute_mean_diff 3 example_yr = Ok md /\
    mget (md_diff st) 0 2 = Ok (d_of_Z 3) /\
    mget md 0 2 = Ok (d_of_Z 3) /\ mget md 2 0 = Ok (d_of_Z (-3)) /\
    mget md 0 1 = Ok (ddiv (d_of_Z 0) (d_of_Z 2)).
Proof.
  destruct (mean_diff_formula 3 example_yr 5 example_wf)
    as (st & md & Hacc & Hrun & Hc & _).
  - lia.
  - apply (bool_decide_unpack _). vm_compute. exact I.
  - lia.
  - simpl. lia.
  - simpl. lia.
  - exists st, md. split; [exact Hacc|]. split; [exact Hrun|].
    destruct (Hc 0 2) as (Cd & _ & Hp & _); [lia|lia|].
    destruct (Hc 0 1) as (_ & _ & Hp' & _); [lia|lia|].
    destruct Hp as [E1 E2]; [simpl; lia|].
    destruct Hp' as [E3 _]; [simpl; lia|].
    split; [exact Cd|]. split; [exact E1|]. split; [exact E2|exact E3].
Defined.

(** ** Sums of squares *)

Lemma sumZ_sq_nonneg (f : Z * Z -> Z) L : 0 <= sumZ (fun p => f p ^ 2) L.
Proof. induction L as [|p L IH]; simpl; [done|]. nia. Qed.


Lemma sumZ_shift_sq (f : Z * Z -> Z) x L :
  sumZ (fun p => (f p - x) ^ 2) L =
  sumZ (fun p => f p ^ 2) L - 2 * x * sumZ f L + Z.of_nat (length L) * x ^ 2.
Proof.
  induction L as [|p L IH]; [simpl; lia|].
  rewrite !sumZ_cons, IH. simpl length. lia.
Qed.

Lemma variance_nonneg (f : Z * Z -> Z) L :
  0 <= Z.of_nat (length L) * sumZ (fun p => f p ^ 2) L - sumZ f L ^ 2.
Proof.
  induction L as [|p L IH]; [simpl; lia|].
  rewrite !sumZ_cons. simpl length.
  pose proof (sumZ_sq_nonneg (fun q => f q - f p) L) as Hsq. simpl in Hsq.
  rewrite sumZ_shift_sq in Hsq. nia.
Qed.



Lemma sumZ_sq_pos (g : Z * Z -> Z) L :
  L <> [] -> (forall p, p ∈ L -> g p <> 0) -> 0 < sumZ (fun p => g p ^ 2) L.
Proof.
  intros Hne Hg. destruct L as [|p L]; [done|].
  rewrite sumZ_cons. pose proof (sumZ_sq_nonneg g L).
  pose proof (Hg p (list_elem_of_here _ _)). nia.
Qed.

(** ** The formula of [msdClone] *)

Lemma mean_diff_of_bounded (L : list (Z * Z)) B N :
  (forall p, p ∈ L -> (- B <= p.1 <= B) /\ (- B <= p.2 <= B)) ->
  2 * B < 2 ^ 31 -> Z.of_nat (length L) <= N -> N < 2 ^ 53 ->
  N * (2 * B) < 2 ^ 53 ->
  let freq := Z.of_nat (length L) in
  let diff := sumZ (fun p => p.1 - p.2) L in
  mean_diff_of L =
    if freq =? 0 then d_zero else ddiv (d_of_Z diff) (d_of_Z freq).
Proof.
  intros HL HBB Hlen HN HNB freq diff. fold freq in Hlen.
  destruct (bounded_differences L B HL HBB) as (_ & Ed & _).
  assert (0 <= freq) by (unfold freq; lia).
  unfold mean_diff_of, diff_of. fold freq. rewrite c_long_id, Ed by lia.
  rewrite (d_sum_exact (fun p => p.1 - p.2) (2 * B)).
  - fold diff. by destruct (freq =? 0).
  - intros p Hp. destruct (HL p Hp). lia.
  - fold freq. destruct (bound_nonneg L B HL) as [E|E]; [|nia].
    unfold freq. rewrite E. simpl. lia.
Qed.

(** [msdClone] does not adjust every difference by the mean difference of
    the pair on every well-formed input: the differences wrap on 32 bits,
    in the mean as in the squares. *)
Lemma msdClone_formula_counterexample :
  wf_input 2 large_difference_yr /\
  corated large_difference_yr 0 1 = [(2000000000, -2000000000); (0, 0)] /\
  exists md st sim,
    compute_mean_diff 2 large_difference_yr = Ok md /\
    msdClone_accumulate 2 large_difference_yr = Ok st /\
    msdClone 2 large_difference_yr = Ok sim /\
    mget md 0 1 = Ok (d_of_Z (-147483648)) /\
    mget md 0 1 <> Ok (d_of_Z 2000000000) /\
    mget (mc_sq_diff st) 0 1 <> Ok (d_of_Z 8000000000000000000) /\
    mget sim 0 1 <> Ok (ddiv (d_of_Z 2) (d_of_Z 8000000000000000000)).
Proof.
  split; [apply (bool_decide_unpack _); vm_compute; exact I|].
  split; [reflexivity|].
  eexists. eexists. eexists. split; [vm_compute; reflexivity|].
  split; [vm_compute; reflexivity|]. split; [vm_compute; reflexivity|].
  split; [vm_compute; reflexivity|].
  split; [|split]; vm_compute; discriminate.
Qed.

(** C1 (amended). On well-formed input with ratings of absolute value at
    most [B], [2 * B < 2 ^ 31], and a number [N] of ys with [N < 2 ^ 53]
    and [N * 2 * B < 2 ^ 53], [msdClone] first computes the matrix of
    [compute_mean_diff]; for [i < j] with mean difference [m], which is
    the quotient in doubles of the sum of [r_i - r_j] by [freq] ([0] when
    [freq = 0]), [sq_diff] is the sum in doubles, added in the order of the
    ys, of the rounded squares of [r_i - r_j - m], and the cell [(i, j)] is
    [freq] if [sq_diff == 0] and the quotient in doubles [freq / sq_diff]
    otherwise; the cell [(j, i)] holds the same double and every diagonal
    cell is [100]. *)
Theorem msdClone_formula n_x yr B :
  wf_input n_x yr -> n_x < 2 ^ 30 -> rating_bound B yr -> 2 * B < 2 ^ 31 ->
  Z.of_nat (length yr) < 2 ^ 53 ->
  Z.of_nat (length yr) * (2 * B) < 2 ^ 53 ->
  exists md st sim, compute_mean_diff n_x yr = Ok md /\
    msdClone_accumulate n_x yr = Ok st /\ msdClone n_x yr = Ok sim /\
    mc_mean_diff st = md /\
    (forall i j, 0 <= i < j -> j < n_x ->
       let L := corated yr i j in
       let freq := Z.of_nat (length L) in
       let diff := sumZ (fun p => p.1 - p.2) L in
       let m := if freq =? 0 then d_zero
                else ddiv (d_of_Z diff) (d_of_Z freq) in
       let sq_diff :=
         d_sum ((fun p => dsquare (dsub (d_of_Z (p.1 - p.2)) m)) <$> L) in
       mget md i j = Ok m /\
       mget (mc_sq_diff st) i j = Ok sq_diff /\
       mget (mc_freq st) i j = Ok freq /\
       (d_eq0 sq_diff = true -> mget sim i j = Ok (d_of_Z freq)) /\
       (d_eq0 sq_diff = false ->
          mget sim i j = Ok (ddiv (d_of_Z freq) sq_diff)) /\
       mget sim j i = mget sim i j) /\
    (forall i, 0 <= i < n_x -> mget sim i i = Ok (d_of_Z 100)).
Proof.
  intros Hwf Hn HB HBB HN HNB.
  assert (in_range n_x yr) as Hr by (apply (rating_bound_range B); [done|done|lia]).
  destruct (msdClone_result n_x yr Hwf Hr)
    as (md & st & sim & Hmd & Hacc & Hrun & Est & _ & Hc & Hd & Hs).
  exists md, st, sim. split; [done|]. split; [done|]. split; [done|].
  split; [done|]. split; [|exact Hd].
  intros i j Hi Hj L freq diff m sq_diff.
  destruct (Hc i j Hi Hj) as (Cm & Cs & Cf).
  destruct (Hs i j Hi Hj) as [Sij Sji]. fold L in Cm, Cs, Cf, Sij, Sji.
  fold freq in Cf.
  assert (forall p, p ∈ L -> (- B <= p.1 <= B) /\ (- B <= p.2 <= B)) as HL
    by (intros p Hp; by apply (corated_bound B yr i j)).
  pose proof (corated_length yr i j) as Hlen. fold L in Hlen.
  pose proof (mean_diff_of_bounded L B _ HL HBB Hlen HN HNB) as Em.
  cbv zeta in Em. fold freq diff m in Em. fold freq in Hlen.
  assert (0 <= freq) by (unfold freq; lia).
  assert (c_long freq = freq) as Ef by (apply c_long_id; lia).
  assert (msdClone_sq_diff_of m L = sq_diff) as Es.
  { unfold msdClone_sq_diff_of, sq_diff. f_equal.
    apply list_fmap_ext. intros k p Hk. apply list_elem_of_lookup_2 in Hk.
    destruct (HL p Hk). by rewrite c_int_id by lia. }
  assert (msdClone_sim L = if d_eq0 sq_diff then d_of_Z freq
                           else ddiv (d_of_Z freq) sq_diff) as Esim.
  { unfold msdClone_sim. fold freq. by rewrite Em, Es, Ef. }
  rewrite Em in Cm, Cs. rewrite Es in Cs. rewrite Ef in Cf.
  rewrite Esim in Sij, Sji.
  split; [done|]. split; [done|]. split; [done|]. split; [|split].
  - intros Hz. by rewrite Sij, Hz.
  - intros Hz. by rewrite Sij, Hz.
  - by rewrite Sij, Sji.
Qed.

Lemma msdClone_formula_witness :
  exists md st sim, compute_mean_diff 3 example_yr = Ok md /\
    msdClone_accumulate 3 example_yr = Ok st /\
    msdClone 3 example_yr = Ok sim /\
    mget md 0 2 = Ok (d_of_Z 3) /\
    mget (mc_sq_diff st) 0 2 = Ok d_zero /\
    mget sim 0 2 = Ok (d_of_Z 1) /\ mget sim 0 1 = Ok (d_of_Z 2).
Proof.
  destruct (msdClone_formula 3 example_yr 5 example_wf)
    as (md & st & sim & Hmd & Hacc & Hrun & _ & Hc & _).
  - lia.
  - apply (bool_decide_unpack _). vm_compute. exact I.
  - lia.
  - simpl. lia.
  - simpl. lia.
  - exists md, st, sim. split; [exact Hmd|]. split; [exact Hacc|].
    split; [exact Hrun|].
    destruct (Hc 0 2) as (Cm & Cs & _ & Hz & _); [lia|lia|].
    destruct (Hc 0 1) as (_ & _ & _ & Hz' & _); [lia|lia|].
    split; [exact Cm|]. split; [exact Cs|].
    split; [apply Hz; reflexivity|apply Hz'; reflexivity].
Defined.

(** ** The formula of [pearson] *)

Lemma np_sqrt_Ok z : 0 <= z < 2 ^ 64 -> np_sqrt z = Ok (dsqrt (d_of_Z z)).
Proof.
  intros Hz. unfold np_sqrt.
  destruct (Z.leb_spec (- 2 ^ 63) z); [|lia].
  by destruct (Z.ltb_spec z (2 ^ 64)); [|lia].
Qed.

Lemma d_eq0_sqrt z : 0 <= z < 2 ^ 64 -> d_eq0 (dsqrt (d_of_Z z)) = (z =? 0).
Proof.
  intros Hz. destruct (Z.eq_dec z 0) as [->|Hnz]; [reflexivity|].
  destruct (np_sqrt_nonzero z) as (d & Hd & Hd0); [lia|].
  rewrite np_sqrt_Ok in Hd by done. injection Hd as <-. rewrite Hd0.
  symmetry. by apply Z.eqb_neq.
Qed.

(** The cell of [pearson] on co-ratings within bounds: no accumulator and
    no product wraps, and the radicand fits 64 bits. *)
Lemma pearson_sim_bounded (L : list (Z * Z)) B K :
  (forall p, p ∈ L -> (- B <= p.1 <= B) /\ (- B <= p.2 <= B)) ->
  B * B < 2 ^ 31 ->
  Z.of_nat (length L) <= K ->
  Z.of_nat (length L) * Z.of_nat (length L) * (B * B) <= K ->
  K * K < 2 ^ 64 ->
  let n := Z.of_nat (length L) in
  let prods := sumZ (fun p => p.1 * p.2) L in
  let sqi := sumZ (fun p => p.1 ^ 2) L in
  let sqj := sumZ (fun p => p.2 ^ 2) L in
  let si := sumZ (fun p => p.1) L in
  let sj := sumZ (fun p => p.2) L in
  let num := n * prods - si * sj in
  let rad := (n * sqi - si ^ 2) * (n * sqj - sj ^ 2) in
  c_long n = n /\
  c_long (sumZ (fun p => c_int (p.1 * p.2)) L) = prods /\
  c_long (sumZ (fun p => c_long (p.1 * p.1)) L) = sqi /\
  c_long (sumZ (fun p => c_long (p.2 * p.2)) L) = sqj /\
  c_long si = si /\ c_long sj = sj /\
  pearson_num_of L = num /\ pearson_radicand_of L = rad /\
  0 <= rad <= K * K /\ - (2 * K) <= num <= 2 * K.
Proof.
  intros HL HBB HnK HK HKK n prods sqi sqj si sj num rad.
  fold n in HnK, HK.
  destruct (bounded_products L B HL HBB) as (Ep & Ei & Ej).
  destruct (bound_products L B HL) as (Bp & Bi & Bj).
  destruct (bound_sums L B HL) as (Bsi & Bsj & _ & _).
  cbv zeta in Bp, Bi, Bj, Bsi, Bsj.
  fold n prods sqi sqj si sj in Ep, Ei, Ej, Bp, Bi, Bj, Bsi, Bsj.
  assert (0 <= n) as Hn0 by (unfold n; lia).
  assert (0 <= n * sqi - si ^ 2) as V1 by apply (variance_nonneg fst L).
  assert (0 <= n * sqj - sj ^ 2) as V2 by apply (variance_nonneg snd L).
  assert (K < 2 ^ 32) as HK32 by (clear - HKK; nia).
  set (Q := B * B) in *.
  assert (0 <= Q) as HQ by (unfold Q; clear; nia).
  assert (n * Q <= n * n * Q) as HnQ'.
  { destruct (Z.eq_dec n 0) as [->|Hnz]; [lia|].
    clear - Hn0 Hnz HQ. nia. }
  assert (n * Q <= K) as HnQ by lia.
  assert (- (n * B) <= si <= n * B /\ - (n * B) <= sj <= n * B /\ 0 <= n * B)
    as (Bsi' & Bsj' & HnB).
  { destruct (bound_nonneg L B HL) as [E|E].
    - unfold si, sj, n. rewrite E. simpl. lia.
    - split; [done|]. split; [done|]. clear - Hn0 E. nia. }
  assert (n * B * (n * B) = n * n * Q) as HBQ by (unfold Q; ring).
  assert (si * si <= n * n * Q) as Hsi by (clear - Bsi' HnB HBQ; nia).
  assert (sj * sj <= n * n * Q) as Hsj by (clear - Bsj' HnB HBQ; nia).
  assert (- (n * n * Q) <= si * sj <= n * n * Q) as Hsij
    by (clear - Bsi' Bsj' HnB HBQ; nia).
  assert (n * B <= n * n * Q) as HnB'.
  { rewrite <- HBQ. destruct (Z.eq_dec (n * B) 0) as [->|Hnz]; [lia|].
    clear - HnB Hnz. nia. }
  assert (0 <= n * sqi <= n * n * Q) as Hnsi by (clear - Hn0 Bi; nia).
  assert (0 <= n * sqj <= n * n * Q) as Hnsj by (clear - Hn0 Bj; nia).
  assert (- (n * n * Q) <= n * prods <= n * n * Q) as Hnp
    by (clear - Hn0 Bp; nia).
  assert (c_long n = n) as En by (apply c_long_id; lia).
  assert (c_long prods = prods) as Ep' by (apply c_long_id; lia).
  assert (c_long sqi = sqi) as Ei' by (apply c_long_id; lia).
  assert (c_long sqj = sqj) as Ej' by (apply c_long_id; lia).
  assert (c_long si = si) as Esi by (apply c_long_id; lia).
  assert (c_long sj = sj) as Esj by (apply c_long_id; lia).
  assert (c_long (si * sj) = si * sj) as Esij by (apply c_long_id; lia).
  assert (c_long (si * si) = si * si) as Esii.
  { apply c_long_id. assert (0 <= si * si) by (clear; nia). lia. }
  assert (c_long (sj * sj) = sj * sj) as Esjj.
  { apply c_long_id. assert (0 <= sj * sj) by (clear; nia). lia. }
  rewrite Ep, Ei, Ej.
  split; [done|]. split; [done|]. split; [done|]. split; [done|].
  split; [done|]. split; [done|]. split; [|split; [|split]].
  - unfold pearson_num_of. fold n si sj. rewrite Ep. fold prods.
    by rewrite En, Ep', Esi, Esj, Esij.
  - unfold pearson_radicand_of. fold n si sj. rewrite Ei, Ej. fold sqi sqj.
    rewrite En, Ei', Ej', Esi, Esj, Esii, Esjj. unfold rad. lia.
  - unfold rad. rewrite !Z.pow_2_r in *.
    assert (0 <= si * si) by (clear; nia).
    assert (0 <= sj * sj) by (clear; nia).
    assert (n * sqi - si * si <= K) as H1 by lia.
    assert (n * sqj - sj * sj <= K) as H2 by lia.
    clear - V1 V2 H1 H2. nia.
  - unfold num. lia.
Qed.

Lemma pearson_sim_corated yr B K i j :
  rating_bound B yr -> B * B < 2 ^ 31 ->
  Z.of_nat (length yr) <= K ->
  Z.of_nat (length yr) * Z.of_nat (length yr) * (B * B) <= K ->
  K * K < 2 ^ 64 ->
  let L := corated yr i j in
  (forall p, p ∈ L -> (- B <= p.1 <= B) /\ (- B <= p.2 <= B)) /\
  Z.of_nat (length L) <= K /\
  Z.of_nat (length L) * Z.of_nat (length L) * (B * B) <= K /\
  exists v, pearson_sim L = Ok v.
Proof.
  intros HB HBB HN HNB HK L.
  assert (forall p, p ∈ L -> (- B <= p.1 <= B) /\ (- B <= p.2 <= B)) as HL
    by (intros p Hp; by apply (corated_bound B yr i j)).
  pose proof (corated_length yr i j) as Hlen. fold L in Hlen.
  set (n := Z.of_nat (length L)) in *. set (N := Z.of_nat (length yr)) in *.
  assert (0 <= n) as Hn0 by (unfold n; lia).
  assert (n * n * (B * B) <= K) as HnB.
  { assert (0 <= B * B) as HQ by (clear; nia).
    assert (n * n <= N * N) as Hnn by (clear - Hn0 Hlen; nia).
    clear - HQ Hnn HNB. nia. }
  split; [done|]. split; [lia|]. split; [done|].
  destruct (pearson_sim_bounded L B K HL HBB) as (_ & _ & _ & _ & _ & _ & _ & Er & Hr & _);
    [fold n; lia|done|done|].
  unfold pearson_sim. rewrite Er, np_sqrt_Ok by lia. by eexists.
Qed.

(** The cell of [pearson] does not follow the formula on every
    well-formed input: the product of the ratings 50000 and 50000 wraps
    in [prods], and the cell is not [1]. *)
Lemma pearson_formula_counterexample :
  wf_input 2 large_covariance_yr /\
  corated large_covariance_yr 0 1 = [(0, 0); (50000, 50000)] /\
  exists st sim,
    pearson_accumulate 2 large_covariance_yr = Ok st /\
    pearson 2 large_covariance_yr = Ok sim /\
    mget (pe_prods st) 0 1 = Ok (-1794967296) /\
    mget sim 0 1 = Ok (ddiv (d_of_Z (-6089934592)) (d_of_Z 2500000000)) /\
    mget sim 0 1 <>
      Ok (ddiv (d_of_Z (2 * 2500000000 - 50000 * 50000))
            (dsqrt (d_of_Z ((2 * 2500000000 - 50000 ^ 2) *
                            (2 * 2500000000 - 50000 ^ 2))))).
Proof.
  split; [apply (bool_decide_unpack _); vm_compute; exact I|].
  split; [reflexivity|].
  eexists. eexists. split; [vm_compute; reflexivity|].
  split; [vm_compute; reflexivity|].
  split; [vm_compute; reflexivity|].
  split; [vm_compute; reflexivity|].
  vm_compute; discriminate.
Qed.

(** C4 (amended). On well-formed input with ratings of absolute value at
    most [B], [B * B < 2 ^ 31], and a number [N] of ys with [N <= K] and
    [N * N * B * B <= K] for some [K] with [K * K < 2 ^ 64], [pearson]
    returns a matrix whose cell [(i, j)], [i < j], with [n = freq] is [0]
    when [denum], the square root in doubles of
    [(n * sqi - si ^ 2) * (n * sqj - sj ^ 2)], is zero, which it is exactly
    when that integer is zero, and otherwise the quotient in doubles
    [(n * prods - si * sj) / denum]; the accumulators hold the exact count
    and sums over the co-ratings; the cell [(j, i)] holds the same double
    and every diagonal cell is [1]. *)
Theorem pearson_formula n_x yr B K :
  wf_input n_x yr -> n_x < 2 ^ 30 -> rating_bound B yr -> B * B < 2 ^ 31 ->
  Z.of_nat (length yr) <= K ->
  Z.of_nat (length yr) * Z.of_nat (length yr) * (B * B) <= K ->
  K * K < 2 ^ 64 ->
  exists st sim, pearson_accumulate n_x yr = Ok st /\
    pearson n_x yr = Ok sim /\
    (forall i j, 0 <= i < j -> j < n_x ->
       let L := corated yr i j in
       let n := Z.of_nat (length L) in
       let prods := sumZ (fun p => p.1 * p.2) L in
       let sqi := sumZ (fun p => p.1 ^ 2) L in
       let sqj := sumZ (fun p => p.2 ^ 2) L in
       let si := sumZ (fun p => p.1) L in
       let sj := sumZ (fun p => p.2) L in
       let num := n * prods - si * sj in
       let radicand := (n * sqi - si ^ 2) * (n * sqj - sj ^ 2) in
       let denum := dsqrt (d_of_Z radicand) in
       mget (pe_freq st) i j = Ok n /\
       mget (pe_prods st) i j = Ok prods /\
       mget (pe_sqi st) i j = Ok sqi /\
       mget (pe_sqj st) i j = Ok sqj /\
       mget (pe_si st) i j = Ok si /\
       mget (pe_sj st) i j = Ok sj /\
       0 <= radicand /\
       d_eq0 denum = (radicand =? 0) /\
       (d_eq0 denum = true -> mget sim i j = Ok (d_of_Z 0)) /\
       (d_eq0 denum = false -> mget sim i j = Ok (ddiv (d_of_Z num) denum)) /\
       mget sim j i = mget sim i j) /\
    (forall i, 0 <= i < n_x -> mget sim i i = Ok (d_of_Z 1)).
Proof.
  intros Hwf Hn HB HBB HN HNB HK.
  assert (in_range n_x yr) as Hr.
  { apply (rating_bound_range B); [done|done|]. clear - HBB. nia. }
  destruct (pearson_result n_x yr Hwf Hr) as (st & Hacc & _ & Hc & Hres).
  destruct Hres as [(sim & Hrun & _ & Hd & Hs)|(_ & i & j & _ & _ & He)].
  2:{ destruct (pearson_sim_corated yr B K i j HB HBB HN HNB HK)
        as (_ & _ & _ & v & Hv).
      by rewrite Hv in He. }
  exists st, sim. split; [done|]. split; [done|]. split; [|exact Hd].
  intros i j Hi Hj L n prods sqi sqj si sj num radicand denum.
  destruct (pearson_sim_corated yr B K i j HB HBB HN HNB HK)
    as (HL & HnK & HnB & _). fold L in HL, HnK, HnB.
  destruct (pearson_sim_bounded L B K HL HBB HnK HnB HK)
    as (En & Ep & Ei & Ej & Esi & Esj & Enum & Erad & Hrad & _).
  fold n prods sqi sqj si sj in En, Ep, Ei, Ej, Esi, Esj, Enum, Erad, Hrad.
  fold num in Enum. fold radicand in Erad, Hrad.
  destruct (Hc i j) as (Cf & Cp & Ci & Cj & Csi & Csj); [lia..|].
  fold L in Cf, Cp, Ci, Cj, Csi, Csj. fold n in Cf. fold si in Csi. fold sj in Csj.
  rewrite En in Cf. rewrite Ep in Cp. rewrite Ei in Ci. rewrite Ej in Cj.
  rewrite Esi in Csi. rewrite Esj in Csj.
  destruct (Hs i j Hi Hj) as (v & Hv & Sij & Sji). fold L in Hv.
  unfold pearson_sim in Hv. rewrite Erad, Enum, np_sqrt_Ok in Hv by lia.
  fold denum in Hv. simpl in Hv. injection Hv as <-.
  split; [done|]. split; [done|]. split; [done|]. split; [done|].
  split; [done|]. split; [done|]. split; [lia|].
  split; [apply d_eq0_sqrt; lia|]. split; [|split].
  - intros Hz. by rewrite Sij, Hz.
  - intros Hz. by rewrite Sij, Hz.
  - by rewrite Sij, Sji.
Qed.

Lemma pearson_formula_witness :
  exists st sim, pearson_accumulate 3 example_yr = Ok st /\
    pearson 3 example_yr = Ok sim /\
    mget (pe_prods st) 0 1 = Ok 41 /\
    mget sim 0 1 = Ok (d_of_Z 1) /\ mget sim 0 2 = Ok (d_of_Z 0).
Proof.
  destruct (pearson_formula 3 example_yr 5 100 example_wf)
    as (st & sim & Hacc & Hrun & Hc & _).
  - lia.
  - apply (bool_decide_unpack _). vm_compute. exact I.
  - lia.
  - simpl. lia.
  - simpl. lia.
  - lia.
  - exists st, sim. split; [exact Hacc|]. split; [exact Hrun|].
    destruct (Hc 0 1) as (_ & Cp & _ & _ & _ & _ & _ & _ & _ & Hnz & _);
      [lia|lia|].
    destruct (Hc 0 2) as (_ & _ & _ & _ & _ & _ & _ & _ & Hz & _);
      [lia|lia|].
    split; [exact Cp|]. split; [apply Hnz; reflexivity|apply Hz; reflexivity].
Defined.

(** ** Errors and termination *)

Lemma valid_id_iff n_x x :
  0 <= n_x -> valid_id (Z.to_nat n_x) x <-> - n_x <= x < n_x.
Proof. intros Hn. unfold valid_id. rewrite Z2Nat.id by done. done. Qed.

Lemma ids_accepted n_x yr :
  0 <= n_x -> Forall (fun x => - n_x <= x < n_x) (ids_of yr) ->
  Forall (valid_id (Z.to_nat n_x)) (ids_of yr).
Proof.
  intros Hn Hids. eapply Forall_impl; [exact Hids|].
  intros x Hx. by apply valid_id_iff.
Qed.

Lemma first_error_fits n l e :
  Forall fits l -> first_error n l = Some e -> e = IndexError.
Proof.
  induction 1 as [|a l Ha _ IH]; [done|]. simpl. unfold visit_error.
  rewrite decide_True by done.
  destruct (decide (good n a)); [done|]. by intros [= <-].
Qed.

(** An id that the buffer access refuses stops the first loop. *)
Lemma invalid_id_error n_x yr :
  0 <= n_x -> Exists (fun x => x < - n_x \/ n_x <= x) (ids_of yr) ->
  exists e, first_error (Z.to_nat n_x) (all_pairs yr) = Some e /\
    (e = IndexError \/ e = OverflowError) /\
    (Forall int_range (ids_of yr) -> Forall int_range (ratings_of yr) ->
     e = IndexError).
Proof.
  intros Hn Hex. apply Exists_exists in Hex. destruct Hex as (x & Hx & Hbad).
  destruct (all_pairs_id yr x Hx) as (a & Ha & E1 & E2).
  destruct (first_error_Some (Z.to_nat n_x) (all_pairs yr)) as [e He].
  { apply Exists_exists. exists a. split; [done|].
    intros [_ [Hg _]]. rewrite E1 in Hg.
    apply (valid_id_iff n_x x Hn) in Hg. lia. }
  exists e. split; [done|]. split.
  - destruct (first_error_kind _ _ _ He); [by right|by left].
  - intros Hi Hr. apply (first_error_fits _ _ _ (all_pairs_fits yr Hi Hr) He).
Qed.

Lemma cosine_refused n_x yr :
  n_x < 0 \/ 2 ^ 30 <= n_x -> cosine n_x yr = Raise ValueError.
Proof. intros Hn. unfold cosine. by rewrite cosine_accumulate_refused. Qed.

Lemma msd_refused n_x yr :
  n_x < 0 \/ 2 ^ 30 <= n_x -> msd n_x yr = Raise ValueError.
Proof. intros Hn. unfold msd. by rewrite msd_accumulate_refused. Qed.

Lemma msdClone_refused n_x yr :
  n_x < 0 \/ 2 ^ 30 <= n_x -> msdClone n_x yr = Raise ValueError.
Proof. intros Hn. unfold msdClone. by rewrite msdClone_accumulate_refused. Qed.

Lemma pearson_refused n_x yr :
  n_x < 0 \/ 2 ^ 30 <= n_x -> pearson n_x yr = Raise ValueError.
Proof. intros Hn. unfold pearson. by rewrite pearson_accumulate_refused. Qed.

Lemma cosine_error n_x yr e :
  0 <= n_x < 2 ^ 30 -> first_error (Z.to_nat n_x) (all_pairs yr) = Some e ->
  cosine n_x yr = Raise e.
Proof. intros Hn He. unfold cosine. by rewrite (cosine_accumulate_error _ _ e). Qed.

Lemma msd_error n_x yr e :
  0 <= n_x < 2 ^ 30 -> first_error (Z.to_nat n_x) (all_pairs yr) = Some e ->
  msd n_x yr = Raise e.
Proof. intros Hn He. unfold msd. by rewrite (msd_accumulate_error _ _ e). Qed.

Lemma msdClone_error n_x yr e :
  0 <= n_x < 2 ^ 30 -> first_error (Z.to_nat n_x) (all_pairs yr) = Some e ->
  msdClone n_x yr = Raise e.
Proof.
  intros Hn He. unfold msdClone. by rewrite (msdClone_accumulate_error _ _ e).
Qed.

Lemma pearson_error n_x yr e :
  0 <= n_x < 2 ^ 30 -> first_error (Z.to_nat n_x) (all_pairs yr) = Some e ->
  pearson n_x yr = Raise e.
Proof.
  intros Hn He. unfold pearson. by rewrite (pearson_accumulate_error _ _ e).
Qed.

Lemma cosine_total n_x yr :
  0 <= n_x < 2 ^ 30 -> first_error (Z.to_nat n_x) (all_pairs yr) = None ->
  exists sim, cosine n_x yr = Ok sim.
Proof.
  intros Hn He. destruct (cosine_accumulate_ok n_x yr Hn He) as (st & Hacc & Hinv & _).
  destruct (cosine_run n_x yr st Hn Hacc Hinv) as (sim & Hrun & _). by exists sim.
Qed.

Lemma msd_total n_x yr :
  0 <= n_x < 2 ^ 30 -> first_error (Z.to_nat n_x) (all_pairs yr) = None ->
  exists sim, msd n_x yr = Ok sim.
Proof.
  intros Hn He. destruct (msd_accumulate_ok n_x yr Hn He) as (st & Hacc & Hinv & _).
  destruct (msd_run n_x yr st Hn Hacc Hinv) as (sim & Hrun & _). by exists sim.
Qed.

Lemma msdClone_total n_x yr :
  0 <= n_x < 2 ^ 30 -> first_error (Z.to_nat n_x) (all_pairs yr) = None ->
  exists sim, msdClone n_x yr = Ok sim.
Proof.
  intros Hn He.
  destruct (compute_mean_diff_ok n_x yr Hn He) as (st0 & md & _ & _ & Hmd & Hsq & _).
  destruct (msdClone_accumulate_ok n_x yr md Hn He Hmd Hsq) as (st & Hacc & Hinv & _).
  destruct (msdClone_run n_x yr md st Hn Hacc Hinv) as (sim & Hrun & _).
  by exists sim.
Qed.

Lemma pearson_total n_x yr :
  0 <= n_x < 2 ^ 30 -> first_error (Z.to_nat n_x) (all_pairs yr) = None ->
  (exists sim, pearson n_x yr = Ok sim) \/ pearson n_x yr = Raise TypeError.
Proof.
  intros Hn He. destruct (pearson_accumulate_ok n_x yr Hn He) as (st & Hacc & Hinv & _).
  destruct (pearson_run n_x yr st Hn Hacc Hinv) as [(sim & Hrun & _)|[Hrun _]];
    [left; by exists sim|by right].
Qed.

(** Not every id outside [0, n_x) raises an error: the id [-1] is
    accepted and counts from the end. *)
Lemma negative_id_counterexample :
  ids_of negative_id_yr = [-1] /\ ~ (0 <= -1 < 2) /\
  (exists sim, cosine 2 negative_id_yr = Ok sim) /\
  (exists sim, msd 2 negative_id_yr = Ok sim) /\
  (exists sim, msdClone 2 negative_id_yr = Ok sim) /\
  (exists sim, pearson 2 negative_id_yr = Ok sim).
Proof.
  split; [done|]. split; [lia|].
  split; [eexists; vm_compute; reflexivity|].
  split; [eexists; vm_compute; reflexivity|].
  split; eexists; vm_compute; reflexivity.
Qed.

(** C9 (amended). A negative [n_x] makes each of the four functions raise
    [ValueError].  With [0 <= n_x < 2 ^ 30], an id in [yr] outside
    [- n_x, n_x) makes each of them raise the same error, [IndexError] or
    [OverflowError], which is [IndexError] when all ids and ratings fit 32
    bits; and when all ids lie within [- n_x, n_x) and all ratings fit 32
    bits, [cosine], [msd] and [msdClone] return a matrix and [pearson]
    returns one or raises [TypeError].  With [2 ^ 30 <= n_x] each of them
    raises [ValueError], the arrays being too big. *)
Theorem invalid_input n_x yr :
  (n_x < 0 ->
     cosine n_x yr = Raise ValueError /\ msd n_x yr = Raise ValueError /\
     msdClone n_x yr = Raise ValueError /\ pearson n_x yr = Raise ValueError) /\
  (0 <= n_x < 2 ^ 30 ->
   Exists (fun x => x < - n_x \/ n_x <= x) (ids_of yr) ->
     exists e, (e = IndexError \/ e = OverflowError) /\
       (Forall int_range (ids_of yr) -> Forall int_range (ratings_of yr) ->
        e = IndexError) /\
       cosine n_x yr = Raise e /\ msd n_x yr = Raise e /\
       msdClone n_x yr = Raise e /\ pearson n_x yr = Raise e) /\
  (0 <= n_x < 2 ^ 30 ->
   Forall (fun x => - n_x <= x < n_x) (ids_of yr) ->
   Forall int_range (ratings_of yr) ->
     (exists sim, cosine n_x yr = Ok sim) /\ (exists sim, msd n_x yr = Ok sim) /\
     (exists sim, msdClone n_x yr = Ok sim) /\
     ((exists sim, pearson n_x yr = Ok sim) \/ pearson n_x yr = Raise TypeError)) /\
  (2 ^ 30 <= n_x ->
     cosine n_x yr = Raise ValueError /\ msd n_x yr = Raise ValueError /\
     msdClone n_x yr = Raise ValueError /\ pearson n_x yr = Raise ValueError).
Proof.
  split; [|split; [|split]]; [| | |intros Hn; split; [apply cosine_refused; by right|];
    split; [apply msd_refused; by right|];
    split; [apply msdClone_refused; by right|apply pearson_refused; by right]].
  - intros Hn. split; [apply cosine_refused; by left|].
    split; [apply msd_refused; by left|].
    split; [apply msdClone_refused; by left|apply pearson_refused; by left].
  - intros Hn Hex.
    destruct (invalid_id_error n_x yr) as (e & He & Hk & Hi); [lia|done|].
    exists e. split; [done|]. split; [done|].
    split; [by apply cosine_error|]. split; [by apply msd_error|].
    split; [by apply msdClone_error|by apply pearson_error].
  - intros Hn Hids Hr.
    assert (first_error (Z.to_nat n_x) (all_pairs yr) = None) as He.
    { apply valid_no_error; [done| |done]. apply ids_accepted; [lia|done]. }
    split; [by apply cosine_total|]. split; [by apply msd_total|].
    split; [by apply msdClone_total|by apply pearson_total].
Qed.

Lemma invalid_input_witness :
  cosine (-1) example_yr = Raise ValueError /\
  pearson 2 example_yr = Raise IndexError /\
  exists sim, msd 3 example_yr = Ok sim.
Proof.
  split; [|split].
  - destruct (invalid_input (-1) example_yr) as (H & _). apply H. lia.
  - destruct (invalid_input 2 example_yr) as (_ & H & _).
    destruct H as (e & _ & He & _ & _ & _ & Hp); [lia| |].
    + apply (bool_decide_unpack _). vm_compute. exact I.
    + rewrite Hp. f_equal. apply He.
      * apply (bool_decide_unpack _). vm_compute. exact I.
      * apply (bool_decide_unpack _). vm_compute. exact I.
  - apply (invalid_input 3 example_yr); [lia| |].
    + apply (bool_decide_unpack _). vm_compute. exact I.
    + apply (bool_decide_unpack _). vm_compute. exact I.
Defined.

(** ** Pairs without co-ratings *)






(** ** Symmetry *)





(** ** The divisor of [cosine] *)

(** Nonzero ratings do not always make the divisor nonzero: with the
    rating 65536 both sums of squares are [2 ^ 32], their product wraps to
    0 on 64 bits and the cell is the quotient of zero by zero. *)
Lemma cosine_division_guard_counterexample :
  wf_input 2 large_squares_yr /\
  Forall (fun r => r <> 0) (ratings_of large_squares_yr) /\
  exists st sim,
    cosine_accumulate 2 large_squares_yr = Ok st /\
    cosine 2 large_squares_yr = Ok sim /\
    mget (cos_freq st) 0 1 = Ok 1 /\
    mget (cos_sqi st) 0 1 = Ok 4294967296 /\
    mget (cos_sqj st) 0 1 = Ok 4294967296 /\
    np_sqrt (c_long (4294967296 * 4294967296)) = Ok d_zero /\
    mget sim 0 1 = Ok S754_nan.
Proof.
  split; [apply (bool_decide_unpack _); vm_compute; exact I|].
  split; [apply (bool_decide_unpack _); vm_compute; exact I|].
  eexists. eexists. split; [vm_compute; reflexivity|].
  split; [vm_compute; reflexivity|].
  split; [vm_compute; reflexivity|]. split; [vm_compute; reflexivity|].
  split; [vm_compute; reflexivity|]. split; vm_compute; reflexivity.
Qed.

(** C10 (amended). In [cosine] the division is guarded only by the count:
    on well-formed input with ratings of absolute value at most [B],
    [B * B < 2 ^ 31], and a number of ys such that neither the counts nor
    the sums of squares exceed [M], [M * M < 2 ^ 63], for every [i <> j]
    with [freq > 0] the divisor, the square root of [sqi * sqj], is
    nonzero provided every rating in [yr] is nonzero; and there is an
    input within these bounds, with ratings equal to 0, that has
    [freq > 0] and a divisor equal to 0, for which the cell is NaN. *)
Theorem cosine_division_guard :
  (forall n_x yr B M st i j f a b,
     wf_input n_x yr -> n_x < 2 ^ 30 -> rating_bound B yr ->
     B * B < 2 ^ 31 -> Z.of_nat (length yr) <= M ->
     Z.of_nat (length yr) * (B * B) <= M -> M * M < 2 ^ 63 ->
     cosine_accumulate n_x yr = Ok st ->
     0 <= i < n_x -> 0 <= j < n_x -> i <> j ->
     Forall (fun r => r <> 0) (ratings_of yr) ->
     mget (cos_freq st) i j = Ok f ->
     mget (cos_sqi st) i j = Ok a ->
     mget (cos_sqj st) i j = Ok b ->
     f > 0 ->
     exists d, np_sqrt (c_long (a * b)) = Ok d /\ d_eq0 d = false) /\
  (exists st sim a b,
     wf_input 2 zero_ratings_yr /\ rating_bound 0 zero_ratings_yr /\
     cosine_accumulate 2 zero_ratings_yr = Ok st /\
     cosine 2 zero_ratings_yr = Ok sim /\
     mget (cos_freq st) 0 1 = Ok 1 /\
     mget (cos_sqi st) 0 1 = Ok a /\
     mget (cos_sqj st) 0 1 = Ok b /\
     np_sqrt (c_long (a * b)) = Ok d_zero /\
     mget sim 0 1 = Ok S754_nan).
Proof.
  split.
  - intros n_x yr B M st i j f a b Hwf Hn HB HBB HN HNB HM Hacc Hi Hj Hne
      Hnz Hf Ha Hb Hpos.
    assert (in_range n_x yr) as Hr.
    { apply (rating_bound_range B); [done|done|]. clear - HBB. nia. }
    destruct (cosine_accumulate_wf n_x yr Hwf Hr) as (st' & Hacc' & _ & Hc).
    same_run Hacc Hacc'. destruct (Hc i j Hi Hj) as (Cf & _ & Ca & Cb).
    rewrite Cf in Hf. rewrite Ca in Ha. rewrite Cb in Hb.
    injection Hf as <-. injection Ha as <-. injection Hb as <-.
    set (L := corated yr i j) in *.
    assert (forall p, p ∈ L -> (- B <= p.1 <= B) /\ (- B <= p.2 <= B)) as HL
      by (intros p Hp; by apply (corated_bound B yr i j)).
    destruct (bounded_products L B HL HBB) as (_ & Ei & Ej).
    destruct (bound_products L B HL) as (_ & Bi & Bj). cbv zeta in Bi, Bj.
    pose proof (corated_length yr i j) as Hlen. fold L in Hlen.
    assert (M < 2 ^ 32) as HM32 by (clear - HM; nia).
    rewrite Ei, Ej. rewrite c_long_id in Hpos by lia.
    assert (L <> []) as Hne' by (intros E; rewrite E in Hpos; simpl in Hpos; lia).
    rewrite Forall_forall in Hnz.
    assert (0 < sumZ (fun p => p.1 ^ 2) L) as H1.
    { apply (sumZ_sq_pos fst); [done|]. intros p Hp.
      apply Hnz. by apply (corated_ratings yr i j). }
    assert (0 < sumZ (fun p => p.2 ^ 2) L) as H2.
    { apply (sumZ_sq_pos snd); [done|]. intros p Hp.
      apply Hnz. by apply (corated_ratings yr i j). }
    set (sqi := sumZ (fun p => p.1 ^ 2) L) in *.
    set (sqj := sumZ (fun p => p.2 ^ 2) L) in *.
    set (n := Z.of_nat (length L)) in *.
    assert (0 <= B * B) as HQ by (clear; nia).
    assert (n * (B * B) <= M) as HnM by (clear - Hlen HNB HQ; nia).
    rewrite (c_long_id sqi), (c_long_id sqj) by lia.
    assert (0 < sqi * sqj < 2 ^ 63) as Hab by (clear - H1 H2 Bi Bj HnM HM; nia).
    rewrite c_long_id by lia. apply np_sqrt_nonzero. lia.
  - eexists. eexists. eexists. eexists.
    split; [apply (bool_decide_unpack _); vm_compute; exact I|].
    split; [apply (bool_decide_unpack _); vm_compute; exact I|].
    split; [vm_compute; reflexivity|]. split; [vm_compute; reflexivity|].
    split; [vm_compute; reflexivity|]. split; [vm_compute; reflexivity|].
    split; [vm_compute; reflexivity|]. split; vm_compute; reflexivity.
Qed.

Lemma cosine_division_guard_witness :
  exists st d, cosine_accumulate 3 example_yr = Ok st /\
    np_sqrt (c_long (41 * 41)) = Ok d /\ d_eq0 d = false.
Proof.
  assert (in_range 3 example_yr) as Hr
    by (apply (bool_decide_unpack _); vm_compute; exact I).
  destruct (cosine_accumulate_wf 3 example_yr example_wf Hr)
    as (st & Hacc & _ & Hc).
  destruct (Hc 0 1) as (Cf & _ & Ca & Cb); [lia..|].
  destruct cosine_division_guard as [Hguard _].
  destruct (Hguard 3 example_yr 5 50 st 0 1 2 41 41 example_wf) as (d & Hd);
    [lia| |lia|simpl; lia|simpl; lia|lia|exact Hacc|lia|lia|lia|
     |exact Cf|exact Ca|exact Cb|lia|].
  - apply (bool_decide_unpack _). vm_compute. exact I.
  - apply (bool_decide_unpack _). vm_compute. exact I.
  - exists st, d. split; [exact Hacc|exact Hd].
Defined.

(** ** Ratings in affine relation *)

Lemma pearson_sim_swap (L : list (Z * Z)) :
  pearson_sim ((fun p => (p.2, p.1)) <$> L) = pearson_sim L.
Proof.
  unfold pearson_sim, pearson_num_of, pearson_radicand_of.
  rewrite length_fmap, !sumZ_fmap. cbn [fst snd].
  rewrite (sumZ_ext (fun p => c_int (p.2 * p.1)) (fun p => c_int (p.1 * p.2)))
    by (intros p _; by rewrite Z.mul_comm).
  set (n := c_long (Z.of_nat (length L))).
  set (a := c_long (sumZ (fun p => p.1) L)).
  set (b := c_long (sumZ (fun p => p.2) L)).
  by rewrite (Z.mul_comm b a), (Z.mul_comm (n * _ - c_long (b * b))).
Qed.






(** ** Ids below zero *)

Lemma normalize_id_range n_x x :
  - n_x <= x < n_x -> 0 <= normalize_id n_x x < n_x.
Proof. unfold normalize_id. intros H. destruct (Z.ltb_spec x 0); lia. Qed.

Lemma valid_normalize n_x x :
  0 <= n_x -> valid_id (Z.to_nat n_x) x ->
  valid_id (Z.to_nat n_x) (normalize_id n_x x) /\
  wrap (Z.to_nat n_x) (normalize_id n_x x) = wrap (Z.to_nat n_x) x.
Proof.
  unfold valid_id, wrap, normalize_id. intros Hn Hx.
  destruct (Z.ltb_spec x 0).
  - destruct (Z.leb_spec 0 x); [lia|].
    destruct (Z.leb_spec 0 (x + n_x)); lia.
  - split; [lia|done].
Qed.

Lemma minc_normalize {A : Type} (add : A -> A -> A) n_x (m : matrix A) xi xj v :
  0 <= n_x -> square (Z.to_nat n_x) m ->
  valid_id (Z.to_nat n_x) xi -> valid_id (Z.to_nat n_x) xj ->
  minc add m (normalize_id n_x xi) (normalize_id n_x xj) v = minc add m xi xj v.
Proof.
  intros Hn Hsq Hi Hj.
  destruct (valid_normalize n_x xi Hn Hi) as [Hi' Ei].
  destruct (valid_normalize n_x xj Hn Hj) as [Hj' Ej].
  rewrite !(minc_pinc add (Z.to_nat n_x)) by done. by rewrite Ei, Ej.
Qed.

Lemma mget_normalize {A : Type} n_x (m : matrix A) xi xj :
  0 <= n_x -> square (Z.to_nat n_x) m ->
  valid_id (Z.to_nat n_x) xi -> valid_id (Z.to_nat n_x) xj ->
  mget m (normalize_id n_x xi) (normalize_id n_x xj) = mget m xi xj.
Proof.
  intros Hn Hsq Hi Hj.
  destruct (valid_normalize n_x xi Hn Hi) as [Hi' Ei].
  destruct (valid_normalize n_x xj Hn Hj) as [Hj' Ej].
  destruct (mget_valid _ m xi xj Hsq Hi Hj) as (c & Hc & ->).
  destruct (mget_valid _ m _ _ Hsq Hi' Hj') as (c' & Hc' & ->).
  rewrite Ei, Ej in Hc'. congruence.
Qed.

Lemma pairs_of_fmap (g : Z * Z -> Z * Z) (l : y_ratings_t) :
  pairs_of (g <$> l) = (fun a => (g a.1, g a.2)) <$> pairs_of l.
Proof.
  unfold pairs_of.
  assert (forall l1 l2 : y_ratings_t,
    ((g <$> l1) ≫= fun p1 => (g <$> l2) ≫= fun p2 => [(p1, p2)]) =
    (fun a => (g a.1, g a.2)) <$> (l1 ≫= fun p1 => l2 ≫= fun p2 => [(p1, p2)]))
    as H; [|apply H].
  intros l1 l2. induction l1 as [|p1 l1 IH]; [done|].
  change ((g <$> p1 :: l1) ≫= ?f) with (f (g p1) ++ ((g <$> l1) ≫= f)).
  change ((p1 :: l1) ≫= ?f) with (f p1 ++ (l1 ≫= f)).
  rewrite fmap_app, IH. f_equal.
  clear IH. induction l2 as [|p2 l2 IH]; [done|].
  change ((g <$> p2 :: l2) ≫= ?f) with (f (g p2) ++ ((g <$> l2) ≫= f)).
  change ((p2 :: l2) ≫= ?f) with (f p2 ++ (l2 ≫= f)).
  rewrite fmap_app, IH. done.
Qed.

Lemma all_pairs_normalize n_x yr :
  all_pairs (normalize_yr n_x yr) = normalize_visit n_x <$> all_pairs yr.
Proof.
  unfold all_pairs, normalize_yr. induction yr as [|yl yr IH]; [done|].
  change ((?g <$> yl :: yr) ≫= ?f) with (f (g yl) ++ ((g <$> yr) ≫= f)).
  change ((yl :: yr) ≫= ?f) with (f yl ++ (yr ≫= f)).
  rewrite fmap_app, IH. f_equal.
  simpl. unfold normalize_ratings. by rewrite pairs_of_fmap.
Qed.

Lemma for_each_fmap {A B S : Type} (g : A -> B) (l : list A)
    (body : B -> S -> result S) s :
  for_each (g <$> l) body s = for_each l (fun a => body (g a)) s.
Proof.
  revert s. induction l as [|a l IH]; intros s; [done|].
  change (g <$> a :: l) with (g a :: (g <$> l)). simpl.
  destruct (body (g a) s); simpl; [apply IH|done].
Qed.

Lemma ids_of_normalize n_x yr :
  ids_of (normalize_yr n_x yr) = normalize_id n_x <$> ids_of yr.
Proof.
  unfold ids_of, normalize_yr. induction yr as [|yl yr IH]; [done|].
  change ((?g <$> yl :: yr) ≫= ?f) with (f (g yl) ++ ((g <$> yr) ≫= f)).
  change ((yl :: yr) ≫= ?f) with (f yl ++ (yr ≫= f)).
  rewrite fmap_app, IH. f_equal.
  simpl. unfold normalize_ratings. rewrite <- !list_fmap_compose. done.
Qed.

(** Two bodies that agree on the states of an invariant give the same
    loop. *)
Lemma for_each_agree {A S : Type} (P : A -> Prop) (Inv : S -> Prop)
    (b1 b2 : A -> S -> result S) :
  (forall a s, P a -> Inv s ->
     b1 a s = b2 a s /\ forall s', b1 a s = Ok s' -> Inv s') ->
  forall l, Forall P l -> forall s, Inv s ->
  for_each l b1 s = for_each l b2 s.
Proof.
  intros Hb l Hl. induction Hl as [|a l Ha Hl IH]; intros s Hs; [done|].
  simpl. destruct (Hb a s Ha Hs) as [E Hinv]. rewrite <- E.
  destruct (b1 a s) as [s'|e]; simpl; [|done]. by apply IH, Hinv.
Qed.

Lemma fits_normalize n_x a :
  0 <= n_x < 2 ^ 30 -> good (Z.to_nat n_x) a ->
  fits (normalize_visit n_x a) <-> fits a.
Proof.
  intros Hn [H1 H2].
  apply (valid_id_iff n_x) in H1; [|lia]. apply (valid_id_iff n_x) in H2; [|lia].
  pose proof (normalize_id_range n_x _ H1). pose proof (normalize_id_range n_x _ H2).
  unfold fits, int_range, normalize_visit. cbn [fst snd]. lia.
Qed.

(** The loop over the input with every id replaced by the entity it
    denotes. *)
Lemma visit_normalize {S : Type} n_x (Inv : S -> Prop)
    (body : Z -> Z -> Z -> Z -> S -> result S) :
  0 <= n_x < 2 ^ 30 ->
  (forall a s, good (Z.to_nat n_x) a -> Inv s ->
     exists s', body a.1.1 a.1.2 a.2.1 a.2.2 s = Ok s' /\ Inv s' /\
       body (normalize_id n_x a.1.1) a.1.2 (normalize_id n_x a.2.1) a.2.2 s
         = Ok s') ->
  forall yr s, Forall (valid_id (Z.to_nat n_x)) (ids_of yr) -> Inv s ->
  for_each (all_pairs (normalize_yr n_x yr)) (visit body) s =
  for_each (all_pairs yr) (visit body) s.
Proof.
  intros Hn Hb yr s Hids Hs.
  rewrite all_pairs_normalize, for_each_fmap. symmetry.
  apply (for_each_agree (good (Z.to_nat n_x)) Inv); [|by apply all_pairs_good|done].
  intros a s1 Ha Hs1. destruct (decide (fits a)) as [Hf|Hf].
  - rewrite !visit_fits by (done || by apply fits_normalize).
    destruct (Hb a s1 Ha Hs1) as (s' & E1 & Hs' & E2).
    cbn [normalize_visit fst snd]. rewrite E1, E2. split; [done|].
    by intros ? [= <-].
  - rewrite !visit_unfit; [done|by rewrite fits_normalize|done].
Qed.

Lemma cosine_accumulate_normalize n_x yr :
  0 <= n_x < 2 ^ 30 -> Forall (valid_id (Z.to_nat n_x)) (ids_of yr) ->
  cosine_accumulate n_x (normalize_yr n_x yr) = cosine_accumulate n_x yr.
Proof.
  intros Hn Hids. rewrite !cosine_accumulate_flat by done.
  apply (visit_normalize n_x (cosine_inv (Z.to_nat n_x)));
    [done| |done|repeat split; apply square_zeros].
  intros a s Ha Hs. destruct (cosine_step _ a s Ha Hs) as (s' & Hb & Hs' & _).
  exists s'. split; [done|]. split; [done|]. rewrite <- Hb.
  destruct Ha as [Ha1 Ha2], Hs as (Hp & Hf & Hsi & Hsj).
  unfold cosine_body, linc.
  by rewrite !(minc_normalize ladd n_x) by (done || lia).
Qed.

Lemma msd_accumulate_normalize n_x yr :
  0 <= n_x < 2 ^ 30 -> Forall (valid_id (Z.to_nat n_x)) (ids_of yr) ->
  msd_accumulate n_x (normalize_yr n_x yr) = msd_accumulate n_x yr.
Proof.
  intros Hn Hids. rewrite !msd_accumulate_flat by done.
  apply (visit_normalize n_x (msd_inv (Z.to_nat n_x)));
    [done| |done|split; apply square_zeros].
  intros a s Ha Hs. destruct (msd_step _ a s Ha Hs) as (s' & Hb & Hs' & _).
  exists s'. split; [done|]. split; [done|]. rewrite <- Hb.
  destruct Ha as [Ha1 Ha2], Hs as (Hp & Hf).
  unfold msd_body, linc, dinc.
  by rewrite (minc_normalize dadd n_x), (minc_normalize ladd n_x) by (done || lia).
Qed.

Lemma mean_diff_accumulate_normalize n_x yr :
  0 <= n_x < 2 ^ 30 -> Forall (valid_id (Z.to_nat n_x)) (ids_of yr) ->
  mean_diff_accumulate n_x (normalize_yr n_x yr) = mean_diff_accumulate n_x yr.
Proof.
  intros Hn Hids. rewrite !mean_diff_accumulate_flat by done.
  apply (visit_normalize n_x (mean_diff_inv (Z.to_nat n_x)));
    [done| |done|split; apply square_zeros].
  intros a s Ha Hs. destruct (mean_diff_step _ a s Ha Hs) as (s' & Hb & Hs' & _).
  exists s'. split; [done|]. split; [done|]. rewrite <- Hb.
  destruct Ha as [Ha1 Ha2], Hs as (Hp & Hf).
  unfold mean_diff_body, linc, dinc.
  by rewrite (minc_normalize dadd n_x), (minc_normalize ladd n_x) by (done || lia).
Qed.

Lemma compute_mean_diff_normalize n_x yr :
  0 <= n_x < 2 ^ 30 -> Forall (valid_id (Z.to_nat n_x)) (ids_of yr) ->
  compute_mean_diff n_x (normalize_yr n_x yr) = compute_mean_diff n_x yr.
Proof.
  intros Hn Hids. unfold compute_mean_diff.
  by rewrite mean_diff_accumulate_normalize.
Qed.

Lemma first_error_normalize n_x yr :
  0 <= n_x < 2 ^ 30 -> Forall (valid_id (Z.to_nat n_x)) (ids_of yr) ->
  first_error (Z.to_nat n_x) (all_pairs (normalize_yr n_x yr)) =
  first_error (Z.to_nat n_x) (all_pairs yr).
Proof.
  intros Hn Hids. rewrite all_pairs_normalize.
  pose proof (all_pairs_good _ _ Hids) as Hg.
  induction Hg as [|a l Ha Hg IH]; [done|].
  change (normalize_visit n_x <$> a :: l)
    with (normalize_visit n_x a :: (normalize_visit n_x <$> l)).
  simpl. rewrite IH. unfold visit_error.
  assert (good (Z.to_nat n_x) (normalize_visit n_x a)) as Ha'.
  { destruct Ha as [H1 H2]. split; by apply valid_normalize; [lia|]. }
  destruct (decide (fits a)) as [Hf|Hf].
  - rewrite decide_True by (by apply fits_normalize).
    by rewrite !decide_True by done.
  - by rewrite decide_False by (by rewrite fits_normalize).
Qed.

Lemma msdClone_accumulate_normalize n_x yr :
  0 <= n_x < 2 ^ 30 -> Forall (valid_id (Z.to_nat n_x)) (ids_of yr) ->
  msdClone_accumulate n_x (normalize_yr n_x yr) = msdClone_accumulate n_x yr.
Proof.
  intros Hn Hids.
  destruct (first_error (Z.to_nat n_x) (all_pairs yr)) as [e|] eqn:He.
  { rewrite (msdClone_accumulate_error n_x yr e) by done.
    apply msdClone_accumulate_error; [done|]. by rewrite first_error_normalize. }
  destruct (compute_mean_diff_ok n_x yr Hn He)
    as (st0 & md & _ & _ & Hmd & Hsq & _).
  rewrite (msdClone_accumulate_flat n_x yr md) by done.
  rewrite (msdClone_accumulate_flat n_x (normalize_yr n_x yr) md)
    by (done || by rewrite compute_mean_diff_normalize).
  apply (visit_normalize n_x (msdClone_inv (Z.to_nat n_x) md));
    [done| |done|split; [done|split; apply square_zeros]].
  intros a s Ha Hs.
  destruct (msdClone_step _ md a s Hsq Ha Hs) as (s' & Hb & Hs' & _).
  exists s'. split; [done|]. split; [done|]. rewrite <- Hb.
  destruct Ha as [Ha1 Ha2], Hs as (Heq & Hp & Hf).
  unfold msdClone_body, linc, dinc.
  rewrite (mget_normalize n_x) by (done || lia || by rewrite Heq).
  destruct (mget (mc_mean_diff s) a.1.1 a.2.1) as [m|]; [|done].
  rewrite !bind_Ok.
  by rewrite (minc_normalize dadd n_x), (minc_normalize ladd n_x) by (done || lia).
Qed.

Lemma pearson_accumulate_normalize n_x yr :
  0 <= n_x < 2 ^ 30 -> Forall (valid_id (Z.to_nat n_x)) (ids_of yr) ->
  pearson_accumulate n_x (normalize_yr n_x yr) = pearson_accumulate n_x yr.
Proof.
  intros Hn Hids. rewrite !pearson_accumulate_flat by done.
  apply (visit_normalize n_x (pearson_inv (Z.to_nat n_x)));
    [done| |done|repeat split; apply square_zeros].
  intros a s Ha Hs. destruct (pearson_step _ a s Ha Hs) as (s' & Hb & Hs' & _).
  exists s'. split; [done|]. split; [done|]. rewrite <- Hb.
  destruct Ha as [Ha1 Ha2], Hs as (Hf & Hp & Hqi & Hqj & Hsi & Hsj).
  unfold pearson_body, linc.
  by rewrite !(minc_normalize ladd n_x) by (done || lia).
Qed.

(** X3. An id [x] within [- n_x, 0) stands for the entity [x + n_x]: when
    all ids lie within [- n_x, n_x), each of the five functions returns on
    [yr] what it returns on the input in which every negative id is
    replaced by that entity, and the ids of that input lie within
    [0, n_x). *)
Theorem negative_ids_alias n_x yr :
  0 <= n_x -> Forall (fun x => - n_x <= x < n_x) (ids_of yr) ->
  cosine n_x yr = cosine n_x (normalize_yr n_x yr) /\
  msd n_x yr = msd n_x (normalize_yr n_x yr) /\
  compute_mean_diff n_x yr = compute_mean_diff n_x (normalize_yr n_x yr) /\
  msdClone n_x yr = msdClone n_x (normalize_yr n_x yr) /\
  pearson n_x yr = pearson n_x (normalize_yr n_x yr) /\
  Forall (fun x => 0 <= x < n_x) (ids_of (normalize_yr n_x yr)).
Proof.
  intros Hn Hids. pose proof (ids_accepted n_x yr Hn Hids) as Hv.
  assert (Forall (fun x => 0 <= x < n_x) (ids_of (normalize_yr n_x yr))) as Hnorm.
  { rewrite ids_of_normalize. apply Forall_fmap.
    eapply Forall_impl; [exact Hids|]. intros x Hx. by apply normalize_id_range. }
  destruct (Z.lt_ge_cases n_x (2 ^ 30)) as [Hlt|Hge].
  - assert (0 <= n_x < 2 ^ 30) as Hn' by lia.
    split; [unfold cosine; by rewrite cosine_accumulate_normalize|].
    split; [unfold msd; by rewrite msd_accumulate_normalize|].
    split; [by rewrite compute_mean_diff_normalize|].
    split; [unfold msdClone; by rewrite msdClone_accumulate_normalize|].
    split; [unfold pearson; by rewrite pearson_accumulate_normalize|done].
  - rewrite !cosine_refused, !msd_refused, !compute_mean_diff_refused,
      !msdClone_refused, !pearson_refused by (by right).
    done.
Qed.

Lemma negative_ids_alias_witness :
  normalize_yr 2 negative_id_yr = [(0, [(1, 3)])] /\
  msd 2 negative_id_yr = msd 2 [(0, [(1, 3)])].
Proof.
  split; [reflexivity|].
  apply (negative_ids_alias 2 negative_id_yr); [lia|].
  apply (bool_decide_unpack _). vm_compute. exact I.
Defined.

(** ** Order of the input *)

Lemma matrix_ext {A : Type} n (m1 m2 : matrix A) :
  square n m1 -> square n m2 ->
  (forall i j, (i < n)%nat -> (j < n)%nat -> at2 m1 i j = at2 m2 i j) ->
  m1 = m2.
Proof.
  intros Hs1 Hs2 Hc. apply list_eq. intros i.
  destruct (decide (i < n)%nat) as [Hi|Hi].
  - destruct (square_row n m1 i Hs1 Hi) as (r1 & Hr1 & Hl1).
    destruct (square_row n m2 i Hs2 Hi) as (r2 & Hr2 & Hl2).
    rewrite Hr1, Hr2. f_equal. apply list_eq. intros j.
    destruct (decide (j < n)%nat) as [Hj|Hj].
    + specialize (Hc i j Hi Hj). unfold at2 in Hc.
      by rewrite Hr1, Hr2 in Hc.
    + rewrite !lookup_ge_None_2 by lia. done.
  - destruct Hs1 as [L1 _], Hs2 as [L2 _].
    rewrite !lookup_ge_None_2 by lia. done.
Qed.

Lemma rating_of_elem x r (l : y_ratings_t) :
  NoDup (l.*1) -> (x, r) ∈ l -> rating_of x l = Some r.
Proof.
  induction l as [|[x' r'] l IH]; intros Hnd Hin.
  - by apply not_elem_of_nil in Hin.
  - change (((x', r') :: l).*1) with (x' :: l.*1) in Hnd.
    apply NoDup_cons in Hnd. destruct Hnd as [Hnin Hnd]. simpl.
    apply elem_of_cons in Hin. destruct Hin as [[= -> ->]|Hin].
    + by rewrite decide_True.
    + destruct (decide (x' = x)) as [->|Hne]; [|by apply IH].
      destruct Hnin. by apply (list_elem_of_fmap_2 fst) in Hin.
Qed.

Lemma rating_of_not_None x (l : y_ratings_t) :
  x ∈ l.*1 -> rating_of x l <> None.
Proof.
  induction l as [|[x' r'] l IH]; simpl.
  - intros H. by apply not_elem_of_nil in H.
  - intros H. destruct (decide (x' = x)) as [->|Hne]; [done|].
    apply elem_of_cons in H. destruct H as [H|H]; [done|]. by apply IH.
Qed.

Lemma rating_of_perm x (l l' : y_ratings_t) :
  NoDup (l.*1) -> l ≡ₚ l' -> rating_of x l = rating_of x l'.
Proof.
  intros Hnd Hp.
  assert (NoDup (l'.*1)) as Hnd' by by rewrite <- Hp.
  destruct (rating_of x l) as [r|] eqn:Hr.
  - apply rating_of_Some in Hr. rewrite Hp in Hr.
    symmetry. by apply rating_of_elem.
  - destruct (rating_of x l') as [r'|] eqn:Hr'; [|done].
    apply rating_of_Some in Hr'. rewrite <- Hp in Hr'.
    apply (list_elem_of_fmap_2 fst) in Hr'.
    by apply rating_of_not_None in Hr'.
Qed.

Lemma corated_lists_perm n_x yr yr' i j :
  wf_input n_x yr -> Forall2 (fun a b => a.2 ≡ₚ b.2) yr yr' ->
  corated yr i j = corated yr' i j.
Proof.
  intros [_ Hwf] HF. unfold corated.
  induction HF as [|a b yr yr' Hab HF IH]; [done|].
  apply Forall_cons in Hwf. destruct Hwf as [[_ Hnd] Hwf].
  change ((a :: yr) ≫= ?f) with (f a ++ (yr ≫= f)).
  change ((b :: yr') ≫= ?f) with (f b ++ (yr' ≫= f)).
  rewrite IH by done. by rewrite !(rating_of_perm _ a.2 b.2).
Qed.

Lemma wf_lists_perm n_x yr yr' :
  wf_input n_x yr -> Forall2 (fun a b => a.2 ≡ₚ b.2) yr yr' ->
  wf_input n_x yr'.
Proof.
  intros [Hn Hwf] HF. split; [done|].
  induction HF as [|a b yr yr' Hab HF IH]; [done|].
  apply Forall_cons in Hwf. destruct Hwf as [[Hr Hnd] Hwf].
  apply Forall_cons. split; [|by apply IH].
  split; by rewrite <- Hab.
Qed.

Lemma matrix_mget_ext {A : Type} n_x (m1 m2 : matrix A) :
  square (Z.to_nat n_x) m1 -> square (Z.to_nat n_x) m2 ->
  (forall i j, 0 <= i < n_x -> 0 <= j < n_x -> mget m1 i j = mget m2 i j) ->
  m1 = m2.
Proof.
  intros H1 H2 Hc. apply (matrix_ext (Z.to_nat n_x)); [done..|].
  intros i j Hi Hj.
  destruct (mget_nonneg n_x m1 (Z.of_nat i) (Z.of_nat j)) as (c1 & Hc1 & Hg1);
    [done|lia..|].
  destruct (mget_nonneg n_x m2 (Z.of_nat i) (Z.of_nat j)) as (c2 & Hc2 & Hg2);
    [done|lia..|].
  rewrite !Nat2Z.id in Hc1, Hc2. rewrite Hc1, Hc2.
  specialize (Hc (Z.of_nat i) (Z.of_nat j)). rewrite Hg1, Hg2 in Hc.
  f_equal. assert (Ok c1 = Ok c2) as [= ->] by (apply Hc; lia). done.
Qed.

(** Two square matrices with the same diagonal and the same cells off the
    diagonal are equal. *)
Lemma cells_determined n_x (sim sim' : matrix double) d :
  square (Z.to_nat n_x) sim -> square (Z.to_nat n_x) sim' ->
  (forall i, 0 <= i < n_x -> mget sim i i = Ok d) ->
  (forall i, 0 <= i < n_x -> mget sim' i i = Ok d) ->
  (forall i j, 0 <= i < j -> j < n_x ->
     mget sim i j = mget sim' i j /\ mget sim j i = mget sim' j i) ->
  sim = sim'.
Proof.
  intros H1 H2 Hd Hd' Hc. apply (matrix_mget_ext n_x); [done..|].
  intros i j Hi Hj. destruct (Z.lt_trichotomy i j) as [H|[->|H]].
  - by destruct (Hc i j) as [E _]; [lia..|].
  - by rewrite Hd, Hd'.
  - by destruct (Hc j i) as [_ E]; [lia..|].
Qed.

Lemma ratings_lists_perm (yr yr' : yr_t) :
  Forall2 (fun a b => a.2 ≡ₚ b.2) yr yr' -> ratings_of yr ≡ₚ ratings_of yr'.
Proof.
  unfold ratings_of. induction 1 as [|a b yr yr' Hab HF IH]; [done|].
  change ((a :: yr) ≫= ?f) with (f a ++ (yr ≫= f)).
  change ((b :: yr') ≫= ?f) with (f b ++ (yr' ≫= f)).
  cbn beta. by rewrite Hab, IH.
Qed.

(** Two well-formed inputs with the same co-ratings, in the same order,
    and ratings that fit 32 bits give the same results. *)
Lemma same_corated n_x yr yr' :
  wf_input n_x yr -> wf_input n_x yr' ->
  in_range n_x yr -> in_range n_x yr' ->
  (forall i j, corated yr i j = corated yr' i j) ->
  cosine n_x yr = cosine n_x yr' /\ msd n_x yr = msd n_x yr' /\
  compute_mean_diff n_x yr = compute_mean_diff n_x yr' /\
  msdClone n_x yr = msdClone n_x yr' /\ pearson n_x yr = pearson n_x yr'.
Proof.
  intros Hwf Hwf' Hr Hr' Hco.
  split; [|split; [|split; [|split]]].
  - destruct (cosine_result n_x yr Hwf Hr)
      as (st & sim & _ & -> & _ & Hsq & _ & Hd & Hs).
    destruct (cosine_result n_x yr' Hwf' Hr')
      as (st' & sim' & _ & -> & _ & Hsq' & _ & Hd' & Hs').
    f_equal. apply (cells_determined n_x _ _ _ Hsq Hsq' Hd Hd').
    intros i j Hi Hj. destruct (Hs i j Hi Hj) as [-> ->].
    destruct (Hs' i j Hi Hj) as [-> ->]. by rewrite Hco.
  - destruct (msd_result n_x yr Hwf Hr)
      as (st & sim & _ & -> & _ & Hsq & _ & Hd & Hs).
    destruct (msd_result n_x yr' Hwf' Hr')
      as (st' & sim' & _ & -> & _ & Hsq' & _ & Hd' & Hs').
    f_equal. apply (cells_determined n_x _ _ _ Hsq Hsq' Hd Hd').
    intros i j Hi Hj. destruct (Hs i j Hi Hj) as [-> ->].
    destruct (Hs' i j Hi Hj) as [-> ->]. by rewrite Hco.
  - destruct (compute_mean_diff_result n_x yr Hwf Hr)
      as (st & sim & _ & -> & _ & Hsq & _ & Hd & Hs).
    destruct (compute_mean_diff_result n_x yr' Hwf' Hr')
      as (st' & sim' & _ & -> & _ & Hsq' & _ & Hd' & Hs').
    f_equal. apply (cells_determined n_x _ _ _ Hsq Hsq' Hd Hd').
    intros i j Hi Hj. destruct (Hs i j Hi Hj) as [-> ->].
    destruct (Hs' i j Hi Hj) as [-> ->]. by rewrite Hco.
  - destruct (msdClone_result n_x yr Hwf Hr)
      as (md & st & sim & _ & _ & -> & _ & Hsq & _ & Hd & Hs).
    destruct (msdClone_result n_x yr' Hwf' Hr')
      as (md' & st' & sim' & _ & _ & -> & _ & Hsq' & _ & Hd' & Hs').
    f_equal. apply (cells_determined n_x _ _ _ Hsq Hsq' Hd Hd').
    intros i j Hi Hj. destruct (Hs i j Hi Hj) as [-> ->].
    destruct (Hs' i j Hi Hj) as [-> ->]. by rewrite Hco.
  - destruct (pearson_result n_x yr Hwf Hr) as (st & _ & _ & _ & Hres).
    destruct (pearson_result n_x yr' Hwf' Hr') as (st' & _ & _ & _ & Hres').
    destruct Hres as [(sim & -> & Hsq & Hd & Hs)|(-> & i & j & Hi & Hj & He)];
      destruct Hres' as [(sim' & -> & Hsq' & Hd' & Hs')|(-> & i' & j' & Hi' & Hj' & He')].
    + f_equal. apply (cells_determined n_x _ _ _ Hsq Hsq' Hd Hd').
      intros i j Hi Hj. destruct (Hs i j Hi Hj) as (v & Hv & -> & ->).
      destruct (Hs' i j Hi Hj) as (v' & Hv' & -> & ->).
      rewrite Hco, Hv' in Hv. by injection Hv as ->.
    + destruct (Hs i' j' Hi' Hj') as (v & Hv & _). by rewrite Hco, He' in Hv.
    + destruct (Hs' i j Hi Hj) as (v & Hv & _). by rewrite <- Hco, He in Hv.
    + done.
Qed.

(** X5. The order of the pairs [(x, r)] within the list of a [y] does not
    matter either: on well-formed input each of the five functions
    returns the same matrix when the lists are reordered. *)
Theorem order_within_lists n_x yr yr' :
  wf_input n_x yr -> Forall2 (fun a b => a.2 ≡ₚ b.2) yr yr' ->
  cosine n_x yr = cosine n_x yr' /\ msd n_x yr = msd n_x yr' /\
  compute_mean_diff n_x yr = compute_mean_diff n_x yr' /\
  msdClone n_x yr = msdClone n_x yr' /\ pearson n_x yr = pearson n_x yr'.
Proof.
  intros Hwf HF. pose proof (wf_lists_perm _ _ _ Hwf HF) as Hwf'.
  pose proof (ratings_lists_perm _ _ HF) as Hp.
  destruct (Z.lt_ge_cases n_x (2 ^ 30)) as [Hlt|Hge].
  - destruct (decide (Forall int_range (ratings_of yr))) as [Hr|Hr].
    + apply same_corated; [done|done|by split|split; [done|by rewrite <- Hp]|].
      intros i j. by rewrite (corated_lists_perm n_x yr yr').
    + assert (0 <= n_x < 2 ^ 30) as Hn by (destruct Hwf; lia).
      assert (~ Forall int_range (ratings_of yr')) as Hr' by (by rewrite <- Hp).
      pose proof (valid_overflow n_x yr Hn (wf_valid _ _ Hwf) Hr) as He.
      pose proof (valid_overflow n_x yr' Hn (wf_valid _ _ Hwf') Hr') as He'.
      rewrite (cosine_error _ _ _ Hn He), (cosine_error _ _ _ Hn He'),
        (msd_error _ _ _ Hn He), (msd_error _ _ _ Hn He'),
        (compute_mean_diff_error _ _ _ Hn He),
        (compute_mean_diff_error _ _ _ Hn He'),
        (msdClone_error _ _ _ Hn He), (msdClone_error _ _ _ Hn He'),
        (pearson_error _ _ _ Hn He), (pearson_error _ _ _ Hn He').
      done.
  - rewrite !cosine_refused, !msd_refused, !compute_mean_diff_refused,
      !msdClone_refused, !pearson_refused by (by right).
    done.
Qed.

Lemma order_within_lists_witness :
  pearson 3 example_yr =
  pearson 3 [(0, [(1, 4); (0, 4); (2, 1)]); (1, [(1, 5); (0, 5)])].
Proof.
  apply (order_within_lists 3 example_yr); [exact example_wf|].
  repeat (apply Forall2_cons; split); [apply perm_swap..|apply Forall2_nil_2].
Defined.

(** ** Shape of the results *)

(** X1. With [0 <= n_x < 2 ^ 30], ids within [- n_x, n_x) and ratings that
    fit 32 bits, each of [cosine], [msd], [compute_mean_diff] and
    [msdClone] returns a matrix of [n_x] rows of [n_x] cells, and
    [pearson] returns such a matrix or raises [TypeError]. *)
Theorem result_shape n_x yr :
  0 <= n_x < 2 ^ 30 ->
  Forall (fun x => - n_x <= x < n_x) (ids_of yr) ->
  Forall int_range (ratings_of yr) ->
  (exists sim, cosine n_x yr = Ok sim /\ square (Z.to_nat n_x) sim) /\
  (exists sim, msd n_x yr = Ok sim /\ square (Z.to_nat n_x) sim) /\
  (exists md, compute_mean_diff n_x yr = Ok md /\ square (Z.to_nat n_x) md) /\
  (exists sim, msdClone n_x yr = Ok sim /\ square (Z.to_nat n_x) sim) /\
  ((exists sim, pearson n_x yr = Ok sim /\ square (Z.to_nat n_x) sim) \/
   pearson n_x yr = Raise TypeError).
Proof.
  intros Hn Hids Hr.
  assert (first_error (Z.to_nat n_x) (all_pairs yr) = None) as He.
  { apply valid_no_error; [done| |done]. apply ids_accepted; [lia|done]. }
  split; [|split; [|split; [|split]]].
  - destruct (cosine_accumulate_ok n_x yr Hn He) as (st & Hacc & Hinv & _).
    destruct (cosine_run n_x yr st Hn Hacc Hinv) as (sim & Hrun & Hsq & _).
    by exists sim.
  - destruct (msd_accumulate_ok n_x yr Hn He) as (st & Hacc & Hinv & _).
    destruct (msd_run n_x yr st Hn Hacc Hinv) as (sim & Hrun & Hsq & _).
    by exists sim.
  - destruct (compute_mean_diff_ok n_x yr Hn He) as (st & md & _ & _ & Hmd & Hsq & _).
    by exists md.
  - destruct (compute_mean_diff_ok n_x yr Hn He) as (st0 & md & _ & _ & Hmd & Hsq & _).
    destruct (msdClone_accumulate_ok n_x yr md Hn He Hmd Hsq) as (st & Hacc & Hinv & _).
    destruct (msdClone_run n_x yr md st Hn Hacc Hinv) as (sim & Hrun & Hsq' & _).
    by exists sim.
  - destruct (pearson_accumulate_ok n_x yr Hn He) as (st & Hacc & Hinv & _).
    destruct (pearson_run n_x yr st Hn Hacc Hinv) as [(sim & Hrun & [Hsq _] & _)|[Hrun _]];
      [left; by exists sim|by right].
Qed.

Lemma result_shape_witness :
  exists sim, cosine 3 example_yr = Ok sim /\ square 3 sim.
Proof.
  apply (result_shape 3 example_yr); [lia| |].
  - apply (bool_decide_unpack _). vm_compute. exact I.
  - apply (bool_decide_unpack _). vm_compute. exact I.
Defined.

(** ** Errors of [compute_mean_diff] *)

(** X2. [compute_mean_diff] raises [ValueError] when [n_x] is negative;
    with [0 <= n_x < 2 ^ 30] and an id of [yr] outside [- n_x, n_x) it
    raises [IndexError] or [OverflowError], [IndexError] when all ids and
    ratings fit 32 bits; [msdClone] stops with the same error; and with
    ids within [- n_x, n_x) and ratings that fit 32 bits it returns. *)
Theorem compute_mean_diff_invalid_input n_x yr :
  (n_x < 0 ->
     compute_mean_diff n_x yr = Raise ValueError /\
     msdClone n_x yr = Raise ValueError) /\
  (0 <= n_x < 2 ^ 30 ->
   Exists (fun x => x < - n_x \/ n_x <= x) (ids_of yr) ->
     exists e, (e = IndexError \/ e = OverflowError) /\
       (Forall int_range (ids_of yr) -> Forall int_range (ratings_of yr) ->
        e = IndexError) /\
       compute_mean_diff n_x yr = Raise e /\ msdClone n_x yr = Raise e) /\
  (0 <= n_x < 2 ^ 30 ->
   Forall (fun x => - n_x <= x < n_x) (ids_of yr) ->
   Forall int_range (ratings_of yr) ->
     exists md, compute_mean_diff n_x yr = Ok md).
Proof.
  split; [|split].
  - intros Hn. split; [apply compute_mean_diff_refused; by left|].
    apply msdClone_refused. by left.
  - intros Hn Hex.
    destruct (invalid_id_error n_x yr) as (e & He & Hk & Hi); [lia|done|].
    exists e. split; [done|]. split; [done|].
    split; [by apply compute_mean_diff_error|by apply msdClone_error].
  - intros Hn Hids Hr.
    assert (first_error (Z.to_nat n_x) (all_pairs yr) = None) as He.
    { apply valid_no_error; [done| |done]. apply ids_accepted; [lia|done]. }
    destruct (compute_mean_diff_ok n_x yr Hn He) as (st & md & _ & _ & Hmd & _).
    by exists md.
Qed.

Lemma compute_mean_diff_invalid_input_witness :
  compute_mean_diff (-1) example_yr = Raise ValueError /\
  exists md, compute_mean_diff 3 example_yr = Ok md.
Proof.
  split.
  - apply (compute_mean_diff_invalid_input (-1) example_yr). lia.
  - apply (compute_mean_diff_invalid_input 3 example_yr); [lia| |].
    + apply (bool_decide_unpack _). vm_compute. exact I.
    + apply (bool_decide_unpack _). vm_compute. exact I.
Defined.

(** ** Ratings that do not fit 32 bits *)

(** X15. With [0 <= n_x < 2 ^ 30] and ids within [- n_x, n_x), a rating
    of [yr] outside [- 2 ^ 31, 2 ^ 31) makes each of the five functions
    raise [OverflowError]. *)
Theorem rating_overflow n_x yr :
  0 <= n_x < 2 ^ 30 ->
  Forall (fun x => - n_x <= x < n_x) (ids_of yr) ->
  Exists (fun r => r < - 2 ^ 31 \/ 2 ^ 31 <= r) (ratings_of yr) ->
  cosine n_x yr = Raise OverflowError /\ msd n_x yr = Raise OverflowError /\
  compute_mean_diff n_x yr = Raise OverflowError /\
  msdClone n_x yr = Raise OverflowError /\
  pearson n_x yr = Raise OverflowError.
Proof.
  intros Hn Hids Hex.
  assert (first_error (Z.to_nat n_x) (all_pairs yr) = Some OverflowError) as He.
  { apply valid_overflow; [done|apply ids_accepted; [lia|done]|].
    intros Hall. apply Exists_exists in Hex. destruct Hex as (r & Hr & Hbad).
    rewrite Forall_forall in Hall. specialize (Hall r Hr).
    unfold int_range in Hall. lia. }
  split; [by apply cosine_error|]. split; [by apply msd_error|].
  split; [by apply compute_mean_diff_error|].
  split; [by apply msdClone_error|by apply pearson_error].
Qed.

Lemma rating_overflow_witness :
  msd 2 large_rating_yr = Raise OverflowError.
Proof.
  apply (rating_overflow 2 large_rating_yr); [lia| |].
  - apply (bool_decide_unpack _). vm_compute. exact I.
  - apply (bool_decide_unpack _). vm_compute. exact I.
Defined.

(** ** The radicand of [pearson] *)

Lemma pearson_sim_error (L : list (Z * Z)) :
  pearson_sim L = Raise TypeError <->
  ~ (- 2 ^ 63 <= pearson_radicand_of L < 2 ^ 64).
Proof.
  unfold pearson_sim, np_sqrt.
  destruct (Z.leb_spec (- 2 ^ 63) (pearson_radicand_of L));
    destruct (Z.ltb_spec (pearson_radicand_of L) (2 ^ 64)); simpl;
    split; try done; lia.
Qed.

(** X16. On well-formed input whose ratings fit 32 bits, with
    [n_x < 2 ^ 30], [pearson] raises [TypeError] exactly when, for some
    pair [i < j], the integer under the square root fits neither a signed
    nor an unsigned 64-bit integer; otherwise it returns a matrix. *)
Theorem pearson_type_error n_x yr :
  wf_input n_x yr -> in_range n_x yr ->
  (pearson n_x yr = Raise TypeError <->
   exists i j, 0 <= i < j /\ j < n_x /\
     ~ (- 2 ^ 63 <= pearson_radicand_of (corated yr i j) < 2 ^ 64)) /\
  (pearson n_x yr = Raise TypeError \/ exists sim, pearson n_x yr = Ok sim).
Proof.
  intros Hwf Hr. destruct (pearson_result n_x yr Hwf Hr) as (st & _ & _ & _ & Hres).
  destruct Hres as [(sim & Hrun & _ & _ & Hs)|(Hrun & i & j & Hi & Hj & He)].
  - split; [|right; by exists sim]. split.
    + by rewrite Hrun.
    + intros (i & j & Hi & Hj & Hbad). apply pearson_sim_error in Hbad.
      destruct (Hs i j Hi Hj) as (v & Hv & _). by rewrite Hv in Hbad.
  - split; [|by left]. split; [|done].
    intros _. exists i, j. split; [done|]. split; [done|].
    by apply pearson_sim_error.
Qed.

Lemma pearson_type_error_witness :
  pearson 3 large_radicand_yr = Raise TypeError.
Proof.
  apply (pearson_type_error 3 large_radicand_yr).
  - apply (bool_decide_unpack _). vm_compute. exact I.
  - apply (bool_decide_unpack _). vm_compute. exact I.
  - exists 0, 1. split; [lia|]. split; [lia|]. vm_compute. intros [_ H]. discriminate H.
Defined.

(** ** Order of the items *)

Lemma sumZ_perm f L L' : L ≡ₚ L' -> sumZ f L = sumZ f L'.
Proof.
  induction 1 as [|p L L' _ IH|p q L|L1 L2 L3 _ IH1 _ IH2]; simpl;
    [done|rewrite IH; done|lia|congruence].
Qed.

Lemma cosine_sim_perm L L' : L ≡ₚ L' -> cosine_sim L = cosine_sim L'.
Proof.
  intros H. unfold cosine_sim.
  by rewrite (Permutation_length H), !(sumZ_perm _ L L' H).
Qed.

Lemma pearson_sim_perm L L' : L ≡ₚ L' -> pearson_sim L = pearson_sim L'.
Proof.
  intros H. unfold pearson_sim, pearson_radicand_of, pearson_num_of.
  by rewrite (Permutation_length H), !(sumZ_perm _ L L' H).
Qed.

(** X4. The order in which the dictionary [yr] yields its items does not
    matter to [cosine] and [pearson], whose accumulators are integers: on
    well-formed input each of them returns the same result for any other
    order of the items. *)
Theorem order_of_items n_x yr yr' :
  wf_input n_x yr -> yr ≡ₚ yr' ->
  cosine n_x yr = cosine n_x yr' /\ pearson n_x yr = pearson n_x yr'.
Proof.
  intros Hwf Hp.
  assert (wf_input n_x yr') as Hwf'.
  { destruct Hwf as [Hn Hwf]. split; [done|]. by rewrite <- Hp. }
  assert (ratings_of yr ≡ₚ ratings_of yr') as Hpr
    by (unfold ratings_of; by rewrite Hp).
  assert (forall i j, corated yr i j ≡ₚ corated yr' i j) as Hco
    by (intros i j; unfold corated; by rewrite Hp).
  destruct (Z.lt_ge_cases n_x (2 ^ 30)) as [Hlt|Hge].
  2:{ by rewrite !cosine_refused, !pearson_refused by (by right). }
  destruct (decide (Forall int_range (ratings_of yr))) as [Hr0|Hr0].
  2:{ assert (0 <= n_x < 2 ^ 30) as Hn by (destruct Hwf; lia).
      assert (~ Forall int_range (ratings_of yr')) as Hr' by (by rewrite <- Hpr).
      pose proof (valid_overflow n_x yr Hn (wf_valid _ _ Hwf) Hr0) as He.
      pose proof (valid_overflow n_x yr' Hn (wf_valid _ _ Hwf') Hr') as He'.
      by rewrite (cosine_error _ _ _ Hn He), (cosine_error _ _ _ Hn He'),
        (pearson_error _ _ _ Hn He), (pearson_error _ _ _ Hn He'). }
  assert (in_range n_x yr) as Hr by (by split).
  assert (in_range n_x yr') as Hr' by (split; [done|by rewrite <- Hpr]).
  split.
  - destruct (cosine_result n_x yr Hwf Hr)
      as (st & sim & _ & -> & _ & Hsq & _ & Hd & Hs).
    destruct (cosine_result n_x yr' Hwf' Hr')
      as (st' & sim' & _ & -> & _ & Hsq' & _ & Hd' & Hs').
    f_equal. apply (cells_determined n_x _ _ _ Hsq Hsq' Hd Hd').
    intros i j Hi Hj. destruct (Hs i j Hi Hj) as [-> ->].
    destruct (Hs' i j Hi Hj) as [-> ->].
    by rewrite (cosine_sim_perm _ _ (Hco i j)).
  - destruct (pearson_result n_x yr Hwf Hr) as (st & _ & _ & _ & Hres).
    destruct (pearson_result n_x yr' Hwf' Hr') as (st' & _ & _ & _ & Hres').
    destruct Hres as [(sim & -> & Hsq & Hd & Hs)|(-> & i & j & Hi & Hj & He)];
      destruct Hres' as [(sim' & -> & Hsq' & Hd' & Hs')|(-> & i' & j' & Hi' & Hj' & He')].
    + f_equal. apply (cells_determined n_x _ _ _ Hsq Hsq' Hd Hd').
      intros i j Hi Hj. destruct (Hs i j Hi Hj) as (v & Hv & -> & ->).
      destruct (Hs' i j Hi Hj) as (v' & Hv' & -> & ->).
      rewrite (pearson_sim_perm _ _ (Hco i j)), Hv' in Hv. by injection Hv as ->.
    + destruct (Hs i' j' Hi' Hj') as (v & Hv & _).
      by rewrite (pearson_sim_perm _ _ (Hco i' j')), He' in Hv.
    + destruct (Hs' i j Hi Hj) as (v & Hv & _).
      by rewrite <- (pearson_sim_perm _ _ (Hco i j)), He in Hv.
    + done.
Qed.

Lemma order_of_items_witness :
  cosine 3 example_yr =
  cosine 3 [(1, [(0, 5); (1, 5)]); (0, [(0, 4); (1, 4); (2, 1)])].
Proof.
  apply (order_of_items 3 example_yr); [exact example_wf|].
  apply perm_swap.
Defined.


(** ** The two triangles of the accumulators *)

(** X6. On well-formed input whose ratings fit 32 bits, with
    [n_x < 2 ^ 30], the accumulators of [cosine] and [pearson] below the
    diagonal mirror those above it: [freq] and [prods] are symmetric,
    [sqj[j, i] = sqi[i, j]] and [sj[j, i] = si[i, j]]. *)
Theorem accumulators_mirrored n_x yr i j :
  wf_input n_x yr -> in_range n_x yr -> 0 <= i < n_x -> 0 <= j < n_x ->
  (exists st, cosine_accumulate n_x yr = Ok st /\
     mget (cos_freq st) j i = mget (cos_freq st) i j /\
     mget (cos_prods st) j i = mget (cos_prods st) i j /\
     mget (cos_sqj st) j i = mget (cos_sqi st) i j) /\
  (exists st, pearson_accumulate n_x yr = Ok st /\
     mget (pe_freq st) j i = mget (pe_freq st) i j /\
     mget (pe_prods st) j i = mget (pe_prods st) i j /\
     mget (pe_sqj st) j i = mget (pe_sqi st) i j /\
     mget (pe_sj st) j i = mget (pe_si st) i j).
Proof.
  intros Hwf Hr Hi Hj.
  assert (sumZ (fun p => c_int (p.1 * p.2)) (corated yr j i) =
          sumZ (fun p => c_int (p.1 * p.2)) (corated yr i j)) as Ep.
  { rewrite (corated_swap yr i j), sumZ_fmap. apply sumZ_ext.
    intros p _. cbn [fst snd]. by rewrite Z.mul_comm. }
  assert (length (corated yr j i) = length (corated yr i j)) as El
    by (by rewrite (corated_swap yr i j), length_fmap).
  assert (sumZ (fun p => c_long (p.2 * p.2)) (corated yr j i) =
          sumZ (fun p => c_long (p.1 * p.1)) (corated yr i j)) as Eq
    by (by rewrite (corated_swap yr i j), sumZ_fmap).
  assert (sumZ (fun p => p.2) (corated yr j i) =
          sumZ (fun p => p.1) (corated yr i j)) as Es
    by (by rewrite (corated_swap yr i j), sumZ_fmap).
  split.
  - destruct (cosine_accumulate_wf n_x yr Hwf Hr) as (st & Hacc & _ & Hc).
    exists st. split; [done|].
    destruct (Hc i j Hi Hj) as (-> & -> & -> & _).
    destruct (Hc j i Hj Hi) as (-> & -> & _ & ->).
    by rewrite El, Ep, Eq.
  - destruct (pearson_accumulate_wf n_x yr Hwf Hr) as (st & Hacc & _ & Hc).
    exists st. split; [done|].
    destruct (Hc i j Hi Hj) as (-> & -> & -> & _ & -> & _).
    destruct (Hc j i Hj Hi) as (-> & -> & _ & -> & _ & ->).
    by rewrite El, Ep, Eq, Es.
Qed.

Lemma accumulators_mirrored_witness :
  exists st, cosine_accumulate 3 example_yr = Ok st /\
    mget (cos_sqj st) 2 0 = mget (cos_sqi st) 0 2.
Proof.
  destruct (accumulators_mirrored 3 example_yr 0 2 example_wf)
    as ((st & Hacc & _ & _ & H) & _).
  - apply (bool_decide_unpack _). vm_compute. exact I.
  - lia.
  - lia.
  - exists st. split; [exact Hacc|exact H].
Defined.

(** ** Agreement *)

Lemma d_sum_zeros (L : list (Z * Z)) (g : Z * Z -> double) :
  (forall p, p ∈ L -> g p = d_zero) -> d_sum (g <$> L) = d_zero.
Proof.
  unfold d_sum. induction L as [|p L IH]; intros H; [done|].
  change (g <$> p :: L) with (g p :: (g <$> L)). cbn [foldl].
  rewrite (H p) by left. change (dadd d_zero d_zero) with d_zero.
  apply IH. intros q Hq. apply H. by right.
Qed.

(** X7. On well-formed input whose ratings fit 32 bits, with
    [n_x < 2 ^ 30], when the ratings of two distinct entities agree under
    every [y] that rated both, the cell of [msd] for the pair is the count
    of their co-ratings. *)
Theorem msd_agreement n_x yr i j :
  wf_input n_x yr -> in_range n_x yr ->
  0 <= i < n_x -> 0 <= j < n_x -> i <> j ->
  Z.of_nat (length yr) < 2 ^ 63 ->
  (forall p, p ∈ corated yr i j -> p.1 = p.2) ->
  exists sim, msd n_x yr = Ok sim /\
    mget sim i j = Ok (d_of_Z (co_count yr i j)).
Proof.
  intros Hwf Hr Hi Hj Hne HN Hagree.
  assert (forall i' j' : Z, (forall p, p ∈ corated yr i' j' -> p.1 = p.2) ->
            msd_sim (corated yr i' j') = d_of_Z (co_count yr i' j')) as Hsim.
  { intros i' j' Ha. unfold msd_sim, msd_sq_diff_of.
    rewrite d_sum_zeros.
    - change (d_eq0 d_zero) with true. cbv iota. unfold co_count.
      rewrite c_long_id; [done|]. pose proof (corated_length yr i' j'). lia.
    - intros p Hp. rewrite (Ha p Hp), Z.sub_diag. reflexivity. }
  destruct (msd_result n_x yr Hwf Hr) as (st & sim & _ & Hrun & _ & _ & _ & _ & Hs).
  exists sim. split; [done|].
  destruct (Z.lt_ge_cases i j).
  - destruct (Hs i j) as [-> _]; [lia..|]. by rewrite Hsim.
  - destruct (Hs j i) as [_ ->]; [lia..|]. rewrite Hsim.
    + unfold co_count. by rewrite (corated_swap yr j i), length_fmap.
    + intros p Hp. rewrite (corated_swap yr i j) in Hp.
      apply list_elem_of_fmap in Hp. destruct Hp as (q & -> & Hq).
      cbn [fst snd]. symmetry. by apply Hagree.
Qed.

Lemma msd_agreement_witness :
  exists sim, msd 3 example_yr = Ok sim /\ mget sim 1 0 = Ok (d_of_Z 2).
Proof.
  apply (msd_agreement 3 example_yr 1 0 example_wf).
  - apply (bool_decide_unpack _). vm_compute. exact I.
  - lia.
  - lia.
  - lia.
  - simpl. lia.
  - intros p Hp. change (corated example_yr 1 0) with [(4, 4); (5, 5)] in Hp.
    apply elem_of_cons in Hp. destruct Hp as [->|Hp]; [done|].
    apply list_elem_of_singleton in Hp. by subst p.
Defined.

(** ** Equal ratings on one side *)

Lemma sumZ_const (f : Z * Z -> Z) c L :
  (forall p, p ∈ L -> f p = c) -> sumZ f L = Z.of_nat (length L) * c.
Proof.
  induction L as [|p L IH]; intros H; [simpl; lia|].
  rewrite sumZ_cons, (H p) by apply list_elem_of_here.
  rewrite IH; [simpl length; lia|].
  intros q Hq. apply H. by apply list_elem_of_further.
Qed.

Lemma variance_const (f : Z * Z -> Z) L :
  (forall p q, p ∈ L -> q ∈ L -> f p = f q) ->
  Z.of_nat (length L) * sumZ (fun p => f p ^ 2) L - sumZ f L ^ 2 = 0.
Proof.
  intros H. destruct L as [|a L]; [simpl; lia|].
  rewrite (sumZ_const f (f a)), (sumZ_const (fun p => f p ^ 2) (f a ^ 2)).
  - lia.
  - intros p Hp. f_equal. apply H; [done|apply list_elem_of_here].
  - intros p Hp. apply H; [done|apply list_elem_of_here].
Qed.

(** X13. Within the bounds of the formula of [pearson], when the
    co-rated ratings of one of two distinct entities are all equal, in
    particular when the pair has at most one co-rating, the integer under
    the square root is zero and the cell of the pair is 0. *)
Theorem pearson_degenerate n_x yr B K i j :
  wf_input n_x yr -> n_x < 2 ^ 30 -> rating_bound B yr -> B * B < 2 ^ 31 ->
  Z.of_nat (length yr) <= K ->
  Z.of_nat (length yr) * Z.of_nat (length yr) * (B * B) <= K ->
  K * K < 2 ^ 64 ->
  0 <= i < n_x -> 0 <= j < n_x -> i <> j ->
  (forall p q, p ∈ corated yr i j -> q ∈ corated yr i j -> p.1 = q.1) \/
  (forall p q, p ∈ corated yr i j -> q ∈ corated yr i j -> p.2 = q.2) ->
  pearson_radicand_of (corated yr i j) = 0 /\
  exists sim, pearson n_x yr = Ok sim /\ mget sim i j = Ok (d_of_Z 0).
Proof.
  intros Hwf Hn HB HBB HN HNB HK Hi Hj Hne Hconst.
  assert (in_range n_x yr) as Hr.
  { apply (rating_bound_range B); [done|done|]. clear - HBB. nia. }
  destruct (pearson_sim_corated yr B K i j HB HBB HN HNB HK)
    as (HL & HnK & HnB & _).
  destruct (pearson_sim_bounded _ B K HL HBB HnK HnB HK)
    as (_ & _ & _ & _ & _ & _ & _ & Erad & _).
  set (L := corated yr i j) in *.
  assert (pearson_radicand_of L = 0) as Hz.
  { rewrite Erad. destruct Hconst as [Hc|Hc].
    - assert (Z.of_nat (length L) * sumZ (fun p => p.1 ^ 2) L
              - sumZ (fun p => p.1) L ^ 2 = 0) as -> by apply (variance_const fst L Hc).
      lia.
    - assert (Z.of_nat (length L) * sumZ (fun p => p.2 ^ 2) L
              - sumZ (fun p => p.2) L ^ 2 = 0) as -> by apply (variance_const snd L Hc).
      lia. }
  split; [done|].
  assert (pearson_sim L = Ok (d_of_Z 0)) as Hsim.
  { unfold pearson_sim. rewrite Hz. reflexivity. }
  destruct (pearson_result n_x yr Hwf Hr) as (st & _ & _ & _ & Hres).
  destruct Hres as [(sim & Hrun & _ & _ & Hs)|(_ & i' & j' & _ & _ & He)].
  2:{ destruct (pearson_sim_corated yr B K i' j' HB HBB HN HNB HK)
        as (_ & _ & _ & v & Hv).
      by rewrite Hv in He. }
  exists sim. split; [done|].
  destruct (Z.lt_ge_cases i j).
  - destruct (Hs i j) as (v & Hv & Sij & _); [lia..|]. fold L in Hv.
    rewrite Hsim in Hv. by injection Hv as <-.
  - destruct (Hs j i) as (v & Hv & _ & Sji); [lia..|].
    rewrite corated_swap, pearson_sim_swap in Hv. fold L in Hv.
    rewrite Hsim in Hv. by injection Hv as <-.
Qed.

Lemma pearson_degenerate_witness :
  exists sim, pearson 2 constant_yr = Ok sim /\ mget sim 0 1 = Ok (d_of_Z 0).
Proof.
  apply (pearson_degenerate 2 constant_yr 4 16 0 1).
  - apply (bool_decide_unpack _). vm_compute. exact I.
  - lia.
  - apply (bool_decide_unpack _). vm_compute. exact I.
  - lia.
  - simpl. lia.
  - simpl. lia.
  - lia.
  - lia.
  - lia.
  - lia.
  - left. intros p q Hp Hq. change (corated constant_yr 0 1) with [(4, 4)] in Hp, Hq.
    apply list_elem_of_singleton in Hp. apply list_elem_of_singleton in Hq.
    by subst p q.
Defined.
